(** * ADEA argument graph: nodes, reference resolution, queries

    A shallow embedding of [src/stance.py], [src/graph_node.py],
    [src/read_argument_graph.py] and [src/argument_graph.py].

    - Python objects live in a store, a list of nodes; an object reference
      is a position in the store.  The link sets of a node ([child_nodes],
      [parent_nodes], ...) are Python sets of node objects: they hold
      references, and their membership test goes through
      [GraphNode.__hash__] and [GraphNode.__eq__], which are written out
      below.
    - The builtin [hash] on strings is not part of the repository: it is a
      parameter of the development, a [Variable] of the sections that use
      it.  Examples are run with [sample_hash].
    - A set is a list without two equal elements, in the order of
      insertion.  CPython iterates a set in the order of its hash table;
      where the source depends on that order ([next(iter(s))]) the
      statements below are about sets of one element, or about some
      element of the set.
    - An exception is a result: a function that can raise returns an
      [option], and [None] stands for the raised exception.  Output
      ([print]) is not modelled. *)

From Stdlib Require Import ZArith Lia Ascii String.
From stdpp Require Import base option list finite gmap strings.

Open Scope string_scope.
Open Scope Z_scope.
Open Scope list_scope.

(** ** Text *)

Abbreviation Text := string.

Module Text.

(** The characters [str.strip()] removes, for code points below 256
    (a [string] is read as a sequence of such code points). *)
Definition is_space (c : ascii) : bool :=
  let n := Z.of_N (N_of_ascii c) in
  ((9 <=? n) && (n <=? 13)) || ((28 <=? n) && (n <=? 32))
  || (n =? 133) || (n =? 160).

Fixpoint lstrip (s : string) : string :=
  match s with
  | EmptyString => EmptyString
  | String c s' => if is_space c then lstrip s' else s
  end.

Definition rstrip (s : string) : string :=
  String.rev (lstrip (String.rev s)).

Definition strip (s : string) : string := rstrip (lstrip s).

(** [set(...)] over strings: the elements without repetition.  The order
    of the list is the iteration order of the set. *)
Definition set (l : list Text) : list Text := remove_dups l.

(** [s.discard(x)] *)
Definition discard (x : Text) (s : list Text) : list Text :=
  filter (λ y, y ≠ x) s.

(** [c.lower()] for a code point below 256: the letters [A]-[Z], and the
    letters from 192 to 222 without the multiplication sign (215), move up
    by 32. *)
Definition lower_char (c : ascii) : ascii :=
  let n := Z.of_N (N_of_ascii c) in
  if ((65 <=? n) && (n <=? 90))
     || ((192 <=? n) && (n <=? 222) && negb (n =? 215))
  then ascii_of_N (N_of_ascii c + 32) else c.

(** [s.lower()] *)
Fixpoint lower (s : string) : string :=
  match s with
  | EmptyString => EmptyString
  | String c s' => String (lower_char c) (lower s')
  end.

(** [sub in s] *)
Fixpoint contains (sub s : string) : bool :=
  String.prefix sub s
  || match s with
     | EmptyString => false
     | String _ s' => contains sub s'
     end.

(** [s.count(c)] for a string [c] of one character *)
Fixpoint count_char (c : ascii) (s : string) : nat :=
  match s with
  | EmptyString => O
  | String c' s' => ((if Ascii.eqb c' c then 1 else 0) + count_char c s')%nat
  end.

End Text.

(** ** Object references and Python sets of nodes *)

Abbreviation ref := nat.

Module NodeSet.
Section Keyed.
(** [key r] is [hash(r)] for the node object [r].  Two nodes with the
    same hash are [==] (see [GraphNode.__eq__]), so a set holds at most
    one node per key: the one added first. *)
Variable key : ref → Z.

(** [x in s] *)
Definition mem (x : ref) (s : list ref) : bool :=
  existsb (λ y, key y =? key x) s.

(** [s.add(x)] *)
Definition add (s : list ref) (x : ref) : list ref :=
  if mem x s then s else s ++ [x].

(** [s.update(xs)] *)
Definition update (s : list ref) (xs : list ref) : list ref :=
  foldl add s xs.
End Keyed.
End NodeSet.

(** ** stance.py *)

Module Stance.
Inductive t := PRO | CON | OTHER.

Global Instance eq_dec : EqDecision t.
Proof. solve_decision. Defined.

(** The deprecation warning is issued and not modelled. *)
Definition from_label (label : Text) : t :=
  if (Text.contains "P" label && (Text.count_char "-" label mod 2 =? 0)%nat)
     || (Text.contains "K" label && (Text.count_char "-" label mod 2 =? 1)%nat)
  then PRO
  else if (Text.contains "K" label && (Text.count_char "-" label mod 2 =? 0)%nat)
          || (Text.contains "P" label && (Text.count_char "-" label mod 2 =? 1)%nat)
  then CON
  else OTHER.

Definition string_to_stance : gmap Text t :=
  <["pro" := PRO]> (<["con" := CON]> ∅).

Definition from_string (stance_string : Text) : t :=
  let stance_string := Text.strip (Text.lower stance_string) in
  default OTHER (string_to_stance !! stance_string).
End Stance.

(** ** graph_node.py *)

Module GraphNodeCategory.
Inductive t := Z | NZ | FAQ | OTHER.

Global Instance eq_dec : EqDecision t.
Proof. solve_decision. Defined.

Definition string_to_category : gmap Text t :=
  <["z" := Z]> (<["nz" := NZ]> (<["faq" := FAQ]> ∅)).

Definition from_string (category_string : Text) : t :=
  let category_string := Text.strip (Text.lower category_string) in
  default OTHER (string_to_category !! category_string).
End GraphNodeCategory.

Module GraphNode.

Record t := mk {
  label : Text;
  full_text : Text;
  parents : list Text;
  label_name : Text;
  paraphrase : Text;
  summary : Text;
  groups : list Text;
  rating : Z;
  reaction_to_argument : Z;
  category : GraphNodeCategory.t;
  stance : Stance.t;
  samples : list Text;
  similars : list Text;
  child_nodes : list ref;
  parent_nodes : list ref;
  similar_nodes : list ref;
  group_nodes : list ref;
  group_member_nodes : list ref
}.

Global Instance inhabited : Inhabited t :=
  populate (mk "" "" [] "" "" "" [] (-1) (-1)
               GraphNodeCategory.OTHER Stance.OTHER [] [] [] [] [] [] []).

(** The arguments of the dataclass constructor (the fields with
    [init=True]). *)
Module Init.
Record t := mk {
  label : Text;
  full_text : Text;
  parents : list Text;
  label_name : Text;
  paraphrase : Text;
  summary : Text;
  groups : list Text;
  rating : Z;
  reaction_to_argument : Z;
  category : GraphNodeCategory.t;
  stance : Stance.t;
  samples : list Text;
  similars : list Text
}.
End Init.

Definition _cleanup_attributes (self : t) : t :=
  let label' := Text.strip (label self) in
  let parents' := Text.set (Text.strip <$> parents self) in
  let groups' := Text.set (Text.strip <$> groups self) in
  let label_name' := Text.strip (label_name self) in
  let label_name' := if bool_decide (label_name' = "") then label' else label_name' in
  mk label' (full_text self) parents' label_name' (paraphrase self)
     (summary self) groups' (rating self) (reaction_to_argument self)
     (category self) (stance self) (samples self) (similars self)
     (child_nodes self) (parent_nodes self) (similar_nodes self)
     (group_nodes self) (group_member_nodes self).

(** The two warnings are printed and not modelled. *)
Definition _match_constraints (self : t) : t :=
  let groups' :=
    if bool_decide (label self ∈ groups self)
    then Text.discard (label self) (groups self) else groups self in
  let parents' :=
    if bool_decide (label self ∈ parents self)
    then Text.discard (label self) (parents self) else parents self in
  mk (label self) (full_text self) parents' (label_name self)
     (paraphrase self) (summary self) groups' (rating self)
     (reaction_to_argument self) (category self) (stance self)
     (samples self) (similars self)
     (child_nodes self) (parent_nodes self) (similar_nodes self)
     (group_nodes self) (group_member_nodes self).

Definition __post_init__ (self : t) : t :=
  _match_constraints (_cleanup_attributes self).

(** The generated [__init__]: the five link sets start empty. *)
Definition __init__ (a : Init.t) : t :=
  __post_init__
    (mk (Init.label a) (Init.full_text a) (Init.parents a)
        (Init.label_name a) (Init.paraphrase a) (Init.summary a)
        (Init.groups a) (Init.rating a) (Init.reaction_to_argument a)
        (Init.category a) (Init.stance a) (Init.samples a)
        (Init.similars a) [] [] [] [] []).

Definition has_child_nodes (self : t) : bool :=
  bool_decide (0 < length (child_nodes self))%nat.
Definition has_parent_labels (self : t) : bool :=
  bool_decide (0 < length (parents self))%nat.
Definition has_parent_nodes (self : t) : bool :=
  bool_decide (0 < length (parent_nodes self))%nat.
Definition has_group_labels (self : t) : bool :=
  bool_decide (0 < length (groups self))%nat.
Definition has_group_nodes (self : t) : bool :=
  bool_decide (0 < length (group_nodes self))%nat.
Definition has_group_member_nodes (self : t) : bool :=
  bool_decide (0 < length (group_member_nodes self))%nat.

(** [next(iter(self.groups))] raises [StopIteration] on an empty set. *)
Definition as_tuple (self : t) : option (Text * Text * Text * Text * Z * Text) :=
  match groups self with
  | [] => None
  | g :: _ =>
      Some (label self, summary self, paraphrase self, full_text self,
            rating self, g)
  end.

Definition as_labelfile_dict (self : t) : Text := label self.

(** The two label views read the node objects behind a link set, in the
    store [st]. *)
Definition children (st : list t) (self : t) : list Text :=
  Text.set ((λ r, label (st !!! r)) <$> child_nodes self).
Definition has_child_labels (st : list t) (self : t) : bool :=
  bool_decide (0 < length (children st self))%nat.
Definition group_members (st : list t) (self : t) : list Text :=
  Text.set ((λ r, label (st !!! r)) <$> group_member_nodes self).
Definition has_group_member_labels (st : list t) (self : t) : bool :=
  bool_decide (0 < length (group_members st self))%nat.

(** The five link sets, as a family. *)
Inductive link := Child | Parent | Similar | Group | GroupMember.

Global Instance link_eq_dec : EqDecision link.
Proof. solve_decision. Defined.

Definition links (f : link) (self : t) : list ref :=
  match f with
  | Child => child_nodes self
  | Parent => parent_nodes self
  | Similar => similar_nodes self
  | Group => group_nodes self
  | GroupMember => group_member_nodes self
  end.

Definition relink (self : t) (c p s g m : list ref) : t :=
  mk (label self) (full_text self) (parents self) (label_name self)
     (paraphrase self) (summary self) (groups self) (rating self)
     (reaction_to_argument self) (category self) (stance self)
     (samples self) (similars self) c p s g m.

Definition with_links (f : link) (s : list ref) (self : t) : t :=
  match f with
  | Child =>
      relink self s (parent_nodes self) (similar_nodes self)
             (group_nodes self) (group_member_nodes self)
  | Parent =>
      relink self (child_nodes self) s (similar_nodes self)
             (group_nodes self) (group_member_nodes self)
  | Similar =>
      relink self (child_nodes self) (parent_nodes self) s
             (group_nodes self) (group_member_nodes self)
  | Group =>
      relink self (child_nodes self) (parent_nodes self)
             (similar_nodes self) s (group_member_nodes self)
  | GroupMember =>
      relink self (child_nodes self) (parent_nodes self)
             (similar_nodes self) (group_nodes self) s
  end.

(** What [__eq__] can be handed: a node, or an object of another class. *)
Inductive object := Node (n : t) | NotANode.

Section WithHash.
(** The builtin [hash] on [str]. *)
Variable hash : Text → Z.

(** Every node of the model has a [label] attribute, so the [else]
    branch ([hash(None)]) is never taken. *)
Definition __hash__ (self : t) : Z := hash (label self).

Definition __eq__ (self : t) (o : object) : bool :=
  match o with
  | Node n => __hash__ self =? __hash__ n
  | NotANode => false
  end.

(** *** Nodes in a store *)

Definition hash_at (st : list t) (r : ref) : Z := __hash__ (st !!! r).

(** [st[target].f.add(x)] *)
Definition links_add (f : link) (target x : ref) (st : list t) : list t :=
  alter (λ n, with_links f (NodeSet.add (hash_at st) (links f n) x) n)
        target st.

(** [st[target].f.update(xs)] *)
Definition links_update (f : link) (target : ref) (xs : list ref)
    (st : list t) : list t :=
  alter (λ n, with_links f (NodeSet.update (hash_at st) (links f n) xs) n)
        target st.

(** The four transitive views share one body, over a link set [f]:
<<
    result = set()
    for x in self.f:
        if x in result: continue
        result.add(x)
        result.update(x.<view>)
    return result
>>
    [fuel] is the number of nested calls the interpreter still allows;
    [None] is [RecursionError]. *)
Fixpoint closure (f : link) (fuel : nat) (st : list t) (self : ref)
    : option (list ref) :=
  match fuel with
  | O => None
  | S fuel' =>
      foldl
        (λ acc x,
           match acc with
           | None => None
           | Some result =>
               if NodeSet.mem (hash_at st) x result then Some result
               else
                 match closure f fuel' st x with
                 | None => None
                 | Some sub =>
                     Some (NodeSet.update (hash_at st)
                             (NodeSet.add (hash_at st) result x) sub)
                 end
           end)
        (Some []) (links f (st !!! self))
  end.

Definition super_group_nodes := closure Group.
Definition sub_group_member_nodes := closure GroupMember.
Definition ancestor_nodes := closure Parent.
Definition descendant_nodes := closure Child.
End WithHash.

End GraphNode.

(** ** Exceptions

    What a call gives: the value it returns, or the exception it raises. *)

Inductive exn := TypeError | AttributeError | KeyError | AssertionError.

Inductive result (A : Type) :=
  | Returns (a : A)
  | Raises (e : exn).
Arguments Returns {A} a.
Arguments Raises {A} e.

#[global] Instance result_ret : MRet result := @Returns.
#[global] Instance result_bind : MBind result :=
  λ A B f m, match m with Returns a => f a | Raises e => Raises e end.

(** ** read_argument_graph.py *)

Module ReadArgumentGraph.

(** What the character class [[^,\s]] excludes: the comma and the
    whitespace characters ([\s] on a [str] pattern is the whitespace of
    [str.strip()]). *)
Definition is_separator (c : ascii) : bool :=
  (Z.of_N (N_of_ascii c) =? 44) || Text.is_space c.

(** The matches of [re.finditer(r"[^,\s]+", text)], as the substrings
    [text[match.start(): match.end()]], read from left to right: [matched]
    is the match that is being extended. *)
Fixpoint finditer (matched : Text) (text : Text) : list Text :=
  match text with
  | EmptyString => if bool_decide (matched = "") then [] else [matched]
  | String c text' =>
      if is_separator c
      then (if bool_decide (matched = "") then [] else [matched])
           ++ finditer "" text'
      else finditer (matched ++ String c "")%string text'
  end.

Definition split_by_comma (text : Text) : list Text := finditer "" text.

Definition parse_parents_string (parents_string : Text) : list Text :=
  split_by_comma parents_string.
Definition parse_similars_string (similars_string : Text) : list Text :=
  split_by_comma similars_string.
Definition parse_groups_string (groups_string : Text) : list Text :=
  split_by_comma groups_string.
Definition parse_category_string (category_string : Text) : GraphNodeCategory.t :=
  GraphNodeCategory.from_string category_string.
Definition parse_stance_string (stance_string : Text) : Stance.t :=
  Stance.from_string stance_string.

(** What a cell of a frame holds: text, an integer, or nothing ([NA]: the
    values [pd.isna] is true of). *)
Module Cell.
Inductive t := NA | Str (s : Text) | Int (z : Z).

Definition isna (v : t) : bool :=
  match v with NA => true | _ => false end.
End Cell.

(** A row of a frame of nodes as [row.items()] gives it: the cells under
    the names of their columns, in the order of the columns. *)
Module Row.
Abbreviation t := (list (Text * Cell.t)).
End Row.

(** A row of the frame [read_samples_file] reads. *)
Module Sample.
Record t := mk {
  label : option Text;
  text : option Text
}.
End Sample.

(** [str(row["text"])]: a missing cell is the float [nan]. *)
Definition str (cell : option Text) : Text := default "nan" cell.

Definition parse_samples_from_dataframe (label : Text)
    (samples_dataframe : list Sample.t) : list Text :=
  (λ row, str (Sample.text row))
    <$> filter (λ row, Sample.label row = Some label) samples_dataframe.

(** [{k: v for k, v in row.items() if not pd.isna(v) and k != "Unnamed: 0"}]:
    a later column replaces an earlier one of the same name. *)
Definition args (row : Row.t) : gmap Text Cell.t :=
  foldl (λ args (item : Text * Cell.t),
           if negb (Cell.isna item.2) && bool_decide (item.1 ≠ "Unnamed: 0")
           then <[item.1 := item.2]> args
           else args)
        ∅ row.

(** The value under a key that [if key in args: args[key] = parse(args[key])]
    leaves there, or [default], the default of the parameter, without the
    key.  On an integer, [parse] raises [error]: [AttributeError] where it
    calls a method of [str], [TypeError] where it calls [re.finditer]. *)
Definition parsed {A} (error : exn) (parse : Text → A) (default : A)
    (cell : option Cell.t) : result A :=
  match cell with
  | None => Returns default
  | Some (Cell.Str s) => Returns (parse s)
  | Some _ => Raises error
  end.

(** The value of a field declared [Text], or [int]: [None] for an argument
    of another type. *)
Definition text_field (default : Text) (cell : option Cell.t) : option Text :=
  match cell with
  | None => Some default
  | Some (Cell.Str s) => Some s
  | Some _ => None
  end.

Definition int_field (default : Z) (cell : option Cell.t) : option Z :=
  match cell with
  | None => Some default
  | Some (Cell.Int z) => Some z
  | Some _ => None
  end.

(** The parameters of [GraphNode(...)]: the fields of the dataclass that
    are not declared with [init=False]. *)
Definition parameters : list Text :=
  ["label"; "full_text"; "parents"; "label_name"; "paraphrase"; "summary";
   "groups"; "rating"; "reaction_to_argument"; "category"; "stance";
   "samples"; "similars"].

(** The call of [GraphNode] with the keyword arguments [args], for the
    [args] of a row with the cells [label] and [full_text], where the loop
    body has put [samples] (if there is a samples frame), [category],
    [stance], [parents], [similars] and [groups] under their keys.  The
    call raises [TypeError] for a key that is no parameter; then
    [__post_init__] raises [AttributeError] for a [label] or a
    [label_name] that is no text, on which it calls [strip].  The node
    object made is [None] when another argument is not of the type its
    field declares (an integer as [full_text], [paraphrase] or [summary];
    text as [rating] or [reaction_to_argument]; the cell of a [samples]
    column as [samples]): [GraphNode.t] has no such node. *)
Definition construct (args : gmap Text Cell.t) (label full_text : Cell.t)
    (samples : option (list Text))
    (category : GraphNodeCategory.t) (stance : Stance.t)
    (parents similars groups : list Text) : result (option GraphNode.t) :=
  if bool_decide (map_Forall (λ k _, k ∈ parameters) args)
  then
    label ← parsed AttributeError id "" (Some label);
    label_name ← parsed AttributeError id "" (args !! "label_name");
    Returns
      (full_text ← text_field "" (Some full_text);
       paraphrase ← text_field "" (args !! "paraphrase");
       summary ← text_field "" (args !! "summary");
       rating ← int_field (-1) (args !! "rating");
       reaction_to_argument ← int_field (-1) (args !! "reaction_to_argument");
       samples ← match samples with
                 | Some samples => Some samples
                 | None => match args !! "samples" with
                           | Some _ => None
                           | None => Some []
                           end
                 end;
       Some (GraphNode.__init__
               (GraphNode.Init.mk label full_text parents label_name paraphrase
                  summary groups rating reaction_to_argument category stance
                  samples similars)))
  else Raises TypeError.

(** The body of the loop of [get_nodes_from_df]: the node objects one row
    appends to [graph_nodes].  No label of the samples frame is equal to
    an integer. *)
Definition row_nodes (samples_dataframe : option (list Sample.t)) (row : Row.t)
    : result (list (option GraphNode.t)) :=
  let args := args row in
  match args !! "label", args !! "full_text" with
  | Some label, Some full_text =>
      let samples :=
        (λ df, match label with
               | Cell.Str label => Text.set (parse_samples_from_dataframe label df)
               | _ => []
               end) <$> samples_dataframe in
      category ← parsed AttributeError parse_category_string
                   GraphNodeCategory.OTHER (args !! "category");
      stance ← parsed AttributeError parse_stance_string Stance.OTHER
                 (args !! "stance");
      parents ← parsed TypeError (λ s, Text.set (parse_parents_string s)) []
                  (args !! "parents");
      similars ← parsed TypeError (λ s, Text.set (parse_parents_string s)) []
                   (args !! "similars");
      groups ← parsed TypeError (λ s, Text.set (parse_groups_string s)) []
                 (args !! "groups");
      graph_node ← construct args label full_text samples category stance
                     parents similars groups;
      Returns [graph_node]
  | _, _ => Returns []
  end.

Fixpoint get_nodes_from_df (graph_nodes_df : list Row.t)
    (samples_dataframe : option (list Sample.t))
    : result (list (option GraphNode.t)) :=
  match graph_nodes_df with
  | [] => Returns []
  | row :: graph_nodes_df =>
      nodes ← row_nodes samples_dataframe row;
      graph_nodes ← get_nodes_from_df graph_nodes_df samples_dataframe;
      Returns (nodes ++ graph_nodes)
  end.

End ReadArgumentGraph.

(** ** argument_graph.py *)

Module ArgumentGraph.

(** The six partitions hold references into [store], the node objects the
    graph was given.  [_label_to_node] is the dict of [__post_init__]. *)
Record t := mk {
  store : list GraphNode.t;
  introduction_nodes : list ref;
  transition_nodes : list ref;
  z_arguments_nodes : list ref;
  group_nodes : list ref;
  nz_arguments_nodes : list ref;
  faq_nodes : list ref;
  _label_to_node : gmap Text ref
}.

Definition with_store (self : t) (st : list GraphNode.t) : t :=
  mk st (introduction_nodes self) (transition_nodes self)
     (z_arguments_nodes self) (group_nodes self) (nz_arguments_nodes self)
     (faq_nodes self) (_label_to_node self).

Definition with_index (self : t) (d : gmap Text ref) : t :=
  mk (store self) (introduction_nodes self) (transition_nodes self)
     (z_arguments_nodes self) (group_nodes self) (nz_arguments_nodes self)
     (faq_nodes self) d.

(** The node object behind a reference. *)
Definition node (self : t) (r : ref) : GraphNode.t := store self !!! r.

Definition all_nodes (self : t) : list ref :=
  introduction_nodes self ++ transition_nodes self
  ++ z_arguments_nodes self ++ group_nodes self
  ++ nz_arguments_nodes self ++ faq_nodes self.

Definition get_node_for_label (self : t) (label : Text) : option ref :=
  _label_to_node self !! label.

(** [{node.label: node for node in nodes}]: a later node replaces an
    earlier one under the same key. *)
Definition label_dict (st : list GraphNode.t) (nodes : list ref)
    : gmap Text ref :=
  foldl (λ d r, <[GraphNode.label (st !!! r) := r]> d) ∅ nodes.

Definition get_counter_args (self : t) (label : Text) : option (list ref) :=
  match get_node_for_label self label with
  | None => None
  | Some r =>
      if bool_decide (0 < length (GraphNode.child_nodes (node self r)))%nat
      then Some (GraphNode.child_nodes (node self r))
      else None
  end.

Definition faq_question_nodes (self : t) : list ref :=
  filter (λ r, GraphNode.has_parent_labels (node self r) = false)
         (faq_nodes self).

Definition faq_answer_nodes (self : t) : list ref :=
  filter (λ r, GraphNode.has_parent_labels (node self r) = true)
         (faq_nodes self).

(** The two warnings are printed and not modelled.  [next(iter(s))] is the
    first node of the set in iteration order; the model iterates a set in
    the order of insertion. *)
Definition faq_node_pairs (self : t) : list (ref * ref) :=
  foldl
    (λ q_a_tuples answer_node,
       match GraphNode.parent_nodes (node self answer_node) with
       | [] => q_a_tuples
       | question_node :: _ => q_a_tuples ++ [(question_node, answer_node)]
       end)
    [] (faq_answer_nodes self).

Definition get_faq_list (self : t) : list (Text * Text) :=
  (λ qa, (GraphNode.full_text (node self qa.1),
          GraphNode.full_text (node self qa.2))) <$> faq_node_pairs self.

Definition _label_set_from_nodes (self : t) (nodes : list ref) : list Text :=
  Text.set ((λ r, GraphNode.label (node self r)) <$> nodes).

(** The label sets are cached properties: each is computed at its first
    use, on the constructed graph. *)
Definition introduction_labels (self : t) : list Text :=
  _label_set_from_nodes self (introduction_nodes self).
Definition transition_labels (self : t) : list Text :=
  _label_set_from_nodes self (transition_nodes self).
Definition z_arguments_labels (self : t) : list Text :=
  _label_set_from_nodes self (z_arguments_nodes self).
Definition group_labels (self : t) : list Text :=
  _label_set_from_nodes self (group_nodes self).
Definition nz_arguments_labels (self : t) : list Text :=
  _label_set_from_nodes self (nz_arguments_nodes self).
Definition faq_labels (self : t) : list Text :=
  _label_set_from_nodes self (faq_nodes self).
Definition all_labels (self : t) : list Text :=
  _label_set_from_nodes self (all_nodes self).

Definition arguments_nodes (self : t) : list ref :=
  z_arguments_nodes self ++ nz_arguments_nodes self.
Definition arguments_labels (self : t) : list Text :=
  _label_set_from_nodes self (arguments_nodes self).

Definition nz_arguments_first_level_nodes (self : t) : list ref :=
  filter (λ r, GraphNode.has_parent_labels (node self r) = false)
         (nz_arguments_nodes self).

Definition user_arguments_nodes (self : t) : list ref :=
  z_arguments_nodes self ++ nz_arguments_first_level_nodes self.
Definition user_arguments_labels (self : t) : list Text :=
  _label_set_from_nodes self (user_arguments_nodes self).

Definition user_intent_nodes (self : t) : list ref :=
  user_arguments_nodes self ++ faq_question_nodes self.
Definition user_intent_labels (self : t) : list Text :=
  _label_set_from_nodes self (user_intent_nodes self).

Definition faq_question_labels (self : t) : list Text :=
  _label_set_from_nodes self (faq_question_nodes self).

Definition paraphrase_introduction_nodes (self : t) : list ref :=
  let groups_contain_paraphrase (groups : list Text) : bool :=
    existsb (λ group, Text.contains "paraphrase" group) groups in
  filter (λ r, groups_contain_paraphrase (GraphNode.groups (node self r)) = true)
         (introduction_nodes self).

Definition z_nodes (self : t) : list ref :=
  filter (λ r, GraphNode.category (node self r) = GraphNodeCategory.Z)
         (all_nodes self).
Definition z_labels (self : t) : list Text :=
  _label_set_from_nodes self (z_nodes self).

Definition nz_nodes (self : t) : list ref :=
  filter (λ r, GraphNode.category (node self r) = GraphNodeCategory.NZ)
         (all_nodes self).
Definition nz_labels (self : t) : list Text :=
  _label_set_from_nodes self (nz_nodes self).

Definition z_group_nodes (self : t) : list ref :=
  filter (λ r, GraphNode.category (node self r) = GraphNodeCategory.Z)
         (group_nodes self).
Definition z_group_labels (self : t) : list Text :=
  _label_set_from_nodes self (z_group_nodes self).

Definition nz_group_nodes (self : t) : list ref :=
  filter (λ r, GraphNode.category (node self r) = GraphNodeCategory.NZ)
         (group_nodes self).
Definition nz_group_labels (self : t) : list Text :=
  _label_set_from_nodes self (nz_group_nodes self).

Definition faq_group_nodes (self : t) : list ref :=
  filter (λ r, GraphNode.category (node self r) = GraphNodeCategory.FAQ)
         (group_nodes self).
Definition faq_group_labels (self : t) : list Text :=
  _label_set_from_nodes self (faq_group_nodes self).

(** The fields of [ArgumentGraph(introduction_nodes=..., ...)] on six lists
    of node objects, every list element a distinct object: the objects are
    laid out in the store in the order of [all_nodes].  The dict is not
    built yet. *)
Definition allocate (intro trans zargs grps nzargs faq : list GraphNode.t) : t :=
  let o1 := length intro in
  let o2 := (o1 + length trans)%nat in
  let o3 := (o2 + length zargs)%nat in
  let o4 := (o3 + length grps)%nat in
  let o5 := (o4 + length nzargs)%nat in
  mk (intro ++ trans ++ zargs ++ grps ++ nzargs ++ faq)
     (seq 0 (length intro)) (seq o1 (length trans))
     (seq o2 (length zargs)) (seq o3 (length grps))
     (seq o4 (length nzargs)) (seq o5 (length faq)) ∅.

Section WithHash.
Variable hash : Text → Z.

(** One iteration of the three resolution loops, which differ in the
    test that skips a node ([has_labels]), the label set read ([labels]),
    the link set of the node that receives the resolved nodes ([fwd]) and
    the link set of each resolved node that receives the node ([bwd]):
<<
    if not has_labels(node): continue
    found = [self.get_node_for_label(l) for l in labels(node)]
    found = [n for n in found if n is not None]
    node.fwd.update(found)
    for other in found:
        other.bwd.add(node)
>>
 *)
Definition resolve (self : t) (has_labels : GraphNode.t → bool)
    (labels : GraphNode.t → list Text) (fwd bwd : GraphNode.link)
    (st : list GraphNode.t) (node : ref) : list GraphNode.t :=
  if negb (has_labels (st !!! node)) then st
  else
    let found := omap (get_node_for_label self) (labels (st !!! node)) in
    let st := GraphNode.links_update hash fwd node found st in
    foldl (λ st other, GraphNode.links_add hash bwd other node st) st found.

Definition _init_node_child_and_parent_references (self : t) : t :=
  with_store self
    (foldl (resolve self GraphNode.has_parent_labels GraphNode.parents
                    GraphNode.Parent GraphNode.Child)
           (store self) (all_nodes self)).

(** [if not node.similars]: an empty set is false. *)
Definition _init_node_similars_references (self : t) : t :=
  with_store self
    (foldl (resolve self
                    (λ n, bool_decide (0 < length (GraphNode.similars n))%nat)
                    GraphNode.similars GraphNode.Similar GraphNode.Similar)
           (store self) (all_nodes self)).

Definition _init_node_group_references (self : t) : t :=
  with_store self
    (foldl (resolve self GraphNode.has_group_labels GraphNode.groups
                    GraphNode.Group GraphNode.GroupMember)
           (store self) (all_nodes self)).

Definition _init_node_references (self : t) : t :=
  _init_node_similars_references
    (_init_node_group_references
       (_init_node_child_and_parent_references self)).

(** [node in other.f], for the node objects [node] and [other]. *)
Definition is_in (self : t) (x : ref) (f : GraphNode.link) (other : ref)
    : bool :=
  NodeSet.mem (GraphNode.hash_at hash (store self)) x
              (GraphNode.links f (node self other)).

(** [true] when no assertion fails. *)
Definition _check_constraints (self : t) : bool :=
  forallb
    (λ n,
       forallb (λ parent_node, is_in self n GraphNode.Child parent_node)
               (GraphNode.parent_nodes (node self n))
       && forallb (λ child_node, is_in self n GraphNode.Parent child_node)
                  (GraphNode.child_nodes (node self n))
       && forallb (λ group_node, is_in self n GraphNode.GroupMember group_node)
                  (GraphNode.group_nodes (node self n))
       && forallb (λ member_node, is_in self n GraphNode.Group member_node)
                  (GraphNode.group_member_nodes (node self n))
       && forallb (λ similar_node, is_in self n GraphNode.Similar similar_node)
                  (GraphNode.similar_nodes (node self n)))
    (all_nodes self).

(** [None] is the [AssertionError] of [_check_constraints]. *)
Definition __post_init__ (self : t) : option t :=
  let self := with_index self (label_dict (store self) (all_nodes self)) in
  let self := _init_node_references self in
  if _check_constraints self then Some self else None.

(** The generated [__init__] stores the six lists and runs [__post_init__]. *)
Definition __init__ (intro trans zargs grps nzargs faq : list GraphNode.t)
    : option t :=
  __post_init__ (allocate intro trans zargs grps nzargs faq).

(** [from_dataframes] once the rows are parsed: a node is constructed
    from each record, then the graph from the six lists of nodes. *)
Definition from_records
    (intro trans zargs grps nzargs faq : list GraphNode.Init.t) : option t :=
  __init__ (GraphNode.__init__ <$> intro) (GraphNode.__init__ <$> trans)
           (GraphNode.__init__ <$> zargs) (GraphNode.__init__ <$> grps)
           (GraphNode.__init__ <$> nzargs) (GraphNode.__init__ <$> faq).

(** [set(nodes)], for the node objects [nodes] *)
Definition node_set (self : t) (nodes : list ref) : list ref :=
  NodeSet.update (GraphNode.hash_at hash (store self)) [] nodes.

Definition first_level_z_nodes (self : t) : list ref :=
  node_set self
    (filter (λ r, GraphNode.has_parent_labels (node self r) = false)
            (z_nodes self)).

Definition primary_z_nodes (self : t) : list ref :=
  node_set self
    (filter (λ r, 0 ≤ GraphNode.rating (node self r)) (z_nodes self)).

Definition primary_z_labels (self : t) : list Text :=
  _label_set_from_nodes self (primary_z_nodes self).

Definition get_num_arguments_pro (self : t) : nat :=
  length
    (node_set self
       (filter (λ r, GraphNode.stance (node self r) = Stance.PRO)
               (first_level_z_nodes self))).

Definition get_num_arguments_con (self : t) : nat :=
  length
    (node_set self
       (filter (λ r, GraphNode.stance (node self r) = Stance.CON)
               (first_level_z_nodes self))).

(** [nodes[name]]: a missing key raises [KeyError]. *)
Definition getitem {A} (nodes : gmap Text A) (name : Text) : result A :=
  match nodes !! name with
  | Some graph_nodes => Returns graph_nodes
  | None => Raises KeyError
  end.

(** The dict comprehension of [from_dataframes] over the items
    [nodes_dataframes] of a dict, continued from the dict [nodes] made so
    far: a frame is read for every item. *)
Definition read_dataframes
    (samples_dataframe : option (list ReadArgumentGraph.Sample.t))
    (nodes : result (gmap Text (list (option GraphNode.t))))
    (nodes_dataframes : list (Text * list ReadArgumentGraph.Row.t))
    : result (gmap Text (list (option GraphNode.t))) :=
  foldl (λ nodes (item : Text * list ReadArgumentGraph.Row.t),
           nodes ← nodes;
           graph_nodes ← ReadArgumentGraph.get_nodes_from_df item.2
                           samples_dataframe;
           Returns (<[item.1 := graph_nodes]> nodes))
        nodes nodes_dataframes.

(** [from_dataframes] on the dict [nodes_dataframes], given by its items
    in the order of the dict.  The graph is [None] when one of its six
    lists holds a node object that [GraphNode.t] has not (see
    [ReadArgumentGraph.construct]). *)
Definition from_dataframes
    (nodes_dataframes : list (Text * list ReadArgumentGraph.Row.t))
    (samples_dataframe : option (list ReadArgumentGraph.Sample.t))
    : result (option t) :=
  nodes ← read_dataframes samples_dataframe (Returns ∅) nodes_dataframes;
  introduction_nodes ← getitem nodes "intros";
  transition_nodes ← getitem nodes "transitions";
  z_arguments_nodes ← getitem nodes "zargs";
  group_nodes ← getitem nodes "groups";
  nz_arguments_nodes ← getitem nodes "nzargs";
  faq_nodes ← getitem nodes "faq";
  match mapM id introduction_nodes, mapM id transition_nodes,
        mapM id z_arguments_nodes, mapM id group_nodes,
        mapM id nz_arguments_nodes, mapM id faq_nodes with
  | Some introduction_nodes, Some transition_nodes, Some z_arguments_nodes,
    Some group_nodes, Some nz_arguments_nodes, Some faq_nodes =>
      match __init__ introduction_nodes transition_nodes z_arguments_nodes
                     group_nodes nz_arguments_nodes faq_nodes with
      | Some self => Returns (Some self)
      | None => Raises AssertionError
      end
  | _, _, _, _, _, _ => Returns None
  end.
End WithHash.

End ArgumentGraph.

(** ** A string hash to run examples with

    A 64-bit multiplicative hash in the style of the one CPython used for
    strings up to version 3.3.  The theorems below hold for every [hash];
    this one only instantiates them. *)

Definition wrap64 (z : Z) : Z := (z + 2 ^ 63) mod 2 ^ 64 - 2 ^ 63.

Definition sample_hash (s : Text) : Z :=
  match s with
  | EmptyString => 0
  | String c _ =>
      let code (c : ascii) := Z.of_N (N_of_ascii c) in
      let x :=
        foldl (λ x c, Z.lxor (1000003 * x mod 2 ^ 64) (code c))
              (Z.shiftl (code c) 7) (list_ascii_of_string s) in
      let x := wrap64 (Z.lxor x (Z.of_nat (String.length s))) in
      if x =? -1 then -2 else x
  end.

(** ** Records for the examples *)

Definition record (label full_text : Text) (parents groups similars : list Text)
    : GraphNode.Init.t :=
  GraphNode.Init.mk label full_text parents "" "" "" groups (-1) (-1)
                    GraphNodeCategory.OTHER Stance.OTHER [] similars.


(** One z-argument without parents. *)
Definition single_rows : list GraphNode.Init.t :=
  [record "Z.P1" "Pro argument" [] [] []].

(** Two z-arguments with the label [Z.P1] and a counter-argument of [Z.P1]. *)
Definition duplicate_rows : list GraphNode.Init.t :=
  [record "Z.P1" "first text" [] [] [];
   record "Z.P1" "second text" [] [] [];
   record "Z.P1-1" "counter" ["Z.P1"] [] []].

(** Two z-arguments with the label [Z.P1] and two counter-arguments of
    [Z.P1] with the label [Z.P1-1]. *)
Definition duplicate_link_rows : list GraphNode.Init.t :=
  [record "Z.P1" "first text" [] [] [];
   record "Z.P1" "second text" [] [] [];
   record "Z.P1-1" "first counter" ["Z.P1"] [] [];
   record "Z.P1-1" "second counter" ["Z.P1"] [] []].

(** A z-argument whose parent, group and similar labels name no node. *)
Definition dangling_rows : list GraphNode.Init.t :=
  [record "Z.P1" "Pro argument" ["NO.SUCH.LABEL"] ["NO.SUCH.GROUP"] ["NO.SUCH.NODE"]].

(** A z-argument, a counter-argument of it that is also similar to it, and
    the group of both. *)
Definition linked_zargs : list GraphNode.Init.t :=
  [record "Z.P1" "Pro argument" [] ["G1"] [];
   record "Z.P1-1" "Counter argument" ["Z.P1"] ["G1"] ["Z.P1"]].

Definition linked_groups : list GraphNode.Init.t :=
  [record "G1" "Group" [] [] []].

(** The FAQ of the specification's example: a question and its answer. *)
Definition faq_rows : list GraphNode.Init.t :=
  [record "FAQ.Q1" "Question" [] [] [];
   record "FAQ.A1" "Answer" ["FAQ.Q1"] [] []].

(** An FAQ answer without parents. *)
Definition faq_orphan_rows : list GraphNode.Init.t :=
  [record "FAQ.Q1" "Question" [] [] [];
   record "FAQ.A1" "Answer" [] [] []].

(** An FAQ in which the labels [FAQ.Q1] and [FAQ.A1] are each carried by
    two nodes. *)
Definition faq_duplicate_rows : list GraphNode.Init.t :=
  [record "FAQ.Q1" "First question" [] [] [];
   record "FAQ.A1" "Answer" ["FAQ.Q1"] [] [];
   record "FAQ.Q1" "Second question" [] [] [];
   record "FAQ.A1" "Not an answer" [] [] []].

(** Two z-arguments, each naming the other as its parent. *)
Definition cycle_rows : list GraphNode.Init.t :=
  [record "A" "Argument A" ["B"] [] [];
   record "B" "Argument B" ["A"] [] []].

(** A z-argument, a counter-argument and a counter-counter-argument. *)
Definition chain_rows : list GraphNode.Init.t :=
  [record "Z.P1" "Pro argument" [] [] [];
   record "Z.P1-1" "Counter" ["Z.P1"] [] [];
   record "Z.P1-1-1" "Counter of the counter" ["Z.P1-1"] [] []].

(** A z-argument that names itself as parent, group and similar node. *)
Definition selfish_rows : list GraphNode.Init.t :=
  [record "Z.P1" "Pro argument" ["Z.P1"] ["Z.P1"] ["Z.P1"]].

(** Two z-arguments that name each other as parent, and a third that names
    the first as parent: its parent links lead into the cycle. *)
Definition lasso_rows : list GraphNode.Init.t :=
  [record "A" "Argument A" ["B"] [] [];
   record "B" "Argument B" ["A"] [] [];
   record "C" "Argument C" ["A"] [] []].

(** Three z nodes with a stance and a rating: a pro argument, a con
    argument, and a counter-argument of the first. *)
Definition stance_rows : list GraphNode.Init.t :=
  [GraphNode.Init.mk "Z.P1" "Pro argument" [] "" "" "" [] 1 (-1)
     GraphNodeCategory.Z Stance.PRO [] [];
   GraphNode.Init.mk "Z.K1" "Con argument" [] "" "" "" [] 0 (-1)
     GraphNodeCategory.Z Stance.CON [] [];
   GraphNode.Init.mk "Z.P1-1" "Counter argument" ["Z.P1"] "" "" "" [] (-1) (-1)
     GraphNodeCategory.Z Stance.CON [] []].

(** A row of a nodes file: a counter-argument that names itself among its
    parents and its similars. *)
Definition sample_row : ReadArgumentGraph.Row.t :=
  [("label", ReadArgumentGraph.Cell.Str " Z.P1-1 ");
   ("category", ReadArgumentGraph.Cell.Str "Z");
   ("stance", ReadArgumentGraph.Cell.Str "con");
   ("parents", ReadArgumentGraph.Cell.Str "Z.P1, Z.P1-1");
   ("similars", ReadArgumentGraph.Cell.Str "Z.P1-1,Z.K3");
   ("label_name", ReadArgumentGraph.Cell.NA);
   ("paraphrase", ReadArgumentGraph.Cell.NA);
   ("summary", ReadArgumentGraph.Cell.NA);
   ("full_text", ReadArgumentGraph.Cell.Str "Counter argument");
   ("groups", ReadArgumentGraph.Cell.Str "G1 G2");
   ("rating", ReadArgumentGraph.Cell.Int 2);
   ("reaction_to_argument", ReadArgumentGraph.Cell.NA)].

(** The same row in a frame [read_nodes_with_previous_label_file] reads. *)
Definition previous_label_row : ReadArgumentGraph.Row.t :=
  ("previous_label", ReadArgumentGraph.Cell.Str "Z.P1") :: sample_row.

(** A row without a full text. *)
Definition skipped_row : ReadArgumentGraph.Row.t :=
  [("previous_label", ReadArgumentGraph.Cell.Str "Z.P1");
   ("label", ReadArgumentGraph.Cell.Str "Z.P2");
   ("full_text", ReadArgumentGraph.Cell.NA)].

(** The node the constructor makes of [sample_row], without samples. *)
Definition sample_node : GraphNode.t :=
  GraphNode.mk "Z.P1-1" "Counter argument" ["Z.P1"] "Z.P1-1" "" "" ["G1"; "G2"]
    2 (-1) GraphNodeCategory.Z Stance.CON [] ["Z.P1-1"; "Z.K3"] [] [] [] [] [].

(** A dict of six frames. *)
Definition sample_dataframes : list (Text * list ReadArgumentGraph.Row.t) :=
  [("intros", []); ("transitions", []); ("zargs", [sample_row; skipped_row]);
   ("groups", []); ("nzargs", []); ("faq", [])].

(** [hash] returns a [Py_hash_t]: a signed 64-bit integer. *)
Definition hash64 (hash : Text → Z) : Prop :=
  ∀ s, - 2 ^ 63 ≤ hash s < 2 ^ 63.

(** The label made of [n] letters [a]. *)
Fixpoint a_label (n : nat) : Text :=
  match n with
  | O => EmptyString
  | S n' => String "a" (a_label n')
  end.

(** ** Notions used in the statements and proofs *)

(** The attributes of a node without its link sets: what resolution never
    changes. *)
Definition attrs (n : GraphNode.t) : GraphNode.t :=
  GraphNode.relink n [] [] [] [] [].

(** An elementary mutation [st[target].f.add(x)], as data. *)
Definition op : Type := GraphNode.link * ref * ref.

Definition run (hash : Text → Z) (st : list GraphNode.t) (ops : list op)
    : list GraphNode.t :=
  foldl (λ st (o : op), GraphNode.links_add hash o.1.1 o.1.2 o.2 st) st ops.

(** The mutations of one loop iteration of a resolution pass. *)
Definition resolve_ops (self : ArgumentGraph.t) (labels : GraphNode.t → list Text)
    (fwd bwd : GraphNode.link) (st : list GraphNode.t) (node : ref) : list op :=
  let found := omap (ArgumentGraph.get_node_for_label self) (labels (st !!! node)) in
  ((λ x, (fwd, node, x)) <$> found) ++ ((λ x, (bwd, x, node)) <$> found).

(** Node [a] of the graph names, in its label set [labels], a label that the
    index resolves to node [x]. *)
Definition declares (self : ArgumentGraph.t) (labels : GraphNode.t → list Text)
    (a x : ref) : Prop :=
  a ∈ ArgumentGraph.all_nodes self ∧
  ∃ l, l ∈ labels (ArgumentGraph.node self a) ∧
       ArgumentGraph.get_node_for_label self l = Some x.

(** [edge self f a x]: resolution adds [x] to the link set [f] of [a]. *)
Definition edge (self : ArgumentGraph.t) (f : GraphNode.link) (a x : ref) : Prop :=
  match f with
  | GraphNode.Parent => declares self GraphNode.parents a x
  | GraphNode.Child => declares self GraphNode.parents x a
  | GraphNode.Group => declares self GraphNode.groups a x
  | GraphNode.GroupMember => declares self GraphNode.groups x a
  | GraphNode.Similar =>
      declares self GraphNode.similars a x ∨ declares self GraphNode.similars x a
  end.

(** The nodes behind a list of references, without their link sets. *)
Definition nodes_at (g : ArgumentGraph.t) (rs : list ref) : list GraphNode.t :=
  (λ r, attrs (ArgumentGraph.node g r)) <$> rs.

(** The nodes the constructor makes of a list of records, without their
    (empty) link sets. *)
Definition constructed (rows : list GraphNode.Init.t) : list GraphNode.t :=
  (λ a, attrs (GraphNode.__init__ a)) <$> rows.

(** The pair [faq_node_pairs] makes of an answer node: its first parent
    node, when it has one. *)
Definition faq_pair (g : ArgumentGraph.t) (answer_node : ref) : option (ref * ref) :=
  (λ question_node, (question_node, answer_node)) <$>
    head (GraphNode.parent_nodes (ArgumentGraph.node g answer_node)).

(** One iteration of the loop of a transitive view (see
    [GraphNode.closure]), given the view [sub_view] of the nested call. *)
Definition closure_step (hash : Text → Z) (st : list GraphNode.t)
    (sub_view : ref → option (list ref))
    (acc : option (list ref)) (x : ref) : option (list ref) :=
  match acc with
  | None => None
  | Some result =>
      if NodeSet.mem (GraphNode.hash_at hash st) x result then Some result
      else
        match sub_view x with
        | None => None
        | Some sub =>
            Some (NodeSet.update (GraphNode.hash_at hash st)
                    (NodeSet.add (GraphNode.hash_at hash st) result x) sub)
        end
  end.

(** The link set that holds the back-pointer of a link set. *)
Definition inverse (f : GraphNode.link) : GraphNode.link :=
  match f with
  | GraphNode.Parent => GraphNode.Child
  | GraphNode.Child => GraphNode.Parent
  | GraphNode.Group => GraphNode.GroupMember
  | GraphNode.GroupMember => GraphNode.Group
  | GraphNode.Similar => GraphNode.Similar
  end.

(** All the mutations of [_init_node_references], in order. *)
Definition all_ops (self : ArgumentGraph.t) : list op :=
  (ArgumentGraph.all_nodes self ≫=
     resolve_ops self GraphNode.parents GraphNode.Parent GraphNode.Child
                 (ArgumentGraph.store self))
  ++ (ArgumentGraph.all_nodes self ≫=
        resolve_ops self GraphNode.groups GraphNode.Group GraphNode.GroupMember
                    (ArgumentGraph.store self))
  ++ (ArgumentGraph.all_nodes self ≫=
        resolve_ops self GraphNode.similars GraphNode.Similar GraphNode.Similar
                    (ArgumentGraph.store self)).

(** What holds of a graph once construction has completed. *)
Record built (hash : Text → Z) (g : ArgumentGraph.t) : Prop := {
  built_all_nodes :
    ArgumentGraph.all_nodes g = seq 0 (length (ArgumentGraph.store g));
  built_index : ∀ l,
    ArgumentGraph.get_node_for_label g l =
    last (filter (λ r, GraphNode.label (ArgumentGraph.node g r) = l)
                 (ArgumentGraph.all_nodes g));
  built_constructed : ∀ r,
    r ∈ ArgumentGraph.all_nodes g →
    ∃ a, attrs (ArgumentGraph.node g r) = attrs (GraphNode.__init__ a);
  built_stored : ∀ f a y,
    y ∈ GraphNode.links f (ArgumentGraph.node g a) → edge g f a y;
  built_mem : ∀ f a z,
    a ∈ ArgumentGraph.all_nodes g →
    ArgumentGraph.is_in hash g z f a = true ↔
    ∃ y, edge g f a y ∧
         GraphNode.hash_at hash (ArgumentGraph.store g) y =
         GraphNode.hash_at hash (ArgumentGraph.store g) z
}.

(** [distinct_nodes], as a check that can be run. *)
Definition distinct_nodesb (hash : Text → Z) (self : ArgumentGraph.t) : bool :=
  forallb
    (λ a, forallb
            (λ b, implb (GraphNode.__eq__ hash (ArgumentGraph.node self a)
                           (GraphNode.Node (ArgumentGraph.node self b)))
                        (Nat.eqb a b))
            (ArgumentGraph.all_nodes self))
    (ArgumentGraph.all_nodes self).

(** The graph [__post_init__] has once the three passes are done, before
    [_check_constraints] runs. *)
Definition resolved (hash : Text → Z)
    (intro trans zargs grps nzargs faq : list GraphNode.Init.t) : ArgumentGraph.t :=
  let self :=
    ArgumentGraph.allocate
      (GraphNode.__init__ <$> intro) (GraphNode.__init__ <$> trans)
      (GraphNode.__init__ <$> zargs) (GraphNode.__init__ <$> grps)
      (GraphNode.__init__ <$> nzargs) (GraphNode.__init__ <$> faq) in
  ArgumentGraph._init_node_references hash
    (ArgumentGraph.with_index self
       (ArgumentGraph.label_dict (ArgumentGraph.store self)
                                 (ArgumentGraph.all_nodes self))).

(** No two distinct node objects of the graph compare equal with [==]. *)
Definition distinct_nodes (hash : Text → Z) (self : ArgumentGraph.t) : Prop :=
  ∀ a b, a ∈ ArgumentGraph.all_nodes self → b ∈ ArgumentGraph.all_nodes self →
         GraphNode.__eq__ hash (ArgumentGraph.node self a)
                          (GraphNode.Node (ArgumentGraph.node self b)) = true →
         a = b.

(** The characters of a string. *)
Definition chars (s : Text) : list ascii := list_ascii_of_string s.

(** A string of whitespace characters only. *)
Definition whitespace (s : Text) : Prop :=
  forallb Text.is_space (chars s) = true.

(** What the pattern of [split_by_comma] matches in full: a string that is
    not empty and holds no comma and no whitespace. *)
Definition token (t : Text) : Prop :=
  t ≠ "" ∧ forallb (λ c, negb (ReadArgumentGraph.is_separator c)) (chars t) = true.

(** [lstrip], [rstrip] and [strip] on the characters of a string. *)
Fixpoint lskip (l : list ascii) : list ascii :=
  match l with
  | [] => []
  | c :: l' => if Text.is_space c then lskip l' else l
  end.

Definition rskip (l : list ascii) : list ascii := reverse (lskip (reverse l)).

(** A string that neither starts nor ends with a whitespace character. *)
Definition stripped (l : list ascii) : Prop :=
  (∀ c, head l = Some c → Text.is_space c = false)
  ∧ (∀ c, last l = Some c → Text.is_space c = false).

(** [linked f st a y]: node [y] is stored in the link set [f] of node [a].
    The transitive views follow these links: [tc (linked f st) x y] says
    that [y] is reached from [x] in one step or more. *)
Definition linked (f : GraphNode.link) (st : list GraphNode.t) (a y : ref) : Prop :=
  y ∈ GraphNode.links f (st !!! a).

(** A node from which the links lead into a cycle. *)
Definition reaches_cycle (f : GraphNode.link) (st : list GraphNode.t) (x : ref)
    : Prop :=
  ∃ c, rtc (linked f st) x c ∧ tc (linked f st) c c.

(** The label set [_cleanup_attributes] and [_match_constraints] make of
    the label set [labels] of a node whose stripped label is [label], and
    the [label_name] they make of [name]. *)
Definition cleaned_labels (label : Text) (labels : list Text) : list Text :=
  let cleaned := Text.set (Text.strip <$> labels) in
  if bool_decide (label ∈ cleaned) then Text.discard label cleaned else cleaned.

Definition cleaned_name (label name : Text) : Text :=
  if bool_decide (Text.strip name = "") then label else Text.strip name.

(** The row has a label and a full text: [get_nodes_from_df] does not
    skip it. *)
Definition kept (row : ReadArgumentGraph.Row.t) : Prop :=
  is_Some (ReadArgumentGraph.args row !! "label")
  ∧ is_Some (ReadArgumentGraph.args row !! "full_text").

(** The columns whose cell goes to a parser of text or to a field declared
    [Text], and those whose cell goes to a field declared [int]. *)
Definition text_columns : list Text :=
  ["label"; "full_text"; "parents"; "label_name"; "paraphrase"; "summary";
   "groups"; "category"; "stance"; "similars"].

Definition int_columns : list Text := ["rating"; "reaction_to_argument"].

(** The cell [v] under the column [k] is of the type declared for it: text
    in a text column, an integer in an integer column, and anything in a
    [samples] column when the samples of a samples frame replace it. *)
Definition cell_declared (samples_dataframe : option (list ReadArgumentGraph.Sample.t))
    (k : Text) (v : ReadArgumentGraph.Cell.t) : bool :=
  match v with
  | ReadArgumentGraph.Cell.NA => false
  | ReadArgumentGraph.Cell.Str _ =>
      bool_decide (k ∈ text_columns)
      || bool_decide (k = "samples") && bool_decide (is_Some samples_dataframe)
  | ReadArgumentGraph.Cell.Int _ =>
      bool_decide (k ∈ int_columns)
      || bool_decide (k = "samples") && bool_decide (is_Some samples_dataframe)
  end.

(** Every cell of the row that is not missing, the column [Unnamed: 0]
    apart, is under a column of that kind and of the declared type. *)
Definition declared (samples_dataframe : option (list ReadArgumentGraph.Sample.t))
    (row : ReadArgumentGraph.Row.t) : bool :=
  bool_decide (map_Forall (λ k v, cell_declared samples_dataframe k v = true)
                 (ReadArgumentGraph.args row)).

(** The text, or the integer, a row holds under a column. *)
Definition text_cell (row : ReadArgumentGraph.Row.t) (k : Text) : option Text :=
  match ReadArgumentGraph.args row !! k with
  | Some (ReadArgumentGraph.Cell.Str s) => Some s
  | _ => None
  end.

Definition int_cell (row : ReadArgumentGraph.Row.t) (k : Text) : option Z :=
  match ReadArgumentGraph.args row !! k with
  | Some (ReadArgumentGraph.Cell.Int z) => Some z
  | _ => None
  end.

(** The arguments the constructor receives for a [declared] row with the
    label [label] and the full text [full_text]. *)
Definition row_record (samples_dataframe : option (list ReadArgumentGraph.Sample.t))
    (row : ReadArgumentGraph.Row.t) (label full_text : Text) : GraphNode.Init.t :=
  GraphNode.Init.mk label full_text
    (from_option (λ s, Text.set (ReadArgumentGraph.parse_parents_string s)) []
                 (text_cell row "parents"))
    (default "" (text_cell row "label_name"))
    (default "" (text_cell row "paraphrase"))
    (default "" (text_cell row "summary"))
    (from_option (λ s, Text.set (ReadArgumentGraph.parse_groups_string s)) []
                 (text_cell row "groups"))
    (default (-1) (int_cell row "rating"))
    (default (-1) (int_cell row "reaction_to_argument"))
    (from_option ReadArgumentGraph.parse_category_string GraphNodeCategory.OTHER
                 (text_cell row "category"))
    (from_option ReadArgumentGraph.parse_stance_string Stance.OTHER
                 (text_cell row "stance"))
    (from_option
       (λ df, Text.set (ReadArgumentGraph.parse_samples_from_dataframe label df))
       [] samples_dataframe)
    (from_option (λ s, Text.set (ReadArgumentGraph.parse_parents_string s)) []
                 (text_cell row "similars")).

(** The keys [from_dataframes] reads of its dict. *)
Definition partition_keys : list Text :=
  ["intros"; "transitions"; "zargs"; "groups"; "nzargs"; "faq"].

(** * Lemmas *)

(** ** Python sets of nodes *)

Section NodeSetFacts.
Variable key : ref → Z.

Lemma mem_spec x s :
  NodeSet.mem key x s = true ↔ ∃ y, y ∈ s ∧ key y = key x.
Proof.
  unfold NodeSet.mem. rewrite existsb_exists. split.
  - intros (y & Hy & He). exists y. split; [by apply list_elem_of_In|lia].
  - intros (y & Hy & He). exists y. split; [by apply list_elem_of_In|lia].
Qed.

Lemma mem_elem_of x s : x ∈ s → NodeSet.mem key x s = true.
Proof. intros. apply mem_spec. eauto. Qed.

Lemma elem_of_add y s x : y ∈ NodeSet.add key s x → y ∈ s ∨ y = x.
Proof.
  unfold NodeSet.add. destruct (NodeSet.mem key x s); [tauto|].
  rewrite elem_of_app, list_elem_of_singleton. tauto.
Qed.

Lemma mem_add z s x :
  NodeSet.mem key z (NodeSet.add key s x) = true ↔
  NodeSet.mem key z s = true ∨ key x = key z.
Proof.
  unfold NodeSet.add. destruct (NodeSet.mem key x s) eqn:Hx.
  - split; [tauto|]. intros [?|He]; [done|].
    apply mem_spec in Hx as (y & Hy & Hk). apply mem_spec.
    exists y. split; [done|congruence].
  - rewrite !mem_spec. setoid_rewrite elem_of_app.
    setoid_rewrite list_elem_of_singleton. split.
    + intros (y & [Hy| ->] & Hk); eauto.
    + intros [(y & Hy & Hk)| Hk]; eauto.
Qed.
End NodeSetFacts.

Lemma mem_ext (k1 k2 : ref → Z) x s :
  (∀ r, k1 r = k2 r) → NodeSet.mem k1 x s = NodeSet.mem k2 x s.
Proof.
  intros Hk. unfold NodeSet.mem. induction s as [|y s IH]; simpl; [done|].
  by rewrite IH, !Hk.
Qed.

Lemma add_ext (k1 k2 : ref → Z) s x :
  (∀ r, k1 r = k2 r) → NodeSet.add k1 s x = NodeSet.add k2 s x.
Proof. intros Hk. unfold NodeSet.add. by rewrite (mem_ext k1 k2). Qed.

Lemma update_ext (k1 k2 : ref → Z) s xs :
  (∀ r, k1 r = k2 r) → NodeSet.update k1 s xs = NodeSet.update k2 s xs.
Proof.
  intros Hk. unfold NodeSet.update. revert s.
  induction xs as [|x xs IH]; intros s; simpl; [done|].
  by rewrite IH, (add_ext k1 k2).
Qed.

(** ** Link sets of a node *)

Lemma links_with_links f g s n :
  GraphNode.links g (GraphNode.with_links f s n) =
  if decide (f = g) then s else GraphNode.links g n.
Proof. by destruct f, g. Qed.

Lemma attrs_with_links f s n : attrs (GraphNode.with_links f s n) = attrs n.
Proof. by destruct f. Qed.

Lemma with_links_with_links f s s' n :
  GraphNode.with_links f s (GraphNode.with_links f s' n) = GraphNode.with_links f s n.
Proof. by destruct f. Qed.

Lemma attrs_lookup_total (st st' : list GraphNode.t) r :
  attrs <$> st = attrs <$> st' → attrs (st !!! r) = attrs (st' !!! r).
Proof.
  intros He. rewrite !list_lookup_total_alt.
  assert (attrs <$> st !! r = attrs <$> st' !! r) as Hr
    by by rewrite <-!list_lookup_fmap, He.
  destruct (st !! r), (st' !! r); simpl in *; congruence.
Qed.

(** ** Mutations of the store *)

Section StoreFacts.
Variable hash : Text → Z.

Lemma hash_at_attrs (st st' : list GraphNode.t) r :
  attrs <$> st = attrs <$> st' →
  GraphNode.hash_at hash st r = GraphNode.hash_at hash st' r.
Proof.
  intros He. unfold GraphNode.hash_at, GraphNode.__hash__.
  f_equal. exact (f_equal GraphNode.label (attrs_lookup_total st st' r He)).
Qed.

Lemma links_add_attrs f a x st :
  attrs <$> GraphNode.links_add hash f a x st = attrs <$> st.
Proof.
  unfold GraphNode.links_add.
  rewrite (list_fmap_alter attrs _ id).
  - by apply list_alter_id.
  - apply Forall_forall. intros n _. apply attrs_with_links.
Qed.

Lemma links_add_length f a x st :
  length (GraphNode.links_add hash f a x st) = length st.
Proof. apply length_alter. Qed.

Lemma links_add_links f a x st g b :
  GraphNode.links g (GraphNode.links_add hash f a x st !!! b) =
  if decide (f = g ∧ a = b ∧ (a < length st)%nat)
  then NodeSet.add (GraphNode.hash_at hash st) (GraphNode.links f (st !!! a)) x
  else GraphNode.links g (st !!! b).
Proof.
  unfold GraphNode.links_add. rewrite list_lookup_total_alter.
  destruct (decide (a = b ∧ (a < length st)%nat)) as [[-> ?]|Hn].
  - rewrite links_with_links. destruct (decide (f = g)) as [->|?].
    + by rewrite decide_True.
    + rewrite decide_False; [done|tauto].
  - rewrite decide_False; [done|tauto].
Qed.

Lemma run_app st ops1 ops2 :
  run hash st (ops1 ++ ops2) = run hash (run hash st ops1) ops2.
Proof. apply foldl_app. Qed.

Lemma run_attrs st ops : attrs <$> run hash st ops = attrs <$> st.
Proof.
  revert st. induction ops as [|o ops IH]; intros st; simpl; [done|].
  unfold run in *. simpl. by rewrite IH, links_add_attrs.
Qed.

Lemma run_length st ops : length (run hash st ops) = length st.
Proof.
  rewrite <-(length_fmap attrs), run_attrs. apply length_fmap.
Qed.

Lemma run_hash_at st ops r :
  GraphNode.hash_at hash (run hash st ops) r = GraphNode.hash_at hash st r.
Proof. apply hash_at_attrs, run_attrs. Qed.

(** A node found in a link set after the mutations was there before, or
    one of the mutations put it there. *)
Lemma run_stored st ops f a y :
  y ∈ GraphNode.links f (run hash st ops !!! a) →
  y ∈ GraphNode.links f (st !!! a) ∨ (f, a, y) ∈ ops.
Proof.
  revert st. induction ops as [|[[g b] x] ops IH]; intros st; simpl; [tauto|].
  intros Hy. apply IH in Hy as [Hy|Hy]; [|right; by apply list_elem_of_further].
  rewrite links_add_links in Hy. case_decide as Hd.
  - destruct Hd as (-> & -> & _). apply elem_of_add in Hy as [?| ->]; [tauto|].
    right. apply list_elem_of_here.
  - tauto.
Qed.

Lemma run_cons st o ops :
  run hash st (o :: ops) =
  run hash (GraphNode.links_add hash o.1.1 o.1.2 o.2 st) ops.
Proof. done. Qed.

(** [z in st[a].f] after the mutations: it held before, or a mutation
    added a node equal to [z]. *)
Lemma run_mem st ops f a z :
  (a < length st)%nat →
  NodeSet.mem (GraphNode.hash_at hash st) z
              (GraphNode.links f (run hash st ops !!! a)) = true ↔
  NodeSet.mem (GraphNode.hash_at hash st) z (GraphNode.links f (st !!! a)) = true
  ∨ ∃ y, (f, a, y) ∈ ops ∧
         GraphNode.hash_at hash st y = GraphNode.hash_at hash st z.
Proof.
  intros Ha. revert st Ha.
  induction ops as [|[[g b] x] ops IH]; intros st Ha.
  { split; [tauto|]. intros [?|(y & Hy & _)]; [done|]. by apply elem_of_nil in Hy. }
  rewrite run_cons. simpl.
  set (st1 := GraphNode.links_add hash g b x st).
  assert (∀ r, GraphNode.hash_at hash st1 r = GraphNode.hash_at hash st r) as Hk
    by (intros r; apply hash_at_attrs, links_add_attrs).
  specialize (IH st1).
  rewrite <-(mem_ext _ _ z (GraphNode.links f (run hash st1 ops !!! a)) Hk).
  rewrite IH by (unfold st1; by rewrite links_add_length).
  rewrite (mem_ext _ _ z _ Hk).
  unfold st1 at 1. rewrite links_add_links. case_decide as Hd.
  - destruct Hd as (-> & -> & _). rewrite mem_add. split.
    + intros [[?|He]|(y & Hy & He)]; [tauto| |].
      * right. exists x. split; [apply list_elem_of_here|done].
      * right. exists y. split; [by apply list_elem_of_further|].
        by rewrite <-!Hk.
    + intros [?|(y & Hy & He)]; [tauto|].
      apply elem_of_cons in Hy as [Hy|Hy].
      * simplify_eq. tauto.
      * right. exists y. by rewrite !Hk.
  - split.
    + intros [?|(y & Hy & He)]; [tauto|].
      right. exists y. split; [by apply list_elem_of_further|]. by rewrite <-!Hk.
    + intros [?|(y & Hy & He)]; [tauto|].
      apply elem_of_cons in Hy as [Hy|Hy].
      * simplify_eq. exfalso. apply Hd. done.
      * right. exists y. by rewrite !Hk.
Qed.

Lemma links_update_run f a xs st :
  GraphNode.links_update hash f a xs st = run hash st ((λ x, (f, a, x)) <$> xs).
Proof.
  revert st. induction xs as [|x xs IH]; intros st.
  { unfold GraphNode.links_update, NodeSet.update. simpl.
    apply list_alter_id. intros n. by destruct f, n. }
  rewrite fmap_cons, run_cons, <-IH. simpl.
  unfold GraphNode.links_update, GraphNode.links_add at 2.
  rewrite list_alter_alter_eq. apply list_alter_ext; [|done].
  intros n _. simpl. rewrite links_with_links, decide_True by done.
  rewrite with_links_with_links. f_equal.
  apply update_ext. intros r. symmetry. apply hash_at_attrs, links_add_attrs.
Qed.
End StoreFacts.

(** ** One resolution pass *)

Section ResolveFacts.
Variable hash : Text → Z.
Variable self : ArgumentGraph.t.
Variable has_labels : GraphNode.t → bool.
Variable labels : GraphNode.t → list Text.
Variables fwd bwd : GraphNode.link.
Hypothesis labels_attrs : ∀ n, labels (attrs n) = labels n.
Hypothesis has_labels_false : ∀ n, has_labels n = false → labels n = [].

Lemma labels_lookup_total (st st' : list GraphNode.t) r :
  attrs <$> st = attrs <$> st' → labels (st !!! r) = labels (st' !!! r).
Proof.
  intros He. by rewrite <-(labels_attrs (st !!! r)),
    (attrs_lookup_total st st' r He), labels_attrs.
Qed.

Lemma resolve_ops_attrs (st st' : list GraphNode.t) r :
  attrs <$> st = attrs <$> st' →
  resolve_ops self labels fwd bwd st r = resolve_ops self labels fwd bwd st' r.
Proof.
  intros He. unfold resolve_ops. by rewrite (labels_lookup_total st st' r He).
Qed.

Lemma foldl_links_add f r st xs :
  foldl (λ st other, GraphNode.links_add hash f other r st) st xs =
  run hash st ((λ x, (f, x, r)) <$> xs).
Proof.
  revert st. induction xs as [|x xs IH]; intros st; [done|].
  rewrite fmap_cons, run_cons. simpl. apply IH.
Qed.

Lemma resolve_run st r :
  ArgumentGraph.resolve hash self has_labels labels fwd bwd st r =
  run hash st (resolve_ops self labels fwd bwd st r).
Proof.
  unfold ArgumentGraph.resolve, resolve_ops.
  destruct (has_labels (st !!! r)) eqn:He; simpl.
  - by rewrite run_app, foldl_links_add, links_update_run.
  - by rewrite (has_labels_false _ He).
Qed.

Lemma pass_run st0 st rs :
  attrs <$> st = attrs <$> st0 →
  foldl (ArgumentGraph.resolve hash self has_labels labels fwd bwd) st rs =
  run hash st (rs ≫= resolve_ops self labels fwd bwd st0).
Proof.
  revert st. induction rs as [|r rs IH]; intros st He; [done|].
  simpl. rewrite run_app, resolve_run, IH.
  - by rewrite (resolve_ops_attrs st st0 r He).
  - by rewrite run_attrs.
Qed.

Lemma elem_of_pass_ops st rs f a x :
  (f, a, x) ∈ rs ≫= resolve_ops self labels fwd bwd st ↔
  (f = fwd ∧ a ∈ rs ∧
     ∃ l, l ∈ labels (st !!! a) ∧ ArgumentGraph.get_node_for_label self l = Some x)
  ∨ (f = bwd ∧ x ∈ rs ∧
     ∃ l, l ∈ labels (st !!! x) ∧ ArgumentGraph.get_node_for_label self l = Some a).
Proof.
  rewrite list_elem_of_bind. unfold resolve_ops.
  setoid_rewrite elem_of_app. setoid_rewrite list_elem_of_fmap.
  setoid_rewrite list_elem_of_omap. split.
  - intros (r & [(y & Heq & l & Hl & Hy)|(y & Heq & l & Hl & Hy)] & Hr);
      simplify_eq; [left|right]; eauto 10.
  - intros [(-> & Ha & l & Hl & Hx)|(-> & Hx & l & Hl & Ha)].
    + exists a. split; [|done]. left. exists x. eauto.
    + exists x. split; [|done]. right. exists a. eauto.
Qed.
End ResolveFacts.

(** ** The label index *)

Lemma label_dict_lookup (st : list GraphNode.t) (rs : list ref) (l : Text) :
  ArgumentGraph.label_dict st rs !! l =
  last (filter (λ r, GraphNode.label (st !!! r) = l) rs).
Proof.
  unfold ArgumentGraph.label_dict.
  induction rs as [|x rs IH] using rev_ind; [done|].
  rewrite foldl_snoc, filter_app, lookup_insert.
  rewrite filter_cons, filter_nil. case_decide as Hl.
  - by rewrite last_snoc.
  - by rewrite app_nil_r.
Qed.

(** ** The three passes together *)

Section InitFacts.
Variable hash : Text → Z.

Lemma length_guard (l : list Text) :
  bool_decide (0 < length l)%nat = false → l = [].
Proof.
  intros Hl. apply bool_decide_eq_false in Hl. destruct l; [done|simpl in Hl; lia].
Qed.

Lemma init_node_references_run (self : ArgumentGraph.t) :
  ArgumentGraph._init_node_references hash self =
  ArgumentGraph.with_store self (run hash (ArgumentGraph.store self) (all_ops self)).
Proof.
  unfold ArgumentGraph._init_node_references, all_ops.
  unfold ArgumentGraph._init_node_child_and_parent_references,
    ArgumentGraph._init_node_group_references,
    ArgumentGraph._init_node_similars_references.
  rewrite !run_app.
  rewrite (pass_run hash self GraphNode.has_parent_labels GraphNode.parents _ _
             (λ _, eq_refl) (λ n, length_guard (GraphNode.parents n))
             (ArgumentGraph.store self)) by done.
  set (st1 := run hash (ArgumentGraph.store self) _).
  change (ArgumentGraph.store (ArgumentGraph.with_store self st1)) with st1.
  change (ArgumentGraph.all_nodes (ArgumentGraph.with_store self st1))
    with (ArgumentGraph.all_nodes self).
  change (ArgumentGraph.resolve hash (ArgumentGraph.with_store self st1))
    with (ArgumentGraph.resolve hash self).
  rewrite (pass_run hash self GraphNode.has_group_labels GraphNode.groups _ _
             (λ _, eq_refl) (λ n, length_guard (GraphNode.groups n))
             (ArgumentGraph.store self) st1) by apply run_attrs.
  set (st2 := run hash st1 _).
  change (ArgumentGraph.store (ArgumentGraph.with_store
            (ArgumentGraph.with_store self st1) st2)) with st2.
  change (ArgumentGraph.all_nodes (ArgumentGraph.with_store
            (ArgumentGraph.with_store self st1) st2))
    with (ArgumentGraph.all_nodes self).
  change (ArgumentGraph.resolve hash (ArgumentGraph.with_store
            (ArgumentGraph.with_store self st1) st2))
    with (ArgumentGraph.resolve hash self).
  rewrite (pass_run hash self _ GraphNode.similars _ _
             (λ _, eq_refl) (λ n, length_guard (GraphNode.similars n))
             (ArgumentGraph.store self) st2)
    by (unfold st2, st1; by rewrite !run_attrs).
  done.
Qed.

Lemma elem_of_all_ops (self : ArgumentGraph.t) f a x :
  (f, a, x) ∈ all_ops self ↔ edge self f a x.
Proof.
  unfold all_ops. rewrite !elem_of_app, !elem_of_pass_ops.
  unfold edge, declares, ArgumentGraph.node.
  destruct f; intuition congruence.
Qed.
End InitFacts.

(** ** Construction completes, and what it establishes *)

Lemma edge_inverse (g : ArgumentGraph.t) f a x :
  edge g f a x ↔ edge g (inverse f) x a.
Proof. destruct f; simpl; tauto. Qed.

Lemma edge_ext (g g' : ArgumentGraph.t) f a x :
  ArgumentGraph.all_nodes g = ArgumentGraph.all_nodes g' →
  ArgumentGraph._label_to_node g = ArgumentGraph._label_to_node g' →
  attrs <$> ArgumentGraph.store g = attrs <$> ArgumentGraph.store g' →
  edge g f a x → edge g' f a x.
Proof.
  intros Hall Hidx Hattrs.
  assert (∀ labels b y, (∀ n, labels (attrs n) = labels n) →
            declares g labels b y → declares g' labels b y) as Hd.
  { intros labels b y Hl (Hb & l & Hin & Hget). split; [by rewrite <-Hall|].
    exists l. split.
    - unfold ArgumentGraph.node in *.
      by rewrite <-(labels_lookup_total labels Hl _ _ b Hattrs).
    - unfold ArgumentGraph.get_node_for_label in *. by rewrite <-Hidx. }
  destruct f; simpl; intros He; try (by apply Hd);
    destruct He as [He|He]; [left|right]; by apply Hd.
Qed.

Section BuiltFacts.
Variable hash : Text → Z.

Lemma get_node_for_label_Some g l r :
  built hash g → ArgumentGraph.get_node_for_label g l = Some r →
  r ∈ ArgumentGraph.all_nodes g ∧ GraphNode.label (ArgumentGraph.node g r) = l.
Proof.
  intros Hb Hr. rewrite (built_index _ _ Hb) in Hr.
  apply last_Some_elem_of, list_elem_of_filter in Hr. tauto.
Qed.

Lemma get_node_for_label_None g l :
  built hash g →
  ArgumentGraph.get_node_for_label g l = None ↔
  ∀ r, r ∈ ArgumentGraph.all_nodes g → GraphNode.label (ArgumentGraph.node g r) ≠ l.
Proof.
  intros Hb. rewrite (built_index _ _ Hb), last_None. split.
  - intros Hf r Hr Hl. eapply filter_nil_not_elem_of; [exact Hf| |exact Hr]. done.
  - intros Hn. destruct (filter _ _) as [|r rs] eqn:Hf; [done|].
    assert (r ∈ r :: rs) as Hr by apply list_elem_of_here.
    rewrite <-Hf in Hr. apply list_elem_of_filter in Hr as [Hl Hr].
    by destruct (Hn r Hr).
Qed.

Lemma edge_in g f a x :
  built hash g → edge g f a x →
  a ∈ ArgumentGraph.all_nodes g ∧ x ∈ ArgumentGraph.all_nodes g.
Proof.
  intros Hb.
  assert (∀ labels b y, declares g labels b y →
            b ∈ ArgumentGraph.all_nodes g ∧ y ∈ ArgumentGraph.all_nodes g) as Hd.
  { intros labels b y (Hin & l & _ & Hget). split; [done|].
    by destruct (get_node_for_label_Some g l y Hb Hget). }
  destruct f; simpl; intros He;
    repeat match goal with
           | H : _ ∨ _ |- _ => destruct H
           | H : declares _ _ _ _ |- _ => apply Hd in H
           end; tauto.
Qed.

(** Every assertion of [_check_constraints] holds. *)
Lemma check_links g f n y :
  built hash g → y ∈ GraphNode.links f (ArgumentGraph.node g n) →
  ArgumentGraph.is_in hash g n (inverse f) y = true.
Proof.
  intros Hb Hy. apply (built_stored _ _ Hb) in Hy.
  destruct (edge_in g f n y Hb Hy) as [Hn Hyin].
  apply (built_mem _ _ Hb); [done|]. exists n. split; [|done].
  by apply edge_inverse in Hy.
Qed.

Lemma check_constraints_built g :
  built hash g → ArgumentGraph._check_constraints hash g = true.
Proof.
  intros Hb. unfold ArgumentGraph._check_constraints.
  apply forallb_forall. intros n _.
  rewrite !andb_true_iff. repeat split; apply forallb_forall; intros y Hy;
    apply list_elem_of_In in Hy.
  - exact (check_links g GraphNode.Parent n y Hb Hy).
  - exact (check_links g GraphNode.Child n y Hb Hy).
  - exact (check_links g GraphNode.Group n y Hb Hy).
  - exact (check_links g GraphNode.GroupMember n y Hb Hy).
  - exact (check_links g GraphNode.Similar n y Hb Hy).
Qed.
End BuiltFacts.

Section ConstructionFacts.
Variable hash : Text → Z.

Lemma post_init_built (self : ArgumentGraph.t) :
  ArgumentGraph.all_nodes self = seq 0 (length (ArgumentGraph.store self)) →
  (∀ f r, GraphNode.links f (ArgumentGraph.store self !!! r) = []) →
  (∀ r, r ∈ ArgumentGraph.all_nodes self →
        ∃ a, attrs (ArgumentGraph.node self r) = attrs (GraphNode.__init__ a)) →
  ∃ g, ArgumentGraph.__post_init__ hash self = Some g ∧ built hash g ∧
       attrs <$> ArgumentGraph.store g = attrs <$> ArgumentGraph.store self ∧
       ArgumentGraph.introduction_nodes g = ArgumentGraph.introduction_nodes self ∧
       ArgumentGraph.transition_nodes g = ArgumentGraph.transition_nodes self ∧
       ArgumentGraph.z_arguments_nodes g = ArgumentGraph.z_arguments_nodes self ∧
       ArgumentGraph.group_nodes g = ArgumentGraph.group_nodes self ∧
       ArgumentGraph.nz_arguments_nodes g = ArgumentGraph.nz_arguments_nodes self ∧
       ArgumentGraph.faq_nodes g = ArgumentGraph.faq_nodes self.
Proof.
  intros Hall Hfresh Hcons.
  set (s1 := ArgumentGraph.with_index self
               (ArgumentGraph.label_dict (ArgumentGraph.store self)
                                         (ArgumentGraph.all_nodes self))).
  set (g := ArgumentGraph.with_store s1
              (run hash (ArgumentGraph.store self) (all_ops s1))).
  assert (attrs <$> ArgumentGraph.store g = attrs <$> ArgumentGraph.store self)
    as Hattrs by apply run_attrs.
  assert (∀ r, GraphNode.label (ArgumentGraph.node g r) =
               GraphNode.label (ArgumentGraph.store self !!! r)) as Hlabel.
  { intros r. exact (f_equal GraphNode.label (attrs_lookup_total _ _ r Hattrs)). }
  assert (∀ f a x, edge s1 f a x ↔ edge g f a x) as Hedge.
  { intros f a x. split; apply edge_ext; done. }
  assert (built hash g) as Hb.
  { split.
    - change (ArgumentGraph.all_nodes g) with (ArgumentGraph.all_nodes self).
      rewrite Hall. f_equal. symmetry. apply run_length.
    - intros l.
      change (ArgumentGraph.get_node_for_label g l)
        with (ArgumentGraph.label_dict (ArgumentGraph.store self)
                (ArgumentGraph.all_nodes self) !! l).
      rewrite label_dict_lookup. f_equal.
      apply list_filter_iff. intros r. by rewrite Hlabel.
    - intros r Hr. destruct (Hcons r Hr) as [a Ha]. exists a.
      rewrite <-Ha. apply (attrs_lookup_total _ _ r Hattrs).
    - intros f a y Hy. apply Hedge.
      apply run_stored in Hy as [Hy|Hy].
      + rewrite Hfresh in Hy. by apply elem_of_nil in Hy.
      + by apply elem_of_all_ops in Hy.
    - intros f a z Ha.
      change (ArgumentGraph.all_nodes g) with (ArgumentGraph.all_nodes self) in Ha.
      rewrite Hall in Ha. apply elem_of_seq in Ha.
      unfold ArgumentGraph.is_in.
      rewrite (mem_ext _ (GraphNode.hash_at hash (ArgumentGraph.store self)))
        by (intros r; apply run_hash_at).
      unfold ArgumentGraph.node.
      change (ArgumentGraph.store g)
        with (run hash (ArgumentGraph.store self) (all_ops s1)).
      rewrite run_mem by lia. rewrite Hfresh. split.
      + intros [?|(y & Hy & Hk)]; [done|]. exists y.
        split; [by apply Hedge, elem_of_all_ops|]. by rewrite !run_hash_at.
      + intros (y & Hy & Hk). right. exists y.
        split; [by apply elem_of_all_ops, Hedge|]. by rewrite !run_hash_at in Hk. }
  exists g. split; [|done].
  unfold ArgumentGraph.__post_init__. fold s1.
  rewrite init_node_references_run.
  change (ArgumentGraph.with_store s1 (run hash (ArgumentGraph.store s1) (all_ops s1)))
    with g.
  by rewrite (check_constraints_built hash g Hb).
Qed.

Lemma init_links_fresh (rows : list GraphNode.Init.t) f r :
  GraphNode.links f ((GraphNode.__init__ <$> rows) !!! r) = [].
Proof.
  rewrite list_lookup_total_alt, list_lookup_fmap.
  destruct (rows !! r); by destruct f.
Qed.

Lemma all_nodes_allocate (intro trans zargs grps nzargs faq : list GraphNode.t) :
  ArgumentGraph.all_nodes
    (ArgumentGraph.allocate intro trans zargs grps nzargs faq) =
  seq 0 (length (intro ++ trans ++ zargs ++ grps ++ nzargs ++ faq)).
Proof.
  unfold ArgumentGraph.all_nodes, ArgumentGraph.allocate. simpl.
  rewrite !length_app, !seq_app. simpl. repeat f_equal; lia.
Qed.

(** Construction from records never raises, and yields a [built] graph
    whose store holds the constructed nodes in the order of the six lists. *)
Lemma from_records_built (intro trans zargs grps nzargs faq : list GraphNode.Init.t) :
  ∃ g, ArgumentGraph.from_records hash intro trans zargs grps nzargs faq = Some g ∧
       built hash g ∧
       attrs <$> ArgumentGraph.store g =
         attrs <$> (GraphNode.__init__ <$>
                      (intro ++ trans ++ zargs ++ grps ++ nzargs ++ faq)) ∧
       ArgumentGraph.introduction_nodes g = seq 0 (length intro) ∧
       ArgumentGraph.transition_nodes g = seq (length intro) (length trans) ∧
       ArgumentGraph.z_arguments_nodes g =
         seq (length intro + length trans) (length zargs) ∧
       ArgumentGraph.group_nodes g =
         seq (length intro + length trans + length zargs) (length grps) ∧
       ArgumentGraph.nz_arguments_nodes g =
         seq (length intro + length trans + length zargs + length grps)
             (length nzargs) ∧
       ArgumentGraph.faq_nodes g =
         seq (length intro + length trans + length zargs + length grps
              + length nzargs) (length faq).
Proof.
  unfold ArgumentGraph.from_records, ArgumentGraph.__init__.
  set (self := ArgumentGraph.allocate _ _ _ _ _ _).
  assert (ArgumentGraph.store self =
          GraphNode.__init__ <$> (intro ++ trans ++ zargs ++ grps ++ nzargs ++ faq))
    as Hst by (by rewrite !fmap_app).
  destruct (post_init_built self) as (g & Hg & Hb & Hattrs & H1 & H2 & H3 & H4 & H5 & H6).
  - apply all_nodes_allocate.
  - intros f r. rewrite Hst. apply init_links_fresh.
  - intros r Hr. unfold ArgumentGraph.node. rewrite Hst.
    unfold self in Hr. rewrite all_nodes_allocate in Hr.
    apply elem_of_seq in Hr. rewrite <-!fmap_app, length_fmap in Hr.
    destruct (lookup_lt_is_Some_2 (intro ++ trans ++ zargs ++ grps ++ nzargs ++ faq) r)
      as [a Ha]; [lia|].
    exists a. by rewrite (list_lookup_total_correct _ _ (GraphNode.__init__ a))
      by (by rewrite list_lookup_fmap, Ha).
  - exists g. rewrite Hst in Hattrs.
    rewrite H1, H2, H3, H4, H5, H6. simpl. rewrite !length_fmap. done.
Qed.
(** No assertion of [_check_constraints] fails: construction returns the
    resolved graph. *)
Lemma from_records_resolved (intro trans zargs grps nzargs faq : list GraphNode.Init.t) :
  ArgumentGraph.from_records hash intro trans zargs grps nzargs faq =
  Some (resolved hash intro trans zargs grps nzargs faq).
Proof.
  destruct (from_records_built intro trans zargs grps nzargs faq) as (g & Hg & _).
  revert Hg. unfold ArgumentGraph.from_records, ArgumentGraph.__init__,
    ArgumentGraph.__post_init__, resolved.
  destruct (ArgumentGraph._check_constraints _ _); [done|discriminate].
Qed.
End ConstructionFacts.

Lemma resolved_run (hash : Text → Z)
    (intro trans zargs grps nzargs faq : list GraphNode.Init.t) :
  resolved hash intro trans zargs grps nzargs faq =
  let self :=
    ArgumentGraph.allocate
      (GraphNode.__init__ <$> intro) (GraphNode.__init__ <$> trans)
      (GraphNode.__init__ <$> zargs) (GraphNode.__init__ <$> grps)
      (GraphNode.__init__ <$> nzargs) (GraphNode.__init__ <$> faq) in
  let indexed :=
    ArgumentGraph.with_index self
      (ArgumentGraph.label_dict (ArgumentGraph.store self)
                                (ArgumentGraph.all_nodes self)) in
  ArgumentGraph.with_store indexed
    (run hash (ArgumentGraph.store indexed) (all_ops indexed)).
Proof. apply init_node_references_run. Qed.

(** Evaluates a goal about the graph of concrete records under an arbitrary
    [hash]: the index and the list of mutations do not depend on [hash] and
    are computed first; the comparisons of a label's hash with itself that
    remain are then decided. *)
Ltac eval_resolved :=
  rewrite resolved_run;
  let s := fresh "s" in
  let ops := fresh "ops" in
  cbv zeta;
  match goal with
  | |- context [all_ops ?x] => set (s := x); vm_compute in s
  end;
  set (ops := all_ops s); vm_compute in ops;
  lazy -[Z.eqb]; repeat (rewrite Z.eqb_refl; lazy -[Z.eqb]).

(** ** The constructor on examples *)

Example strip_example :
  Text.strip "  Z.P1 " = "Z.P1" ∧ Text.strip " a b " = "a b" ∧ Text.strip "   " = "".
Proof. repeat split. Qed.

(** The label and the parent and group labels are stripped, the resulting
    sets lose their duplicates and the node's own label; [similars] is kept
    as given. *)
Example init_example :
  let n := GraphNode.__init__
             (record " Z.P1-1 " "text" ["Z.P1 "; " Z.P1"; "Z.P1-1"] [" G1"] [" Z.P1"; "Z.P1-1"]) in
  GraphNode.label n = "Z.P1-1"
  ∧ GraphNode.label_name n = "Z.P1-1"
  ∧ GraphNode.parents n = ["Z.P1"]
  ∧ GraphNode.groups n = ["G1"]
  ∧ GraphNode.similars n = [" Z.P1"; "Z.P1-1"]
  ∧ GraphNode.parent_nodes n = [].
Proof. repeat split. Qed.

(** * The claims *)

(** ** Equality and hashing of nodes *)

Lemma a_label_length n : String.length (a_label n) = n.
Proof. induction n; simpl; congruence. Qed.

(** A hash with a bounded range sends two distinct labels to one value. *)
Lemma hash_collision (hash : Text → Z) (M : Z) :
  (∀ s, - M ≤ hash s < M) → ∃ s1 s2, s1 ≠ s2 ∧ hash s1 = hash s2.
Proof.
  intros Hb.
  destruct (nat_pigeonhole (λ i, Z.to_nat (hash (a_label i) + M))
              (S (Z.to_nat (2 * M))) (Z.to_nat (2 * M)))
    as (i1 & i2 & Hlt & He); [lia| |].
  - intros i _. pose proof (Hb (a_label i)). lia.
  - exists (a_label i1), (a_label i2). split.
    + intros Heq. apply (f_equal String.length) in Heq.
      rewrite !a_label_length in Heq. lia.
    + pose proof (Hb (a_label i1)). pose proof (Hb (a_label i2)). lia.
Qed.

Lemma wrap64_range (z : Z) : - 2 ^ 63 ≤ wrap64 z < 2 ^ 63.
Proof.
  unfold wrap64. pose proof (Z.mod_pos_bound (z + 2 ^ 63) (2 ^ 64)). lia.
Qed.

(** The hash of the examples is a 64-bit hash. *)
Lemma sample_hash_64 : hash64 sample_hash.
Proof.
  intros s. unfold sample_hash. destruct s as [|c s]; [lia|]. cbv zeta.
  match goal with |- context [wrap64 ?z] => pose proof (wrap64_range z) end.
  destruct (_ =? _); lia.
Qed.

(** C7 (as the code has it).  [A == B] compares the hashes of the two labels:
    it holds exactly when [hash(A.label) == hash(B.label)].  Nodes with equal
    labels are therefore equal, and the hash of a node is the hash of its
    label, so it is determined by the label alone.  The converse direction of
    the claim, that equal nodes have equal labels, is not what the code
    checks: it fails on every collision of [hash]. *)
Theorem eq_iff_label_hash (hash : Text → Z) (A B : GraphNode.t) :
  (GraphNode.__eq__ hash A (GraphNode.Node B) = true ↔
     hash (GraphNode.label A) = hash (GraphNode.label B))
  ∧ (GraphNode.label A = GraphNode.label B →
       GraphNode.__eq__ hash A (GraphNode.Node B) = true)
  ∧ GraphNode.__hash__ hash A = hash (GraphNode.label A)
  ∧ (GraphNode.label A = GraphNode.label B →
       GraphNode.__hash__ hash A = GraphNode.__hash__ hash B).
Proof.
  unfold GraphNode.__eq__, GraphNode.__hash__. repeat split.
  - apply Z.eqb_eq.
  - apply Z.eqb_eq.
  - intros ->. apply Z.eqb_refl.
  - by intros ->.
Qed.

(** C7, as stated, fails: no 64-bit [hash] makes [==] on nodes coincide with
    equality of labels, since two distinct labels share a hash value and the
    nodes that carry them compare equal. *)
Lemma eq_not_label_eq :
  ¬ ∃ hash : Text → Z,
      hash64 hash ∧
      ∀ A B : GraphNode.t,
        GraphNode.__eq__ hash A (GraphNode.Node B) = true ↔
        GraphNode.label A = GraphNode.label B.
Proof.
  intros (hash & Hb & Heq).
  destruct (hash_collision hash (2 ^ 63) Hb) as (s1 & s2 & Hne & Hh).
  apply Hne.
  apply (Heq (GraphNode.mk s1 "t" [] s1 "" "" [] (-1) (-1)
                GraphNodeCategory.OTHER Stance.OTHER [] [] [] [] [] [] [])
             (GraphNode.mk s2 "t" [] s2 "" "" [] (-1) (-1)
                GraphNodeCategory.OTHER Stance.OTHER [] [] [] [] [] [] [])).
  unfold GraphNode.__eq__, GraphNode.__hash__. simpl. by apply Z.eqb_eq.
Qed.


(** ** [as_tuple] *)

(** C10.  [as_tuple] raises on every node whose [groups] set is empty, and
    returns the six-tuple, closed by one of the node's group labels, on
    every other node. *)
Theorem as_tuple_partial (n : GraphNode.t) :
  (GraphNode.groups n = [] → GraphNode.as_tuple n = None)
  ∧ (GraphNode.groups n ≠ [] →
       ∃ g, g ∈ GraphNode.groups n ∧
            GraphNode.as_tuple n =
            Some (GraphNode.label n, GraphNode.summary n, GraphNode.paraphrase n,
                  GraphNode.full_text n, GraphNode.rating n, g))
  ∧ (is_Some (GraphNode.as_tuple n) ↔ GraphNode.groups n ≠ []).
Proof.
  unfold GraphNode.as_tuple. destruct (GraphNode.groups n) as [|g gs].
  - split; [done|]. split; [done|]. split; [by intros [? ?]|done].
  - split; [done|]. split.
    + intros _. exists g. split; [apply list_elem_of_here|done].
    + split; [done|]. intros _. by eexists.
Qed.

(** A node constructed without groups, or with itself as its only group,
    has no tuple. *)
Example as_tuple_no_groups :
  GraphNode.as_tuple (GraphNode.__init__ (record "Z.P1" "text" [] [] [])) = None
  ∧ GraphNode.as_tuple (GraphNode.__init__ (record "Z.P1" "text" [] ["Z.P1"] [])) = None
  ∧ GraphNode.as_tuple (GraphNode.__init__ (record "Z.P1" "text" [] ["Z"] [])) =
    Some ("Z.P1", "", "", "text", -1, "Z").
Proof. repeat split. Qed.

(** ** Counter-arguments *)

(** C3 (as the code has it).  [get_counter_args] returns [None] both for a
    label that resolves to no node and for a label that resolves to a node
    without children: the two results are the same value. *)
Theorem get_counter_args_same (g : ArgumentGraph.t) (unknown known : Text) (r : ref) :
  ArgumentGraph.get_node_for_label g unknown = None →
  ArgumentGraph.get_node_for_label g known = Some r →
  GraphNode.child_nodes (ArgumentGraph.node g r) = [] →
  ArgumentGraph.get_counter_args g unknown = None
  ∧ ArgumentGraph.get_counter_args g known = None
  ∧ ArgumentGraph.get_counter_args g unknown = ArgumentGraph.get_counter_args g known.
Proof.
  intros Hu Hk Hc. unfold ArgumentGraph.get_counter_args.
  rewrite Hu, Hk, Hc. done.
Qed.

Lemma get_counter_args_single (hash : Text → Z) :
  ∃ g, ArgumentGraph.from_records hash [] [] single_rows [] [] [] = Some g
       ∧ ArgumentGraph.get_node_for_label g "UNKNOWN" = None
       ∧ ArgumentGraph.get_node_for_label g "Z.P1" = Some 0%nat
       ∧ GraphNode.child_nodes (ArgumentGraph.node g 0) = []
       ∧ ArgumentGraph.get_counter_args g "UNKNOWN" = None
       ∧ ArgumentGraph.get_counter_args g "Z.P1" = None.
Proof.
  eexists. split; [apply from_records_resolved|].
  vm_compute. repeat split.
Qed.

(** C3, as stated, fails: on the graph of one node [Z.P1], the unknown label
    and the label of the childless node get the same result, [None]. *)
Lemma get_counter_args_indistinguishable :
  ∃ g, ArgumentGraph.from_records sample_hash [] [] single_rows [] [] [] = Some g
       ∧ ArgumentGraph.get_node_for_label g "UNKNOWN" = None
       ∧ ArgumentGraph.get_node_for_label g "Z.P1" = Some 0%nat
       ∧ GraphNode.child_nodes (ArgumentGraph.node g 0) = []
       ∧ ArgumentGraph.get_counter_args g "UNKNOWN" = None
       ∧ ArgumentGraph.get_counter_args g "Z.P1" = None.
Proof. apply get_counter_args_single. Qed.

Lemma child_nodes_resolves (hash : Text → Z) (g : ArgumentGraph.t) (r : ref) :
  built hash g → GraphNode.child_nodes (ArgumentGraph.node g r) ≠ [] →
  ArgumentGraph.get_node_for_label g (GraphNode.label (ArgumentGraph.node g r)) = Some r.
Proof.
  intros Hb Hne. destruct (GraphNode.child_nodes (ArgumentGraph.node g r))
    as [|y ys] eqn:Hc; [done|].
  assert (y ∈ GraphNode.links GraphNode.Child (ArgumentGraph.node g r)) as Hy
    by (simpl; rewrite Hc; apply list_elem_of_here).
  apply (built_stored _ _ Hb) in Hy as (_ & l & _ & Hget).
  destruct (get_node_for_label_Some hash g l r Hb Hget) as [_ <-]. done.
Qed.

(** C6 (as the code has it).  On every built graph: a label carried by no
    node yields [None]; a label that resolves to a node with empty
    [child_nodes] yields [None]; and the label of any node with non-empty
    [child_nodes] yields exactly that node's [child_nodes].  The second part
    is about the node the label resolves to: when an earlier node carries the
    same label, its own empty [child_nodes] does not decide the result. *)
Theorem get_counter_args_spec (hash : Text → Z)
    (intro trans zargs grps nzargs faq : list GraphNode.Init.t)
    (g : ArgumentGraph.t) (l : Text) :
  ArgumentGraph.from_records hash intro trans zargs grps nzargs faq = Some g →
  ((∀ r, r ∈ ArgumentGraph.all_nodes g →
         GraphNode.label (ArgumentGraph.node g r) ≠ l) →
   ArgumentGraph.get_counter_args g l = None)
  ∧ (∀ r, ArgumentGraph.get_node_for_label g l = Some r →
          GraphNode.child_nodes (ArgumentGraph.node g r) = [] →
          ArgumentGraph.get_counter_args g l = None)
  ∧ (∀ r, r ∈ ArgumentGraph.all_nodes g →
          GraphNode.label (ArgumentGraph.node g r) = l →
          GraphNode.child_nodes (ArgumentGraph.node g r) ≠ [] →
          ArgumentGraph.get_counter_args g l =
          Some (GraphNode.child_nodes (ArgumentGraph.node g r))).
Proof.
  intros Hg.
  destruct (from_records_built hash intro trans zargs grps nzargs faq)
    as (g' & Hg' & Hb & _).
  assert (g' = g) as -> by congruence.
  unfold ArgumentGraph.get_counter_args. repeat split.
  - intros Hno. apply (get_node_for_label_None hash g l Hb) in Hno.
    by rewrite Hno.
  - intros r Hr Hc. by rewrite Hr, Hc.
  - intros r Hr <- Hc.
    rewrite (child_nodes_resolves hash g r Hb Hc).
    destruct (GraphNode.child_nodes (ArgumentGraph.node g r)); [done|].
    rewrite bool_decide_true; [done|simpl; lia].
Qed.

Lemma get_counter_args_duplicate_any (hash : Text → Z) :
  ∃ g, ArgumentGraph.from_records hash [] [] duplicate_rows [] [] [] = Some g
       ∧ 0%nat ∈ ArgumentGraph.all_nodes g
       ∧ GraphNode.label (ArgumentGraph.node g 0) = "Z.P1"
       ∧ GraphNode.child_nodes (ArgumentGraph.node g 0) = []
       ∧ ArgumentGraph.get_node_for_label g "Z.P1" = Some 1%nat
       ∧ ArgumentGraph.get_counter_args g "Z.P1" = Some [2%nat].
Proof.
  eexists. split; [apply from_records_resolved|].
  vm_compute. repeat split. apply list_elem_of_here.
Qed.

(** C6, as stated, fails when a label is carried by two nodes: the first node
    [Z.P1] has no children, yet [get_counter_args] of its label returns the
    children of the second node [Z.P1]. *)
Lemma get_counter_args_duplicate :
  ∃ g, ArgumentGraph.from_records sample_hash [] [] duplicate_rows [] [] [] = Some g
       ∧ 0%nat ∈ ArgumentGraph.all_nodes g
       ∧ GraphNode.label (ArgumentGraph.node g 0) = "Z.P1"
       ∧ GraphNode.child_nodes (ArgumentGraph.node g 0) = []
       ∧ ArgumentGraph.get_node_for_label g "Z.P1" = Some 1%nat
       ∧ ArgumentGraph.get_counter_args g "Z.P1" = Some [2%nat].
Proof. apply get_counter_args_duplicate_any. Qed.

(** ** Dangling references *)

(** C8.  Construction from records never raises, whatever labels the
    records name.  In the graph it returns, a node none of whose parent
    labels resolves has an empty [parent_nodes], and likewise for group
    labels and [group_nodes]. *)
Theorem dangling_references_tolerated (hash : Text → Z)
    (intro trans zargs grps nzargs faq : list GraphNode.Init.t) :
  ∃ g, ArgumentGraph.from_records hash intro trans zargs grps nzargs faq = Some g ∧
       ∀ r,
         ((∀ l, l ∈ GraphNode.parents (ArgumentGraph.node g r) →
                ArgumentGraph.get_node_for_label g l = None) →
          GraphNode.parent_nodes (ArgumentGraph.node g r) = [])
         ∧ ((∀ l, l ∈ GraphNode.groups (ArgumentGraph.node g r) →
                  ArgumentGraph.get_node_for_label g l = None) →
            GraphNode.group_nodes (ArgumentGraph.node g r) = []).
Proof.
  destruct (from_records_built hash intro trans zargs grps nzargs faq)
    as (g & Hg & Hb & _).
  exists g. split; [done|]. intros r. split; intros Hno; apply elem_of_nil_inv; intros y Hy.
  - apply (built_stored _ _ Hb GraphNode.Parent) in Hy as (_ & l & Hl & Hget).
    by rewrite (Hno l Hl) in Hget.
  - apply (built_stored _ _ Hb GraphNode.Group) in Hy as (_ & l & Hl & Hget).
    by rewrite (Hno l Hl) in Hget.
Qed.

(** The node of the specification's example: no link set receives a node. *)
Lemma dangling_example (hash : Text → Z) :
  ∃ g, ArgumentGraph.from_records hash [] [] dangling_rows [] [] [] = Some g
       ∧ GraphNode.parents (ArgumentGraph.node g 0) = ["NO.SUCH.LABEL"]
       ∧ ArgumentGraph.get_node_for_label g "NO.SUCH.LABEL" = None
       ∧ GraphNode.parent_nodes (ArgumentGraph.node g 0) = []
       ∧ GraphNode.group_nodes (ArgumentGraph.node g 0) = []
       ∧ GraphNode.similar_nodes (ArgumentGraph.node g 0) = [].
Proof.
  eexists. split; [apply from_records_resolved|]. vm_compute. repeat split.
Qed.

(** ** Duplicate labels *)

Lemma attrs_lookup_total_fmap (st : list GraphNode.t) (r : ref) :
  attrs (st !!! r) = (attrs <$> st) !!! r.
Proof.
  rewrite !list_lookup_total_alt, list_lookup_fmap. by destruct (st !! r).
Qed.

Lemma lookup_total_segment (l1 l2 l3 : list GraphNode.t) :
  (λ r, (l1 ++ l2 ++ l3) !!! r) <$> seq (length l1) (length l2) = l2.
Proof.
  apply list_eq. intros i. rewrite list_lookup_fmap.
  destruct (decide (i < length l2)%nat) as [Hi|Hi].
  - rewrite lookup_seq_lt by done. simpl.
    rewrite lookup_total_app_r by lia.
    replace (length l1 + i - length l1)%nat with i by lia.
    rewrite lookup_total_app_l by done.
    destruct (lookup_lt_is_Some_2 l2 i Hi) as [x Hx].
    by rewrite Hx, (list_lookup_total_correct _ _ _ Hx).
  - rewrite lookup_seq_ge by lia. simpl. symmetry. apply lookup_ge_None. lia.
Qed.

Lemma nodes_at_segment (g : ArgumentGraph.t) (l1 l2 l3 : list GraphNode.Init.t) :
  attrs <$> ArgumentGraph.store g =
    attrs <$> (GraphNode.__init__ <$> (l1 ++ l2 ++ l3)) →
  nodes_at g (seq (length l1) (length l2)) = constructed l2.
Proof.
  intros Hst. unfold nodes_at, constructed, ArgumentGraph.node.
  erewrite list_fmap_ext; [|intros i r _; apply attrs_lookup_total_fmap].
  rewrite Hst, <-list_fmap_compose, !fmap_app.
  pose proof (lookup_total_segment (attrs ∘ GraphNode.__init__ <$> l1)
                (attrs ∘ GraphNode.__init__ <$> l2)
                (attrs ∘ GraphNode.__init__ <$> l3)) as Hseg.
  rewrite !length_fmap in Hseg. exact Hseg.
Qed.

Lemma filter_none {A} (P : A → Prop) `{!∀ x, Decision (P x)} (l : list A) :
  (∀ x, x ∈ l → ¬ P x) → filter P l = [].
Proof.
  induction l as [|x l IH]; intros Hl; [done|].
  rewrite filter_cons_False by (apply Hl, list_elem_of_here).
  apply IH. intros y Hy. apply Hl. by apply list_elem_of_further.
Qed.

Lemma label_attrs (n : GraphNode.t) : GraphNode.label (attrs n) = GraphNode.label n.
Proof. reflexivity. Qed.

(** The node at a position of the store has the attributes of the node
    constructed from the record at that position. *)
Lemma store_attrs (g : ArgumentGraph.t) (rows : list GraphNode.Init.t) r a :
  attrs <$> ArgumentGraph.store g = attrs <$> (GraphNode.__init__ <$> rows) →
  rows !! r = Some a →
  attrs (ArgumentGraph.node g r) = attrs (GraphNode.__init__ a).
Proof.
  intros Hst Ha. unfold ArgumentGraph.node.
  rewrite attrs_lookup_total_fmap, Hst.
  apply list_lookup_total_correct. by rewrite !list_lookup_fmap, Ha.
Qed.

(** C9.  Construction never fails, duplicate labels or not.  Each partition
    of the graph holds, in order, the nodes constructed from its records
    (none is dropped or merged).  [all_nodes] is the concatenation of the
    partitions in the order introduction, transition, z-argument, group,
    nz-argument, FAQ, so its nodes are those constructed from the records
    of the six lists in that order, each record at its position.
    [get_node_for_label] returns, and the index holds, for a label the
    last node in this concatenation that carries it: the node of a record
    after which no record of the same (stripped) label follows, whatever
    nodes of that label come before it. *)
Theorem duplicate_labels_last_wins (hash : Text → Z)
    (intro trans zargs grps nzargs faq : list GraphNode.Init.t) :
  ∃ g, ArgumentGraph.from_records hash intro trans zargs grps nzargs faq = Some g
       ∧ nodes_at g (ArgumentGraph.introduction_nodes g) = constructed intro
       ∧ nodes_at g (ArgumentGraph.transition_nodes g) = constructed trans
       ∧ nodes_at g (ArgumentGraph.z_arguments_nodes g) = constructed zargs
       ∧ nodes_at g (ArgumentGraph.group_nodes g) = constructed grps
       ∧ nodes_at g (ArgumentGraph.nz_arguments_nodes g) = constructed nzargs
       ∧ nodes_at g (ArgumentGraph.faq_nodes g) = constructed faq
       ∧ ArgumentGraph.all_nodes g =
           ArgumentGraph.introduction_nodes g ++ ArgumentGraph.transition_nodes g
           ++ ArgumentGraph.z_arguments_nodes g ++ ArgumentGraph.group_nodes g
           ++ ArgumentGraph.nz_arguments_nodes g ++ ArgumentGraph.faq_nodes g
       ∧ ArgumentGraph.introduction_nodes g ++ ArgumentGraph.transition_nodes g
         ++ ArgumentGraph.z_arguments_nodes g ++ ArgumentGraph.group_nodes g
         ++ ArgumentGraph.nz_arguments_nodes g ++ ArgumentGraph.faq_nodes g =
           seq 0 (length (intro ++ trans ++ zargs ++ grps ++ nzargs ++ faq))
       ∧ nodes_at g (ArgumentGraph.all_nodes g) =
           constructed (intro ++ trans ++ zargs ++ grps ++ nzargs ++ faq)
       ∧ (∀ l, ArgumentGraph.get_node_for_label g l =
               last (filter (λ r, GraphNode.label (ArgumentGraph.node g r) = l)
                            (ArgumentGraph.introduction_nodes g
                             ++ ArgumentGraph.transition_nodes g
                             ++ ArgumentGraph.z_arguments_nodes g
                             ++ ArgumentGraph.group_nodes g
                             ++ ArgumentGraph.nz_arguments_nodes g
                             ++ ArgumentGraph.faq_nodes g)))
       ∧ (∀ l, ArgumentGraph._label_to_node g !! l =
               ArgumentGraph.get_node_for_label g l)
       ∧ (∀ before x after,
            intro ++ trans ++ zargs ++ grps ++ nzargs ++ faq = before ++ x :: after →
            (∀ y, y ∈ after →
                  GraphNode.label (GraphNode.__init__ y) ≠
                  GraphNode.label (GraphNode.__init__ x)) →
            ArgumentGraph.get_node_for_label g
              (GraphNode.label (GraphNode.__init__ x)) = Some (length before)
            ∧ attrs (ArgumentGraph.node g (length before)) =
              attrs (GraphNode.__init__ x)).
Proof.
  destruct (from_records_built hash intro trans zargs grps nzargs faq)
    as (g & Hg & Hb & Hst & H1 & H2 & H3 & H4 & H5 & H6).
  set (rows := intro ++ trans ++ zargs ++ grps ++ nzargs ++ faq) in *.
  assert (length (ArgumentGraph.store g) = length rows) as Hlen.
  { apply (f_equal length) in Hst. by rewrite !length_fmap in Hst. }
  assert (ArgumentGraph.all_nodes g = seq 0 (length rows)) as Hall.
  { by rewrite (built_all_nodes _ _ Hb), Hlen. }
  assert (ArgumentGraph.all_nodes g =
          ArgumentGraph.introduction_nodes g ++ ArgumentGraph.transition_nodes g
          ++ ArgumentGraph.z_arguments_nodes g ++ ArgumentGraph.group_nodes g
          ++ ArgumentGraph.nz_arguments_nodes g ++ ArgumentGraph.faq_nodes g)
    as Hcat by reflexivity.
  exists g. split; [done|].
  rewrite <-Hcat, Hall. rewrite H1, H2, H3, H4, H5, H6.
  split; [|split; [|split; [|split; [|split; [|split]]]]].
  - apply (nodes_at_segment g [] intro (trans ++ zargs ++ grps ++ nzargs ++ faq)).
    exact Hst.
  - apply (nodes_at_segment g intro trans (zargs ++ grps ++ nzargs ++ faq)).
    exact Hst.
  - rewrite <-length_app.
    apply (nodes_at_segment g (intro ++ trans) zargs (grps ++ nzargs ++ faq)).
    by rewrite <-!app_assoc.
  - rewrite <-!length_app.
    apply (nodes_at_segment g ((intro ++ trans) ++ zargs) grps (nzargs ++ faq)).
    by rewrite <-!app_assoc.
  - rewrite <-!length_app.
    apply (nodes_at_segment g (((intro ++ trans) ++ zargs) ++ grps) nzargs faq).
    by rewrite <-!app_assoc.
  - rewrite <-!length_app.
    apply (nodes_at_segment g ((((intro ++ trans) ++ zargs) ++ grps) ++ nzargs) faq []).
    by rewrite <-!app_assoc, app_nil_r.
  - assert (∀ l, ArgumentGraph.get_node_for_label g l =
                 last (filter (λ r, GraphNode.label (ArgumentGraph.node g r) = l)
                              (seq 0 (length rows)))) as Hindex.
    { intros l. by rewrite (built_index _ _ Hb), Hall. }
    split; [done|]. split; [done|].
    split; [|split; [exact Hindex|split; [done|]]].
    + apply (nodes_at_segment g [] rows []). by rewrite app_nil_r.
    + intros before x after Hrows Hafter.
      assert (rows !! length before = Some x) as Hx.
      { rewrite Hrows. by apply list_lookup_middle. }
      split; [|by apply (store_attrs g rows)].
      rewrite Hindex, Hrows, length_app. cbn [length].
      rewrite seq_app. cbn [seq]. rewrite Nat.add_0_l.
      rewrite filter_app, filter_cons_True.
      2:{ by rewrite <-label_attrs, (store_attrs g rows _ x Hst Hx). }
      rewrite (filter_none _ (seq (S (length before)) (length after)));
        [apply last_snoc|].
      intros r [Hr1 Hr2]%elem_of_seq.
      destruct (lookup_lt_is_Some_2 after (r - S (length before))) as [y Hy]; [lia|].
      assert (rows !! r = Some y) as Hry.
      { rewrite Hrows, lookup_app_r by lia.
        replace (r - length before)%nat with (S (r - S (length before))) by lia.
        exact Hy. }
      rewrite <-label_attrs, (store_attrs g rows _ y Hst Hry).
      apply Hafter. by apply list_elem_of_lookup_2 in Hy.
Qed.

(** Two z-arguments labelled [Z.P1]: both stay in their partition, and the
    label resolves to the second. *)
Lemma duplicate_example (hash : Text → Z) :
  ∃ g, ArgumentGraph.from_records hash [] [] duplicate_rows [] [] [] = Some g
       ∧ ArgumentGraph.z_arguments_nodes g = [0; 1; 2]%nat
       ∧ GraphNode.label (ArgumentGraph.node g 0) = "Z.P1"
       ∧ GraphNode.label (ArgumentGraph.node g 1) = "Z.P1"
       ∧ GraphNode.full_text (ArgumentGraph.node g 0) = "first text"
       ∧ GraphNode.full_text (ArgumentGraph.node g 1) = "second text"
       ∧ ArgumentGraph.get_node_for_label g "Z.P1" = Some 1%nat.
Proof.
  eexists. split; [apply from_records_resolved|]. vm_compute. repeat split.
Qed.

(** ** Symmetry of the link sets *)

Section SymmetryFacts.
Variable hash : Text → Z.

(** In a graph without two equal nodes, [P in N.f] holds exactly when
    resolution linked [N] to [P] in [f]. *)
Lemma is_in_edge (g : ArgumentGraph.t) f N P :
  built hash g → distinct_nodes hash g →
  N ∈ ArgumentGraph.all_nodes g → P ∈ ArgumentGraph.all_nodes g →
  ArgumentGraph.is_in hash g P f N = true ↔ edge g f N P.
Proof.
  intros Hb Hd HN HP. rewrite (built_mem _ _ Hb) by done. split.
  - intros (y & Hy & Hk).
    destruct (edge_in hash g f N y Hb Hy) as [_ Hyin].
    assert (y = P) as ->; [|done].
    apply Hd; [done..|]. by apply Z.eqb_eq.
  - intros He. by exists P.
Qed.

(** In such a graph [P in N.f] also means that the object [P] itself is the
    one stored in the set. *)
Lemma is_in_stored (g : ArgumentGraph.t) f N P :
  built hash g → distinct_nodes hash g →
  N ∈ ArgumentGraph.all_nodes g → P ∈ ArgumentGraph.all_nodes g →
  ArgumentGraph.is_in hash g P f N = true ↔
  P ∈ GraphNode.links f (ArgumentGraph.node g N).
Proof.
  intros Hb Hd HN HP. split.
  - intros Hin. apply mem_spec in Hin as (y & Hy & Hk).
    assert (y = P) as ->; [|done].
    pose proof (built_stored _ _ Hb _ _ _ Hy) as He.
    destruct (edge_in hash g f N y Hb He) as [_ Hyin].
    apply Hd; [done..|]. by apply Z.eqb_eq.
  - apply mem_elem_of.
Qed.
End SymmetryFacts.

Lemma distinct_nodesb_spec (hash : Text → Z) (g : ArgumentGraph.t) :
  distinct_nodesb hash g = true → distinct_nodes hash g.
Proof.
  unfold distinct_nodesb, distinct_nodes. rewrite forallb_forall.
  intros Hall a b Ha Hb Heq.
  apply list_elem_of_In in Ha, Hb.
  specialize (Hall a Ha). rewrite forallb_forall in Hall.
  specialize (Hall b Hb). rewrite Heq in Hall. simpl in Hall.
  by apply Nat.eqb_eq.
Qed.

(** C1 (as the code has it).  On every built graph in which no two distinct
    nodes compare equal, for all nodes [N] and [P] of the graph:
    [P in N.parent_nodes] iff [N in P.child_nodes], [P in N.group_nodes] iff
    [N in P.group_member_nodes], and [P in N.similar_nodes] iff
    [N in P.similar_nodes].  In such a graph a node is [in] a link set
    exactly when the node object itself is stored there, so the three
    equivalences hold of the stored objects too. *)
Theorem link_symmetry (hash : Text → Z)
    (intro trans zargs grps nzargs faq : list GraphNode.Init.t)
    (g : ArgumentGraph.t) (N P : ref) :
  ArgumentGraph.from_records hash intro trans zargs grps nzargs faq = Some g →
  distinct_nodes hash g →
  N ∈ ArgumentGraph.all_nodes g → P ∈ ArgumentGraph.all_nodes g →
  ((ArgumentGraph.is_in hash g P GraphNode.Parent N = true ↔
    ArgumentGraph.is_in hash g N GraphNode.Child P = true)
   ∧ (ArgumentGraph.is_in hash g P GraphNode.Group N = true ↔
      ArgumentGraph.is_in hash g N GraphNode.GroupMember P = true)
   ∧ (ArgumentGraph.is_in hash g P GraphNode.Similar N = true ↔
      ArgumentGraph.is_in hash g N GraphNode.Similar P = true))
  ∧ ((P ∈ GraphNode.parent_nodes (ArgumentGraph.node g N) ↔
      N ∈ GraphNode.child_nodes (ArgumentGraph.node g P))
     ∧ (P ∈ GraphNode.group_nodes (ArgumentGraph.node g N) ↔
        N ∈ GraphNode.group_member_nodes (ArgumentGraph.node g P))
     ∧ (P ∈ GraphNode.similar_nodes (ArgumentGraph.node g N) ↔
        N ∈ GraphNode.similar_nodes (ArgumentGraph.node g P))).
Proof.
  intros Hg Hd HN HP.
  destruct (from_records_built hash intro trans zargs grps nzargs faq)
    as (g' & Hg' & Hb & _).
  assert (g' = g) as -> by congruence.
  assert ((ArgumentGraph.is_in hash g P GraphNode.Parent N = true ↔
           ArgumentGraph.is_in hash g N GraphNode.Child P = true)
          ∧ (ArgumentGraph.is_in hash g P GraphNode.Group N = true ↔
             ArgumentGraph.is_in hash g N GraphNode.GroupMember P = true)
          ∧ (ArgumentGraph.is_in hash g P GraphNode.Similar N = true ↔
             ArgumentGraph.is_in hash g N GraphNode.Similar P = true)) as Hin.
  { rewrite !(is_in_edge hash g) by done.
    split; [|split].
    - exact (edge_inverse g GraphNode.Parent N P).
    - exact (edge_inverse g GraphNode.Group N P).
    - exact (edge_inverse g GraphNode.Similar N P). }
  split; [exact Hin|].
  rewrite !(is_in_stored hash g) in Hin by done. exact Hin.
Qed.

Lemma link_asymmetry_any (hash : Text → Z) :
  ∃ g, ArgumentGraph.from_records hash [] [] duplicate_link_rows [] [] [] = Some g
       ∧ ArgumentGraph.all_nodes g = [0; 1; 2; 3]%nat
       ∧ GraphNode.parent_nodes (ArgumentGraph.node g 2) = [1%nat]
       ∧ GraphNode.parent_nodes (ArgumentGraph.node g 3) = [1%nat]
       ∧ GraphNode.child_nodes (ArgumentGraph.node g 0) = []
       ∧ GraphNode.child_nodes (ArgumentGraph.node g 1) = [2%nat]
       ∧ ArgumentGraph.is_in hash g 0 GraphNode.Parent 2 = true
       ∧ ArgumentGraph.is_in hash g 2 GraphNode.Child 0 = false.
Proof.
  eexists. split; [apply from_records_resolved|].
  eval_resolved. repeat split.
Qed.

(** C1, as stated, fails when a label is carried by two nodes.  Objects 0
    and 1 are labelled [Z.P1]; objects 2 and 3 are labelled [Z.P1-1] and name
    [Z.P1] as parent.  Object 0 is [in] the [parent_nodes] of object 2,
    because it is equal to object 1, which is stored there; object 2 is not
    [in] the [child_nodes] of object 0, which is empty.  Read on the stored
    objects the claim fails as well: object 1 is stored in the [parent_nodes]
    of object 3, and the [child_nodes] of object 1 hold object 2 only. *)
Lemma link_asymmetry :
  ∃ g, ArgumentGraph.from_records sample_hash [] [] duplicate_link_rows [] [] []
         = Some g
       ∧ ArgumentGraph.all_nodes g = [0; 1; 2; 3]%nat
       ∧ GraphNode.parent_nodes (ArgumentGraph.node g 2) = [1%nat]
       ∧ GraphNode.parent_nodes (ArgumentGraph.node g 3) = [1%nat]
       ∧ GraphNode.child_nodes (ArgumentGraph.node g 0) = []
       ∧ GraphNode.child_nodes (ArgumentGraph.node g 1) = [2%nat]
       ∧ ArgumentGraph.is_in sample_hash g 0 GraphNode.Parent 2 = true
       ∧ ArgumentGraph.is_in sample_hash g 2 GraphNode.Child 0 = false.
Proof. apply link_asymmetry_any. Qed.

(** The links of the graph of [linked_zargs] and [linked_groups]. *)
Lemma linked_example :
  let g := resolved sample_hash [] [] linked_zargs linked_groups [] [] in
  GraphNode.parent_nodes (ArgumentGraph.node g 1) = [0%nat]
  ∧ GraphNode.child_nodes (ArgumentGraph.node g 0) = [1%nat]
  ∧ GraphNode.group_nodes (ArgumentGraph.node g 1) = [2%nat]
  ∧ GraphNode.group_member_nodes (ArgumentGraph.node g 2) = [0; 1]%nat
  ∧ GraphNode.similar_nodes (ArgumentGraph.node g 1) = [0%nat]
  ∧ GraphNode.similar_nodes (ArgumentGraph.node g 0) = [1%nat].
Proof. vm_compute. repeat split. Qed.

Lemma link_symmetry_witness :
  let g := resolved sample_hash [] [] linked_zargs linked_groups [] [] in
  ((ArgumentGraph.is_in sample_hash g 0 GraphNode.Parent 1 = true ↔
    ArgumentGraph.is_in sample_hash g 1 GraphNode.Child 0 = true)
   ∧ (ArgumentGraph.is_in sample_hash g 0 GraphNode.Group 1 = true ↔
      ArgumentGraph.is_in sample_hash g 1 GraphNode.GroupMember 0 = true)
   ∧ (ArgumentGraph.is_in sample_hash g 0 GraphNode.Similar 1 = true ↔
      ArgumentGraph.is_in sample_hash g 1 GraphNode.Similar 0 = true))
  ∧ ((0%nat ∈ GraphNode.parent_nodes (ArgumentGraph.node g 1) ↔
      1%nat ∈ GraphNode.child_nodes (ArgumentGraph.node g 0))
     ∧ (0%nat ∈ GraphNode.group_nodes (ArgumentGraph.node g 1) ↔
        1%nat ∈ GraphNode.group_member_nodes (ArgumentGraph.node g 0))
     ∧ (0%nat ∈ GraphNode.similar_nodes (ArgumentGraph.node g 1) ↔
        1%nat ∈ GraphNode.similar_nodes (ArgumentGraph.node g 0))).
Proof.
  intros g.
  assert (ArgumentGraph.from_records sample_hash [] [] linked_zargs linked_groups [] []
          = Some g) as Hg by apply from_records_resolved.
  assert (distinct_nodes sample_hash g) as Hd
    by (apply distinct_nodesb_spec; vm_compute; reflexivity).
  assert (ArgumentGraph.all_nodes g = [0; 1; 2]%nat) as Hall by (vm_compute; reflexivity).
  apply (link_symmetry sample_hash [] [] linked_zargs linked_groups [] [] g 1 0 Hg Hd);
    rewrite Hall.
  - apply list_elem_of_further, list_elem_of_here.
  - apply list_elem_of_here.
Defined.

(** ** FAQ pairs *)

Lemma faq_node_pairs_foldl (g : ArgumentGraph.t) (l : list ref) (acc : list (ref * ref)) :
  foldl
    (λ q_a_tuples answer_node,
       match GraphNode.parent_nodes (ArgumentGraph.node g answer_node) with
       | [] => q_a_tuples
       | question_node :: _ => q_a_tuples ++ [(question_node, answer_node)]
       end)
    acc l = acc ++ omap (faq_pair g) l.
Proof.
  revert acc. induction l as [|a l IH]; intros acc.
  - by rewrite app_nil_r.
  - simpl. rewrite IH. unfold faq_pair.
    destruct (GraphNode.parent_nodes (ArgumentGraph.node g a)); simpl; [done|].
    by rewrite <-app_assoc.
Qed.

Lemma faq_node_pairs_omap (g : ArgumentGraph.t) :
  ArgumentGraph.faq_node_pairs g = omap (faq_pair g) (ArgumentGraph.faq_answer_nodes g).
Proof. apply faq_node_pairs_foldl. Qed.

Lemma elem_of_faq_node_pairs (g : ArgumentGraph.t) q a :
  (q, a) ∈ ArgumentGraph.faq_node_pairs g ↔
  a ∈ ArgumentGraph.faq_nodes g
  ∧ GraphNode.parents (ArgumentGraph.node g a) ≠ []
  ∧ head (GraphNode.parent_nodes (ArgumentGraph.node g a)) = Some q.
Proof.
  rewrite faq_node_pairs_omap, list_elem_of_omap.
  unfold ArgumentGraph.faq_answer_nodes, faq_pair.
  setoid_rewrite list_elem_of_filter.
  unfold GraphNode.has_parent_labels. setoid_rewrite bool_decide_eq_true.
  split.
  - intros (x & (Hp & Hx) & Hf).
    destruct (head _) as [q'|] eqn:Hh; simplify_eq/=.
    repeat split; [done| |done]. intros He. rewrite He in Hp. simpl in Hp. lia.
  - intros (Ha & Hp & Hh). exists a. rewrite Hh. repeat split; [|done].
    destruct (GraphNode.parents _); [done|simpl; lia].
Qed.

Lemma filter_omap_answer (G : ref → option (ref * ref)) (l : list ref) Q R :
  NoDup l → R ∈ l → G R = Some (Q, R) →
  (∀ a qa, G a = Some qa → qa.2 = a) →
  filter (λ qa, qa.2 = R) (omap G l) = [(Q, R)].
Proof.
  intros Hnd HR HG Hsnd.
  assert (∀ l', R ∉ l' → filter (λ qa : ref * ref, qa.2 = R) (omap G l') = []) as Hnone.
  { induction l' as [|a l' IH]; intros Hn; [done|]. simpl.
    apply not_elem_of_cons in Hn as [Hne Hn].
    destruct (G a) as [qa|] eqn:Ha; [|by apply IH].
    rewrite filter_cons_False; [by apply IH|].
    intros He. apply Hne. by rewrite <-(Hsnd a qa Ha). }
  induction Hnd as [|a l Ha Hnd IH]; [by apply elem_of_nil in HR|].
  apply elem_of_cons in HR as [<-|HR]; simpl.
  - rewrite HG. rewrite filter_cons_True by done. by rewrite Hnone.
  - assert (a ≠ R) as Hne by (intros ->; done).
    destruct (G a) as [qa|] eqn:HGa; [|by apply IH].
    rewrite filter_cons_False; [by apply IH|].
    intros He. apply Hne. by rewrite <-(Hsnd a qa HGa).
Qed.

Section FaqFacts.
Variable hash : Text → Z.

(** In a graph without two equal nodes, the label of a node resolves to
    that node. *)
Lemma distinct_resolves (g : ArgumentGraph.t) (r : ref) :
  built hash g → distinct_nodes hash g → r ∈ ArgumentGraph.all_nodes g →
  ArgumentGraph.get_node_for_label g (GraphNode.label (ArgumentGraph.node g r)) = Some r.
Proof.
  intros Hb Hd Hr.
  destruct (ArgumentGraph.get_node_for_label g
              (GraphNode.label (ArgumentGraph.node g r))) as [r'|] eqn:Hget.
  - destruct (get_node_for_label_Some hash g _ r' Hb Hget) as [Hr' Hl].
    f_equal. apply Hd; [done..|].
    unfold GraphNode.__eq__, GraphNode.__hash__. rewrite Hl. apply Z.eqb_refl.
  - pose proof (proj1 (get_node_for_label_None hash g _ Hb) Hget r Hr) as Hne.
    by destruct Hne.
Qed.

(** An answer whose only parent label resolves to [Q] has [Q] as its first
    parent node. *)
Lemma head_parent_nodes (g : ArgumentGraph.t) (Q R : ref) (l : Text) :
  built hash g → R ∈ ArgumentGraph.all_nodes g →
  GraphNode.parents (ArgumentGraph.node g R) = [l] →
  ArgumentGraph.get_node_for_label g l = Some Q →
  head (GraphNode.parent_nodes (ArgumentGraph.node g R)) = Some Q.
Proof.
  intros Hb HR Hp Hget.
  assert (edge g GraphNode.Parent R Q) as He.
  { split; [done|]. exists l. rewrite Hp. split; [apply list_elem_of_here|done]. }
  assert (ArgumentGraph.is_in hash g Q GraphNode.Parent R = true) as Hin.
  { apply (built_mem _ _ Hb); [done|]. by exists Q. }
  apply mem_spec in Hin as (y & Hy & _). simpl in Hy.
  destruct (GraphNode.parent_nodes (ArgumentGraph.node g R)) as [|y0 ys] eqn:Hpn;
    [by apply elem_of_nil in Hy|].
  assert (y0 ∈ GraphNode.links GraphNode.Parent (ArgumentGraph.node g R)) as Hy0
    by (simpl; rewrite Hpn; apply list_elem_of_here).
  apply (built_stored _ _ Hb) in Hy0 as (_ & l' & Hl' & Hget').
  rewrite Hp in Hl'. apply list_elem_of_singleton in Hl' as ->.
  simpl. congruence.
Qed.
End FaqFacts.

(** C5 (as the code has it).  On every built graph in which no two distinct
    nodes compare equal: for an FAQ node [Q] without parent labels and an FAQ
    node [R] whose parents are exactly [{Q.label}], [faq_node_pairs] contains
    [(Q, R)], in this order, and no other pair with [R] as answer; and an FAQ
    node without parent labels is the answer of no pair. *)
Theorem faq_pairing (hash : Text → Z)
    (intro trans zargs grps nzargs faq : list GraphNode.Init.t)
    (g : ArgumentGraph.t) (Q R : ref) :
  ArgumentGraph.from_records hash intro trans zargs grps nzargs faq = Some g →
  distinct_nodes hash g →
  Q ∈ ArgumentGraph.faq_nodes g → R ∈ ArgumentGraph.faq_nodes g →
  GraphNode.parents (ArgumentGraph.node g Q) = [] →
  GraphNode.parents (ArgumentGraph.node g R) =
    [GraphNode.label (ArgumentGraph.node g Q)] →
  (Q, R) ∈ ArgumentGraph.faq_node_pairs g
  ∧ filter (λ qa, qa.2 = R) (ArgumentGraph.faq_node_pairs g) = [(Q, R)]
  ∧ ∀ E q, E ∈ ArgumentGraph.faq_nodes g →
           GraphNode.parents (ArgumentGraph.node g E) = [] →
           (q, E) ∉ ArgumentGraph.faq_node_pairs g.
Proof.
  intros Hg Hd HQ HR HpQ HpR.
  destruct (from_records_built hash intro trans zargs grps nzargs faq)
    as (g' & Hg' & Hb & _ & _ & _ & _ & _ & _ & Hfaq).
  assert (g' = g) as -> by congruence.
  assert (∀ r, r ∈ ArgumentGraph.faq_nodes g → r ∈ ArgumentGraph.all_nodes g) as Hall.
  { intros r Hr. unfold ArgumentGraph.all_nodes. rewrite !elem_of_app. tauto. }
  assert (head (GraphNode.parent_nodes (ArgumentGraph.node g R)) = Some Q) as Hhead.
  { apply (head_parent_nodes hash g Q R _ Hb (Hall R HR) HpR).
    apply (distinct_resolves hash g Q Hb Hd (Hall Q HQ)). }
  assert ((Q, R) ∈ ArgumentGraph.faq_node_pairs g) as Hin.
  { apply elem_of_faq_node_pairs. by rewrite HpR. }
  split; [done|]. split.
  - rewrite faq_node_pairs_omap. apply filter_omap_answer.
    + unfold ArgumentGraph.faq_answer_nodes. apply NoDup_filter.
      rewrite Hfaq. apply NoDup_seq.
    + unfold ArgumentGraph.faq_answer_nodes. apply list_elem_of_filter.
      split; [|done]. unfold GraphNode.has_parent_labels. by rewrite HpR.
    + unfold faq_pair. by rewrite Hhead.
    + intros a qa. unfold faq_pair.
      destruct (head (GraphNode.parent_nodes (ArgumentGraph.node g a)));
        simpl; intros Hqa; [|done]. by injection Hqa as <-.
  - intros E q HE HpE Hpair.
    apply elem_of_faq_node_pairs in Hpair as (_ & Hne & _). done.
Qed.

Lemma faq_example (hash : Text → Z) :
  (∃ g, ArgumentGraph.from_records hash [] [] [] [] [] faq_rows = Some g
        ∧ ArgumentGraph.faq_node_pairs g = [(0, 1)]%nat
        ∧ ArgumentGraph.get_faq_list g = [("Question", "Answer")])
  ∧ (∃ g, ArgumentGraph.from_records hash [] [] [] [] [] faq_orphan_rows = Some g
          ∧ ArgumentGraph.faq_node_pairs g = []).
Proof.
  split; (eexists; split; [apply from_records_resolved|]); vm_compute; repeat split.
Qed.

Lemma faq_duplicate_any (hash : Text → Z) :
  ∃ g, ArgumentGraph.from_records hash [] [] [] [] [] faq_duplicate_rows = Some g
       ∧ ArgumentGraph.faq_nodes g = [0; 1; 2; 3]%nat
       ∧ GraphNode.parents (ArgumentGraph.node g 0) = []
       ∧ GraphNode.parents (ArgumentGraph.node g 1) =
           [GraphNode.label (ArgumentGraph.node g 0)]
       ∧ ArgumentGraph.faq_node_pairs g = [(2, 1)]%nat
       ∧ ArgumentGraph.get_faq_list g = [("Second question", "Answer")]
       ∧ GraphNode.parents (ArgumentGraph.node g 3) = []
       ∧ GraphNode.label (ArgumentGraph.node g 3) =
           GraphNode.label (ArgumentGraph.node g 1).
Proof.
  eexists. split; [apply from_records_resolved|]. vm_compute. repeat split.
Qed.

(** C5, as stated, fails when a label is carried by two nodes.  Object 0 is
    an FAQ node [FAQ.Q1] without parents and the parents of object 1 are
    exactly its label, but the only pair is [(2, 1)]: the question is the
    second node [FAQ.Q1], with another text.  And object 3 has no parents,
    while the answer of that pair, object 1, carries the same label and so
    compares equal to it. *)
Lemma faq_duplicate :
  ∃ g, ArgumentGraph.from_records sample_hash [] [] [] [] [] faq_duplicate_rows = Some g
       ∧ ArgumentGraph.faq_nodes g = [0; 1; 2; 3]%nat
       ∧ GraphNode.parents (ArgumentGraph.node g 0) = []
       ∧ GraphNode.parents (ArgumentGraph.node g 1) =
           [GraphNode.label (ArgumentGraph.node g 0)]
       ∧ ArgumentGraph.faq_node_pairs g = [(2, 1)]%nat
       ∧ ArgumentGraph.get_faq_list g = [("Second question", "Answer")]
       ∧ GraphNode.parents (ArgumentGraph.node g 3) = []
       ∧ GraphNode.label (ArgumentGraph.node g 3) =
           GraphNode.label (ArgumentGraph.node g 1).
Proof. apply faq_duplicate_any. Qed.

Lemma faq_pairing_witness :
  let g := resolved sample_hash [] [] [] [] [] faq_rows in
  (0, 1)%nat ∈ ArgumentGraph.faq_node_pairs g
  ∧ filter (λ qa, qa.2 = 1%nat) (ArgumentGraph.faq_node_pairs g) = [(0, 1)%nat]
  ∧ ∀ E q, E ∈ ArgumentGraph.faq_nodes g →
           GraphNode.parents (ArgumentGraph.node g E) = [] →
           (q, E) ∉ ArgumentGraph.faq_node_pairs g.
Proof.
  intros g.
  apply (faq_pairing sample_hash [] [] [] [] [] faq_rows g 0 1).
  - apply from_records_resolved.
  - apply distinct_nodesb_spec. vm_compute. reflexivity.
  - replace (ArgumentGraph.faq_nodes g) with (seq 0 2) by (vm_compute; reflexivity).
    apply elem_of_seq. lia.
  - replace (ArgumentGraph.faq_nodes g) with (seq 0 2) by (vm_compute; reflexivity).
    apply elem_of_seq. lia.
  - vm_compute. reflexivity.
  - vm_compute. reflexivity.
Defined.

(** ** Self-references *)

Lemma init_no_self (a : GraphNode.Init.t) :
  (GraphNode.label (GraphNode.__init__ a) ∉ GraphNode.parents (GraphNode.__init__ a))
  ∧ (GraphNode.label (GraphNode.__init__ a) ∉ GraphNode.groups (GraphNode.__init__ a)).
Proof.
  unfold GraphNode.__init__, GraphNode.__post_init__, GraphNode._match_constraints.
  simpl. split; case_bool_decide as Hin; try done;
    unfold Text.discard; rewrite list_elem_of_filter; tauto.
Qed.

Section SelfFacts.
Variable hash : Text → Z.

Lemma built_no_self (g : ArgumentGraph.t) (r : ref) :
  built hash g → r ∈ ArgumentGraph.all_nodes g →
  (GraphNode.label (ArgumentGraph.node g r) ∉ GraphNode.parents (ArgumentGraph.node g r))
  ∧ (GraphNode.label (ArgumentGraph.node g r) ∉ GraphNode.groups (ArgumentGraph.node g r)).
Proof.
  intros Hb Hr. destruct (built_constructed _ _ Hb r Hr) as [a Ha].
  pose proof (init_no_self a) as [Hp Hg].
  pose proof (f_equal GraphNode.label Ha) as Hl.
  pose proof (f_equal GraphNode.parents Ha) as Hps.
  pose proof (f_equal GraphNode.groups Ha) as Hgs.
  simpl in Hl, Hps, Hgs. by rewrite Hl, Hps, Hgs.
Qed.

(** The self-references that [_match_constraints] removes leave no trace:
    the node object itself is never stored in its own [parent_nodes],
    [child_nodes], [group_nodes] or [group_member_nodes]. *)
Lemma no_self_link (g : ArgumentGraph.t) (f : GraphNode.link) (r : ref) :
  built hash g → f ≠ GraphNode.Similar →
  r ∉ GraphNode.links f (ArgumentGraph.node g r).
Proof.
  intros Hb Hf Hin. apply (built_stored _ _ Hb) in Hin.
  assert (∀ labels, declares g labels r r →
            GraphNode.label (ArgumentGraph.node g r) ∈ labels (ArgumentGraph.node g r))
    as Hd.
  { intros labels (_ & l & Hl & Hget).
    by destruct (get_node_for_label_Some hash g l r Hb Hget) as [_ ->]. }
  assert (r ∈ ArgumentGraph.all_nodes g) as Hr
    by (by destruct (edge_in hash g f r r Hb Hin)).
  destruct (built_no_self g r Hb Hr) as [Hp Hg].
  destruct f; simpl in Hin; try done; apply Hd in Hin; done.
Qed.
End SelfFacts.

(** C4 (what the code does).  A node that names its own label in
    [similars] is a member of its own [similar_nodes]: [_match_constraints]
    removes the node's label from [parents] and [groups] only. *)
Theorem self_similar (hash : Text → Z)
    (intro trans zargs grps nzargs faq : list GraphNode.Init.t)
    (g : ArgumentGraph.t) (r : ref) :
  ArgumentGraph.from_records hash intro trans zargs grps nzargs faq = Some g →
  r ∈ ArgumentGraph.all_nodes g →
  GraphNode.label (ArgumentGraph.node g r) ∈ GraphNode.similars (ArgumentGraph.node g r) →
  ArgumentGraph.is_in hash g r GraphNode.Similar r = true.
Proof.
  intros Hg Hr Hs.
  destruct (from_records_built hash intro trans zargs grps nzargs faq)
    as (g' & Hg' & Hb & _).
  assert (g' = g) as -> by congruence.
  destruct (ArgumentGraph.get_node_for_label g
              (GraphNode.label (ArgumentGraph.node g r))) as [y|] eqn:Hget.
  - destruct (get_node_for_label_Some hash g _ y Hb Hget) as [Hy Hl].
    apply (built_mem _ _ Hb); [done|]. exists y. split.
    + left. split; [done|]. eauto.
    + unfold GraphNode.hash_at, GraphNode.__hash__. f_equal. exact Hl.
  - pose proof (proj1 (get_node_for_label_None hash g _ Hb) Hget r Hr) as Hne.
    by destruct Hne.
Qed.

Lemma self_similar_any (hash : Text → Z) :
  ∃ g, ArgumentGraph.from_records hash [] [] selfish_rows [] [] [] = Some g
       ∧ GraphNode.parents (ArgumentGraph.node g 0) = []
       ∧ GraphNode.groups (ArgumentGraph.node g 0) = []
       ∧ GraphNode.similars (ArgumentGraph.node g 0) = ["Z.P1"]
       ∧ GraphNode.parent_nodes (ArgumentGraph.node g 0) = []
       ∧ GraphNode.group_nodes (ArgumentGraph.node g 0) = []
       ∧ GraphNode.similar_nodes (ArgumentGraph.node g 0) = [0%nat].
Proof.
  eexists. split; [apply from_records_resolved|].
  eval_resolved. repeat split.
Qed.

Lemma self_similar_witness :
  let g := resolved sample_hash [] [] selfish_rows [] [] [] in
  ArgumentGraph.is_in sample_hash g 0 GraphNode.Similar 0 = true.
Proof.
  intros g. apply (self_similar sample_hash [] [] selfish_rows [] [] [] g 0).
  - apply from_records_resolved.
  - replace (ArgumentGraph.all_nodes g) with (seq 0 1) by (vm_compute; reflexivity).
    apply elem_of_seq. lia.
  - vm_compute. apply list_elem_of_here.
Defined.

(** ** Transitive views on a cycle *)

Section ClosureFacts.
Variable hash : Text → Z.

Lemma closure_S f fuel st self :
  GraphNode.closure hash f (S fuel) st self =
  foldl (closure_step hash st (GraphNode.closure hash f fuel st))
        (Some []) (GraphNode.links f (st !!! self)).
Proof. done. Qed.

Lemma closure_step_None st sub_view xs :
  foldl (closure_step hash st sub_view) None xs = None.
Proof. by induction xs. Qed.

(** When the first node of the link set of [A] is [B] and the first node of
    the link set of [B] is [A], the view of [A] calls the view of [B], which
    calls the view of [A], and so on: whatever number of nested calls is
    allowed, it is used up. *)
Lemma closure_cycle f st A B restA restB :
  GraphNode.links f (st !!! A) = B :: restA →
  GraphNode.links f (st !!! B) = A :: restB →
  ∀ fuel, GraphNode.closure hash f fuel st A = None
          ∧ GraphNode.closure hash f fuel st B = None.
Proof.
  intros HA HB. induction fuel as [|fuel [IHA IHB]]; [done|].
  rewrite !closure_S, HA, HB. simpl. rewrite IHA, IHB.
  by rewrite !closure_step_None.
Qed.
End ClosureFacts.

(** On any cycle of two nodes, in any built graph without two equal nodes,
    the views return no set. *)
Section CycleFacts.
Variable hash : Text → Z.
Variable g : ArgumentGraph.t.
Variable f : GraphNode.link.
Hypothesis g_built : built hash g.
Hypothesis g_distinct : distinct_nodes hash g.

Lemma links_in_graph (a y : ref) :
  y ∈ GraphNode.links f (ArgumentGraph.store g !!! a) → y ∈ ArgumentGraph.all_nodes g.
Proof.
  intros Hy. apply (built_stored _ _ g_built) in Hy.
  by destruct (edge_in hash g f a y g_built Hy).
Qed.

Lemma elem_of_update (key : ref → Z) (s xs : list ref) (y : ref) :
  y ∈ NodeSet.update key s xs → y ∈ s ∨ y ∈ xs.
Proof.
  unfold NodeSet.update. revert s. induction xs as [|x xs IH]; intros s Hy; simpl in Hy.
  - tauto.
  - apply IH in Hy as [Hy|Hy]; [|right; by apply list_elem_of_further].
    apply elem_of_add in Hy as [Hy| ->]; [tauto|]. right. apply list_elem_of_here.
Qed.

(** The nodes of an accumulated result are nodes of the graph whose own
    view was computed within [fuel] nested calls. *)
Definition computed_within (fuel : nat) (acc : option (list ref)) : Prop :=
  ∀ res, acc = Some res →
    ∀ y, y ∈ res →
      y ∈ ArgumentGraph.all_nodes g ∧
      ∃ fuel', (fuel' ≤ fuel)%nat ∧
               is_Some (GraphNode.closure hash f fuel' (ArgumentGraph.store g) y).

Lemma closure_step_computed (fuel : nat) acc p :
  (∀ x res, GraphNode.closure hash f fuel (ArgumentGraph.store g) x = Some res →
            computed_within fuel (Some res)) →
  p ∈ ArgumentGraph.all_nodes g →
  computed_within fuel acc →
  computed_within fuel
    (closure_step hash (ArgumentGraph.store g)
       (GraphNode.closure hash f fuel (ArgumentGraph.store g)) acc p).
Proof.
  intros Hsub Hp Hacc res Hres y Hy. unfold closure_step in Hres.
  destruct acc as [res0|]; [|done].
  destruct (NodeSet.mem _ p res0).
  { injection Hres as <-. by apply (Hacc res0 eq_refl). }
  destruct (GraphNode.closure hash f fuel (ArgumentGraph.store g) p)
    as [sub|] eqn:Hp'; [|done].
  injection Hres as <-.
  apply elem_of_update in Hy as [Hy|Hy].
  - apply elem_of_add in Hy as [Hy| ->]; [by apply (Hacc res0 eq_refl)|].
    split; [done|]. exists fuel. split; [lia|]. by rewrite Hp'.
  - by apply (Hsub p sub Hp' sub eq_refl).
Qed.

Lemma closure_computed (fuel : nat) x res :
  GraphNode.closure hash f fuel (ArgumentGraph.store g) x = Some res →
  computed_within fuel (Some res).
Proof.
  revert x res. induction fuel as [|fuel IH]; intros x res Hx; [done|].
  rewrite closure_S in Hx.
  assert (∀ l acc,
            (∀ p, p ∈ l → p ∈ ArgumentGraph.all_nodes g) →
            computed_within fuel acc →
            computed_within fuel
              (foldl (closure_step hash (ArgumentGraph.store g)
                        (GraphNode.closure hash f fuel (ArgumentGraph.store g)))
                     acc l)) as Hfold.
  { induction l as [|p l IHl]; intros acc Hl Hacc; [done|]. simpl.
    apply IHl.
    - intros q Hq. apply Hl. by apply list_elem_of_further.
    - apply closure_step_computed; [exact IH| |done].
      apply Hl, list_elem_of_here. }
  intros res' Hres' y Hy. injection Hres' as <-.
  destruct (Hfold (GraphNode.links f (ArgumentGraph.store g !!! x)) (Some []))
    with (res := res) (y := y) as (Hin & fuel' & Hle & Hsome).
  - intros p. apply links_in_graph.
  - intros res0 [= <-] z Hz. by apply elem_of_nil in Hz.
  - done.
  - done.
  - split; [done|]. exists fuel'. split; [lia|done].
Qed.

Lemma closure_two_cycle (A B : ref) :
  B ∈ GraphNode.links f (ArgumentGraph.node g A) →
  A ∈ GraphNode.links f (ArgumentGraph.node g B) →
  ∀ fuel, GraphNode.closure hash f fuel (ArgumentGraph.store g) A = None.
Proof.
  intros HB HA fuel.
  assert (∀ fuel' A B,
            (fuel' ≤ fuel)%nat →
            B ∈ GraphNode.links f (ArgumentGraph.node g A) →
            A ∈ GraphNode.links f (ArgumentGraph.node g B) →
            GraphNode.closure hash f fuel' (ArgumentGraph.store g) A = None) as Hall;
    [|by apply (Hall fuel A B)].
  clear A B HA HB.
  induction fuel as [|fuel IH]; intros fuel' A B Hle HB HA.
  { by replace fuel' with 0%nat by lia. }
  destruct (decide (fuel' ≤ fuel)%nat) as [Hle'|Hgt]; [by apply (IH fuel' A B)|].
  replace fuel' with (S fuel) by lia. rewrite closure_S.
  assert (∀ l acc,
            B ∈ l → (∀ p, p ∈ l → p ∈ ArgumentGraph.all_nodes g) →
            computed_within fuel acc →
            foldl (closure_step hash (ArgumentGraph.store g)
                     (GraphNode.closure hash f fuel (ArgumentGraph.store g)))
                  acc l = None) as Hfold.
  { induction l as [|p l IHl]; intros acc HBl Hl Hacc;
      [by apply elem_of_nil in HBl|].
    simpl. destruct (decide (p = B)) as [->|Hne].
    - assert (closure_step hash (ArgumentGraph.store g)
                (GraphNode.closure hash f fuel (ArgumentGraph.store g)) acc B = None)
        as ->; [|apply closure_step_None].
      unfold closure_step. destruct acc as [res|]; [|done].
      destruct (NodeSet.mem _ B res) eqn:Hmem.
      + apply mem_spec in Hmem as (y & Hy & Hk).
        destruct (Hacc res eq_refl y Hy) as (Hyin & fuel'' & Hle'' & Hsome).
        assert (y = B) as ->.
        { apply g_distinct; [done| |by apply Z.eqb_eq].
          apply Hl, list_elem_of_here. }
        rewrite (IH fuel'' B A Hle'' HA HB) in Hsome. by destruct Hsome.
      + by rewrite (IH fuel B A (Nat.le_refl _) HA HB).
    - apply IHl.
      + apply elem_of_cons in HBl as [?|?]; [congruence|done].
      + intros q Hq. apply Hl. by apply list_elem_of_further.
      + apply closure_step_computed; [apply closure_computed| |done].
        apply Hl, list_elem_of_here. }
  apply Hfold.
  - exact HB.
  - intros p. apply links_in_graph.
  - intros res [= <-] z Hz. by apply elem_of_nil in Hz.
Qed.
End CycleFacts.

(** In every built graph without two equal nodes, and for every pair of nodes
    that are each a parent of the other, [ancestor_nodes] returns no set,
    whatever depth of recursion is allowed. *)
Lemma ancestor_nodes_two_cycle (hash : Text → Z)
    (intro trans zargs grps nzargs faq : list GraphNode.Init.t)
    (g : ArgumentGraph.t) (A B : ref) :
  ArgumentGraph.from_records hash intro trans zargs grps nzargs faq = Some g →
  distinct_nodes hash g →
  B ∈ GraphNode.parent_nodes (ArgumentGraph.node g A) →
  A ∈ GraphNode.parent_nodes (ArgumentGraph.node g B) →
  ∀ fuel, GraphNode.ancestor_nodes hash fuel (ArgumentGraph.store g) A = None
          ∧ GraphNode.ancestor_nodes hash fuel (ArgumentGraph.store g) B = None.
Proof.
  intros Hg Hd HB HA fuel.
  destruct (from_records_built hash intro trans zargs grps nzargs faq)
    as (g' & Hg' & Hb & _).
  assert (g' = g) as -> by congruence.
  split.
  - exact (closure_two_cycle hash g GraphNode.Parent Hb Hd A B HB HA fuel).
  - exact (closure_two_cycle hash g GraphNode.Parent Hb Hd B A HA HB fuel).
Qed.

(** C2 (what the code does).  On the graph of two nodes [A] and [B] that
    name each other as parent, [ancestor_nodes] of either node returns no
    set: for every limit on the depth of recursion, the nested calls exceed
    it ([RecursionError]).  The set of visited nodes is local to each call,
    so the call on [A] does not know that [B] was reached from [A]. *)
Theorem ancestor_nodes_cycle (hash : Text → Z) (fuel : nat) :
  ∃ g, ArgumentGraph.from_records hash [] [] cycle_rows [] [] [] = Some g
       ∧ GraphNode.parent_nodes (ArgumentGraph.node g 0) = [1%nat]
       ∧ GraphNode.parent_nodes (ArgumentGraph.node g 1) = [0%nat]
       ∧ GraphNode.ancestor_nodes hash fuel (ArgumentGraph.store g) 0 = None
       ∧ GraphNode.ancestor_nodes hash fuel (ArgumentGraph.store g) 1 = None.
Proof.
  eexists. split; [apply from_records_resolved|].
  assert (GraphNode.parent_nodes
            (ArgumentGraph.node (resolved hash [] [] cycle_rows [] [] []) 0) = [1%nat]
          ∧ GraphNode.parent_nodes
              (ArgumentGraph.node (resolved hash [] [] cycle_rows [] [] []) 1) = [0%nat])
    as [H0 H1] by (eval_resolved; done).
  revert H0 H1. generalize (resolved hash [] [] cycle_rows [] [] []). intros g H0 H1.
  split; [exact H0|]. split; [exact H1|].
  exact (closure_cycle hash GraphNode.Parent (ArgumentGraph.store g) 0 1 [] [] H0 H1 fuel).
Qed.

(** Without a cycle the view is computed: the ancestors of the
    counter-counter-argument are its parent and its grandparent. *)
Lemma ancestor_nodes_chain :
  ∃ g, ArgumentGraph.from_records sample_hash [] [] chain_rows [] [] [] = Some g
       ∧ GraphNode.ancestor_nodes sample_hash 3 (ArgumentGraph.store g) 0 = Some []
       ∧ GraphNode.ancestor_nodes sample_hash 3 (ArgumentGraph.store g) 1 = Some [0%nat]
       ∧ GraphNode.ancestor_nodes sample_hash 3 (ArgumentGraph.store g) 2 = Some [1; 0]%nat
       ∧ GraphNode.descendant_nodes sample_hash 3 (ArgumentGraph.store g) 0 = Some [1; 2]%nat
       ∧ GraphNode.ancestor_nodes sample_hash 2 (ArgumentGraph.store g) 2 = None.
Proof.
  eexists. split; [apply from_records_resolved|]. vm_compute. repeat split.
Qed.

Lemma get_counter_args_same_witness :
  let g := resolved sample_hash [] [] single_rows [] [] [] in
  ArgumentGraph.get_counter_args g "UNKNOWN" = None
  ∧ ArgumentGraph.get_counter_args g "Z.P1" = None
  ∧ ArgumentGraph.get_counter_args g "UNKNOWN" = ArgumentGraph.get_counter_args g "Z.P1".
Proof.
  intros g. apply (get_counter_args_same g "UNKNOWN" "Z.P1" 0); vm_compute; reflexivity.
Defined.

Lemma get_counter_args_spec_witness :
  let g := resolved sample_hash [] [] linked_zargs linked_groups [] [] in
  ArgumentGraph.get_counter_args g "UNKNOWN" = None
  ∧ ArgumentGraph.get_counter_args g "Z.P1-1" = None
  ∧ ArgumentGraph.get_counter_args g "Z.P1" =
      Some (GraphNode.child_nodes (ArgumentGraph.node g 0)).
Proof.
  intros g.
  assert (ArgumentGraph.from_records sample_hash [] [] linked_zargs linked_groups [] []
          = Some g) as Hg by apply from_records_resolved.
  assert (ArgumentGraph.all_nodes g = [0; 1; 2]%nat) as Hall by (vm_compute; reflexivity).
  pose proof (get_counter_args_spec sample_hash [] [] linked_zargs linked_groups [] []
                g "UNKNOWN" Hg) as (Hunknown & _ & _).
  pose proof (get_counter_args_spec sample_hash [] [] linked_zargs linked_groups [] []
                g "Z.P1-1" Hg) as (_ & Hleaf & _).
  pose proof (get_counter_args_spec sample_hash [] [] linked_zargs linked_groups [] []
                g "Z.P1" Hg) as (_ & _ & Hparent).
  clear Hg. split; [|split].
  - apply Hunknown. intros r Hr. rewrite Hall in Hr.
    repeat (apply elem_of_cons in Hr as [->|Hr]);
      [vm_compute; intros Hne; discriminate Hne..|].
    apply elem_of_nil in Hr. destruct Hr.
  - apply (Hleaf 1%nat); vm_compute; reflexivity.
  - apply (Hparent 0%nat).
    + rewrite Hall. apply list_elem_of_here.
    + vm_compute. reflexivity.
    + vm_compute. intros Hne. discriminate Hne.
Defined.

(** * Further properties of the code *)

(** ** Strings *)

Lemma chars_app (s1 s2 : Text) : chars (s1 ++ s2)%string = chars s1 ++ chars s2.
Proof. induction s1 as [|c s1 IH]; simpl; [done|]. unfold chars in *. simpl. by rewrite IH. Qed.

Lemma chars_inj (s t : Text) : chars s = chars t → s = t.
Proof.
  intros He. rewrite <-(string_of_list_ascii_of_string s),
    <-(string_of_list_ascii_of_string t). unfold chars in He. by rewrite He.
Qed.

Lemma chars_rev_app (s1 s2 : Text) :
  chars (String.rev_app s1 s2) = reverse (chars s1) ++ chars s2.
Proof.
  revert s2. induction s1 as [|c s1 IH]; intros s2; simpl; [done|].
  rewrite IH. unfold chars. simpl. by rewrite reverse_cons, <-app_assoc.
Qed.

Lemma chars_rev (s : Text) : chars (String.rev s) = reverse (chars s).
Proof. unfold String.rev. by rewrite chars_rev_app, app_nil_r. Qed.

Lemma chars_lstrip (s : Text) : chars (Text.lstrip s) = lskip (chars s).
Proof.
  induction s as [|c s IH]; [done|]. unfold chars in *. simpl.
  by destruct (Text.is_space c).
Qed.

Lemma chars_rstrip (s : Text) : chars (Text.rstrip s) = rskip (chars s).
Proof. unfold Text.rstrip, rskip. by rewrite chars_rev, chars_lstrip, chars_rev. Qed.

Lemma chars_strip (s : Text) : chars (Text.strip s) = rskip (lskip (chars s)).
Proof. unfold Text.strip. by rewrite chars_rstrip, chars_lstrip. Qed.

Lemma lskip_head (l : list ascii) (c : ascii) :
  head (lskip l) = Some c → Text.is_space c = false.
Proof.
  induction l as [|c' l IH]; simpl; [done|].
  destruct (Text.is_space c') eqn:Hc; [done|]. simpl. by intros [= <-].
Qed.

Lemma lskip_id (l : list ascii) :
  (∀ c, head l = Some c → Text.is_space c = false) → lskip l = l.
Proof. destruct l as [|c l]; simpl; [done|]. intros Hc. by rewrite (Hc c). Qed.

Lemma lskip_split (l : list ascii) :
  ∃ ws, forallb Text.is_space ws = true ∧ l = ws ++ lskip l.
Proof.
  induction l as [|c l (ws & Hws & Hl)]; [by exists []|]. simpl.
  destruct (Text.is_space c) eqn:Hc.
  - exists (c :: ws). simpl. rewrite Hc, Hws. split; [done|]. by rewrite <-Hl.
  - by exists [].
Qed.

Lemma lskip_app_space (ws l : list ascii) :
  forallb Text.is_space ws = true → lskip (ws ++ l) = lskip l.
Proof.
  induction ws as [|c ws IH]; simpl; [done|].
  intros [Hc Hws]%andb_true_iff. by rewrite Hc, IH.
Qed.

Lemma forallb_reverse {A} (P : A → bool) (l : list A) :
  forallb P (reverse l) = forallb P l.
Proof.
  induction l as [|x l IH]; [done|].
  rewrite reverse_cons, forallb_app, IH. simpl. by rewrite andb_true_r, andb_comm.
Qed.

Lemma rskip_last (l : list ascii) (c : ascii) :
  last (rskip l) = Some c → Text.is_space c = false.
Proof. unfold rskip. rewrite last_reverse. apply lskip_head. Qed.

Lemma rskip_id (l : list ascii) :
  (∀ c, last l = Some c → Text.is_space c = false) → rskip l = l.
Proof.
  intros Hc. unfold rskip. rewrite lskip_id, reverse_involutive; [done|].
  intros c. rewrite head_reverse. apply Hc.
Qed.

Lemma rskip_split (l : list ascii) :
  ∃ ws, forallb Text.is_space ws = true ∧ l = rskip l ++ ws.
Proof.
  destruct (lskip_split (reverse l)) as (ws & Hws & Hl).
  exists (reverse ws). rewrite forallb_reverse. split; [done|].
  unfold rskip. by rewrite <-reverse_app, <-Hl, reverse_involutive.
Qed.

Lemma rskip_app_space (l ws : list ascii) :
  forallb Text.is_space ws = true → rskip (l ++ ws) = rskip l.
Proof.
  intros Hws. unfold rskip. rewrite reverse_app, lskip_app_space; [done|].
  by rewrite forallb_reverse.
Qed.

Lemma lskip_space (ws : list ascii) :
  forallb Text.is_space ws = true → lskip ws = [].
Proof. intros Hws. by rewrite <-(app_nil_r ws), lskip_app_space. Qed.

(** Stripping leaves a string that neither starts nor ends with
    whitespace, and leaves such a string as it is. *)
Lemma stripped_strip (l : list ascii) : stripped (rskip (lskip l)).
Proof.
  split; [|apply rskip_last]. intros c Hc.
  destruct (rskip_split (lskip l)) as (ws & Hws & Hl).
  apply (lskip_head l c). rewrite Hl, head_app, Hc. done.
Qed.

Lemma strip_stripped (l : list ascii) : stripped l → rskip (lskip l) = l.
Proof. intros [Hh Hl]. by rewrite lskip_id, rskip_id. Qed.

Lemma strip_idemp (s : Text) : Text.strip (Text.strip s) = Text.strip s.
Proof.
  apply chars_inj. rewrite (chars_strip (Text.strip s)), chars_strip.
  apply strip_stripped, stripped_strip.
Qed.

Lemma strip_pad_chars (pre l post : list ascii) :
  forallb Text.is_space pre = true → forallb Text.is_space post = true →
  rskip (lskip (pre ++ l ++ post)) = rskip (lskip l).
Proof.
  intros Hpre Hpost. rewrite lskip_app_space by done.
  destruct (lskip_split l) as (ws & Hws & Hl).
  destruct (lskip l) as [|c m] eqn:Hm.
  - rewrite app_nil_r in Hl. subst ws.
    rewrite lskip_space; [done|]. by rewrite forallb_app, Hws, Hpost.
  - assert (Text.is_space c = false) as Hc
      by (apply (lskip_head l c); by rewrite Hm).
    rewrite Hl, <-app_assoc, lskip_app_space by done. simpl. rewrite Hc.
    exact (rskip_app_space (c :: m) post Hpost).
Qed.

Lemma strip_pad (pre s post : Text) :
  whitespace pre → whitespace post →
  Text.strip (pre ++ s ++ post)%string = Text.strip s.
Proof.
  intros Hpre Hpost. apply chars_inj.
  rewrite !chars_strip, !chars_app. by apply strip_pad_chars.
Qed.

Lemma lower_char_idemp (c : ascii) :
  Text.lower_char (Text.lower_char c) = Text.lower_char c.
Proof. by destruct c as [[] [] [] [] [] [] [] []]. Qed.

Lemma is_space_lower_char (c : ascii) :
  Text.is_space (Text.lower_char c) = Text.is_space c.
Proof. by destruct c as [[] [] [] [] [] [] [] []]. Qed.

Lemma chars_lower (s : Text) : chars (Text.lower s) = Text.lower_char <$> chars s.
Proof. induction s as [|c s IH]; [done|]. unfold chars in *. simpl. by rewrite IH. Qed.

Lemma lower_idemp (s : Text) : Text.lower (Text.lower s) = Text.lower s.
Proof. induction s as [|c s IH]; simpl; [done|]. by rewrite lower_char_idemp, IH. Qed.

Lemma lower_app (s1 s2 : Text) :
  Text.lower (s1 ++ s2)%string = (Text.lower s1 ++ Text.lower s2)%string.
Proof. induction s1 as [|c s1 IH]; simpl; [done|]. by rewrite IH. Qed.

Lemma whitespace_lower (s : Text) : whitespace s → whitespace (Text.lower s).
Proof.
  unfold whitespace. rewrite chars_lower. generalize (chars s).
  induction l as [|c l IH]; [done|]. rewrite fmap_cons. simpl.
  rewrite is_space_lower_char. intros [Hc Hl]%andb_true_iff. by rewrite Hc, IH.
Qed.

(** ** [Stance.from_string] and [GraphNodeCategory.from_string] *)

Lemma string_to_stance_lookup (s : Text) :
  default Stance.OTHER (Stance.string_to_stance !! s) =
  if bool_decide (s = "pro") then Stance.PRO
  else if bool_decide (s = "con") then Stance.CON else Stance.OTHER.
Proof.
  unfold Stance.string_to_stance.
  case_bool_decide as H1; [subst; by rewrite lookup_insert_eq|].
  rewrite lookup_insert_ne by done.
  case_bool_decide as H2; [subst; by rewrite lookup_insert_eq|].
  by rewrite lookup_insert_ne, lookup_empty by done.
Qed.

Lemma string_to_category_lookup (s : Text) :
  default GraphNodeCategory.OTHER (GraphNodeCategory.string_to_category !! s) =
  if bool_decide (s = "z") then GraphNodeCategory.Z
  else if bool_decide (s = "nz") then GraphNodeCategory.NZ
  else if bool_decide (s = "faq") then GraphNodeCategory.FAQ
  else GraphNodeCategory.OTHER.
Proof.
  unfold GraphNodeCategory.string_to_category.
  case_bool_decide as H1; [subst; by rewrite lookup_insert_eq|].
  rewrite lookup_insert_ne by done.
  case_bool_decide as H2; [subst; by rewrite lookup_insert_eq|].
  rewrite lookup_insert_ne by done.
  case_bool_decide as H3; [subst; by rewrite lookup_insert_eq|].
  by rewrite lookup_insert_ne, lookup_empty by done.
Qed.

Lemma strip_lower_pad (pre s post : Text) :
  whitespace pre → whitespace post →
  Text.strip (Text.lower (pre ++ s ++ post)%string) = Text.strip (Text.lower s).
Proof.
  intros Hpre Hpost. rewrite !lower_app. by apply strip_pad; apply whitespace_lower.
Qed.

(** X1.  [Stance.from_string] reads its argument up to case and surrounding
    whitespace: padding the string with whitespace or lowering it does not
    change the result.  The result is [PRO] exactly for the strings that
    lower and strip to [pro], [CON] exactly for those that give [con], and
    [OTHER] for every other string. *)
Theorem stance_from_string_normalises (pre s post : Text) :
  whitespace pre → whitespace post →
  Stance.from_string (pre ++ s ++ post)%string = Stance.from_string s
  ∧ Stance.from_string (Text.lower s) = Stance.from_string s
  ∧ (Stance.from_string s = Stance.PRO ↔ Text.strip (Text.lower s) = "pro")
  ∧ (Stance.from_string s = Stance.CON ↔ Text.strip (Text.lower s) = "con")
  ∧ (Stance.from_string s = Stance.OTHER ↔
       Text.strip (Text.lower s) ≠ "pro" ∧ Text.strip (Text.lower s) ≠ "con").
Proof.
  intros Hpre Hpost. unfold Stance.from_string.
  rewrite strip_lower_pad, lower_idemp, !string_to_stance_lookup by done.
  split; [done|]. split; [done|].
  repeat case_bool_decide; subst; repeat split; try done; try congruence;
    intros []; congruence.
Qed.

(** X2.  [GraphNodeCategory.from_string] reads its argument up to case and
    surrounding whitespace, and maps the strings that lower and strip to
    [z], [nz] and [faq] to the three categories and every other string to
    [OTHER]. *)
Theorem category_from_string_normalises (pre s post : Text) :
  whitespace pre → whitespace post →
  GraphNodeCategory.from_string (pre ++ s ++ post)%string =
    GraphNodeCategory.from_string s
  ∧ GraphNodeCategory.from_string (Text.lower s) = GraphNodeCategory.from_string s
  ∧ (GraphNodeCategory.from_string s = GraphNodeCategory.Z ↔
       Text.strip (Text.lower s) = "z")
  ∧ (GraphNodeCategory.from_string s = GraphNodeCategory.NZ ↔
       Text.strip (Text.lower s) = "nz")
  ∧ (GraphNodeCategory.from_string s = GraphNodeCategory.FAQ ↔
       Text.strip (Text.lower s) = "faq")
  ∧ (GraphNodeCategory.from_string s = GraphNodeCategory.OTHER ↔
       Text.strip (Text.lower s) ∉ ["z"; "nz"; "faq"]).
Proof.
  intros Hpre Hpost. unfold GraphNodeCategory.from_string.
  rewrite strip_lower_pad, lower_idemp, !string_to_category_lookup by done.
  split; [done|]. split; [done|].
  rewrite !not_elem_of_cons.
  repeat case_bool_decide; subst; repeat split; try done; try congruence;
    try (intros (? & ? & ? & ?); congruence).
  apply not_elem_of_nil.
Qed.

(** ** [Stance.from_label] *)

Lemma contains_char_app (c : ascii) (s1 s2 : Text) :
  Text.contains (String c "") (s1 ++ s2)%string =
  Text.contains (String c "") s1 || Text.contains (String c "") s2.
Proof.
  induction s1 as [|b s1 IH].
  - simpl. by destruct s2.
  - change (String b s1 +:+ s2) with (String b (s1 +:+ s2)).
    cbn [Text.contains]. rewrite IH. simpl.
    assert (∀ s, String.prefix "" s = true) as Hp by (by intros []).
    rewrite !Hp. by destruct (ascii_dec c b).
Qed.

Lemma count_char_app (c : ascii) (s1 s2 : Text) :
  Text.count_char c (s1 ++ s2)%string =
  (Text.count_char c s1 + Text.count_char c s2)%nat.
Proof. induction s1 as [|b s1 IH]; simpl; [done|]. rewrite IH. lia. Qed.

Lemma parity_cases (n : nat) :
  ((n mod 2 =? 0)%nat = true ∧ (n mod 2 =? 1)%nat = false)
  ∨ ((n mod 2 =? 0)%nat = false ∧ (n mod 2 =? 1)%nat = true).
Proof.
  pose proof (Nat.mod_upper_bound n 2).
  destruct (n mod 2)%nat as [|[|m]]; [left|right|lia]; done.
Qed.

Lemma parity_succ (n : nat) :
  (S n mod 2 =? 0)%nat = (n mod 2 =? 1)%nat
  ∧ (S n mod 2 =? 1)%nat = (n mod 2 =? 0)%nat.
Proof.
  replace (S n) with (n + 1)%nat by lia.
  rewrite <-Nat.Div0.add_mod_idemp_l.
  pose proof (Nat.mod_upper_bound n 2).
  destruct (n mod 2)%nat as [|[|m]]; [done|done|lia].
Qed.

(** X3.  [Stance.from_label] returns [OTHER] exactly for the labels that
    hold neither a [P] nor a [K].  A label with a [P] and no [K] is [PRO]
    when its number of hyphens is even and [CON] when it is odd; a label
    with a [K] and no [P] the other way round; and a label that holds both
    letters is [PRO], whatever its number of hyphens. *)
Theorem from_label_cases (label : Text) :
  let P := Text.contains "P" label in
  let K := Text.contains "K" label in
  let even := (Text.count_char "-" label mod 2 =? 0)%nat in
  (Stance.from_label label = Stance.OTHER ↔ P = false ∧ K = false)
  ∧ (P = true ∧ K = true → Stance.from_label label = Stance.PRO)
  ∧ (P = true ∧ K = false →
       Stance.from_label label = if even then Stance.PRO else Stance.CON)
  ∧ (P = false ∧ K = true →
       Stance.from_label label = if even then Stance.CON else Stance.PRO).
Proof.
  intros P K even. unfold Stance.from_label. fold P K even.
  destruct (parity_cases (Text.count_char "-" label)) as [[He Ho]|[He Ho]];
    unfold even; rewrite He, Ho; destruct P, K; simpl;
    repeat split; try done; try (by intros [? ?]).
Qed.

(** X4.  On a label that holds exactly one of the letters [P] and [K],
    appending a hyphen and a suffix without [P], [K] and hyphen (the label
    of a counter-argument) swaps the stance [Stance.from_label] reads:
    [PRO] becomes [CON] and [CON] becomes [PRO]. *)
Theorem from_label_counter (label suffix : Text) :
  Text.contains "P" label ≠ Text.contains "K" label →
  Text.contains "P" suffix = false → Text.contains "K" suffix = false →
  Text.count_char "-" suffix = 0%nat →
  (Stance.from_label (label ++ "-" ++ suffix)%string = Stance.CON ↔
     Stance.from_label label = Stance.PRO)
  ∧ (Stance.from_label (label ++ "-" ++ suffix)%string = Stance.PRO ↔
       Stance.from_label label = Stance.CON).
Proof.
  intros Hone HP HK Hcount. unfold Stance.from_label.
  rewrite !contains_char_app, !count_char_app, HP, HK, Hcount.
  change (Text.contains "P" "-") with false.
  change (Text.contains "K" "-") with false.
  change (Text.count_char "-" "-") with 1%nat.
  rewrite !orb_false_r.
  replace (Text.count_char "-" label + (1 + 0))%nat
    with (S (Text.count_char "-" label)) by lia.
  destruct (parity_succ (Text.count_char "-" label)) as [-> ->].
  destruct (parity_cases (Text.count_char "-" label)) as [[He Ho]|[He Ho]];
    rewrite He, Ho;
    destruct (Text.contains "P" label), (Text.contains "K" label);
    simpl; try done.
Qed.

(** ** [split_by_comma] *)

Lemma append_cons (c : ascii) (s1 s2 : Text) :
  (String c s1 ++ s2)%string = String c (s1 ++ s2)%string.
Proof. done. Qed.

Lemma append_nil_r (s : Text) : (s ++ "")%string = s.
Proof. induction s as [|c s IH]; [done|]. by rewrite append_cons, IH. Qed.

Lemma append_assoc (s1 s2 s3 : Text) :
  ((s1 ++ s2) ++ s3)%string = (s1 ++ (s2 ++ s3))%string.
Proof. induction s1 as [|c s1 IH]; [done|]. by rewrite !append_cons, IH. Qed.

(** The matches a scan emits when it meets the end of the text. *)
Lemma finditer_nil (matched : Text) :
  ReadArgumentGraph.finditer matched "" =
  if bool_decide (matched = "") then [] else [matched].
Proof. done. Qed.

Lemma finditer_app_separator (matched s1 s2 : Text) (c : ascii) :
  ReadArgumentGraph.is_separator c = true →
  ReadArgumentGraph.finditer matched (s1 ++ String c s2)%string =
  ReadArgumentGraph.finditer matched s1 ++ ReadArgumentGraph.finditer "" s2.
Proof.
  intros Hc. revert matched. induction s1 as [|b s1 IH]; intros matched.
  - change ("" +:+ String c s2) with (String c s2).
    cbn [ReadArgumentGraph.finditer]. by rewrite Hc.
  - change (String b s1 +:+ String c s2) with (String b (s1 +:+ String c s2)).
    cbn [ReadArgumentGraph.finditer].
    destruct (ReadArgumentGraph.is_separator b); rewrite IH; [|done].
    by rewrite app_assoc.
Qed.

Lemma finditer_token (matched t : Text) :
  forallb (λ c, negb (ReadArgumentGraph.is_separator c)) (chars t) = true →
  ReadArgumentGraph.finditer matched t =
  if bool_decide ((matched ++ t)%string = "") then [] else [(matched ++ t)%string].
Proof.
  revert matched. induction t as [|b t IH]; intros matched Ht.
  - by rewrite append_nil_r.
  - unfold chars in Ht. simpl in Ht. apply andb_true_iff in Ht as [Hb Ht].
    apply negb_true_iff in Hb. cbn [ReadArgumentGraph.finditer]. rewrite Hb.
    rewrite IH by done. rewrite append_assoc. done.
Qed.

Lemma finditer_tokens (matched text t : Text) :
  forallb (λ c, negb (ReadArgumentGraph.is_separator c)) (chars matched) = true →
  t ∈ ReadArgumentGraph.finditer matched text → token t.
Proof.
  revert matched. induction text as [|b text IH]; intros matched Hm Ht.
  - rewrite finditer_nil in Ht. case_bool_decide as He; [by apply elem_of_nil in Ht|].
    apply list_elem_of_singleton in Ht as ->. done.
  - cbn [ReadArgumentGraph.finditer] in Ht.
    destruct (ReadArgumentGraph.is_separator b) eqn:Hb.
    + apply elem_of_app in Ht as [Ht|Ht]; [|by apply (IH "")].
      case_bool_decide as He; [by apply elem_of_nil in Ht|].
      apply list_elem_of_singleton in Ht as ->. done.
    + apply (IH (matched ++ String b "")%string); [|done].
      rewrite chars_app, forallb_app, Hm. unfold chars. simpl. by rewrite Hb.
Qed.

Lemma finditer_chars (matched text : Text) :
  mjoin (chars <$> ReadArgumentGraph.finditer matched text) =
  chars matched
  ++ filter (λ c, ReadArgumentGraph.is_separator c = false) (chars text).
Proof.
  revert matched. induction text as [|b text IH]; intros matched.
  - rewrite finditer_nil, app_nil_r. case_bool_decide as He; [by subst|].
    simpl. by rewrite app_nil_r.
  - cbn [ReadArgumentGraph.finditer]. unfold chars at 3. simpl.
    fold (chars text). destruct (ReadArgumentGraph.is_separator b) eqn:Hb.
    + rewrite filter_cons_False by (by rewrite Hb).
      rewrite fmap_app, join_app, IH. simpl.
      case_bool_decide as He; [by subst|]. simpl. by rewrite app_nil_r.
    + rewrite filter_cons_True by done.
      rewrite IH, chars_app, <-app_assoc. done.
Qed.

Lemma token_strip (t : Text) : token t → Text.strip t = t.
Proof.
  intros [_ Ht]. apply chars_inj. rewrite chars_strip. apply strip_stripped.
  rewrite forallb_forall in Ht.
  assert (∀ c, c ∈ chars t → Text.is_space c = false) as Hc.
  { intros c Hc%list_elem_of_In. specialize (Ht c Hc).
    apply negb_true_iff in Ht. unfold ReadArgumentGraph.is_separator in Ht.
    by apply orb_false_iff in Ht as [_ ?]. }
  split; intros c Hin; apply Hc.
  - by apply head_Some_elem_of.
  - by apply last_Some_elem_of.
Qed.

(** X5.  Every string [split_by_comma] yields is non-empty and holds no
    comma and no whitespace, so [str.strip] leaves it unchanged; and the
    characters of the strings it yields are, in order, the characters of
    the text that are neither a comma nor whitespace: nothing else is
    dropped, added or reordered. *)
Theorem split_by_comma_tokens (text : Text) :
  (∀ t, t ∈ ReadArgumentGraph.split_by_comma text → token t ∧ Text.strip t = t)
  ∧ mjoin (chars <$> ReadArgumentGraph.split_by_comma text) =
    filter (λ c, ReadArgumentGraph.is_separator c = false) (chars text).
Proof.
  split.
  - intros t Ht. apply (finditer_tokens "" text t eq_refl) in Ht.
    split; [done|]. by apply token_strip.
  - apply (finditer_chars "" text).
Qed.

(** X6.  [split_by_comma] cuts the text at every comma and whitespace
    character: the strings of [s1 + c + s2], for such a character [c], are
    those of [s1] followed by those of [s2].  The empty text yields
    nothing, and a text without comma and whitespace yields itself. *)
Theorem split_by_comma_at_separator (s1 s2 t : Text) (c : ascii) :
  ReadArgumentGraph.is_separator c = true → token t →
  ReadArgumentGraph.split_by_comma (s1 ++ String c s2)%string =
    ReadArgumentGraph.split_by_comma s1 ++ ReadArgumentGraph.split_by_comma s2
  ∧ ReadArgumentGraph.split_by_comma t = [t]
  ∧ ReadArgumentGraph.split_by_comma "" = [].
Proof.
  intros Hc [Hne Ht]. split; [by apply finditer_app_separator|]. split; [|done].
  unfold ReadArgumentGraph.split_by_comma. rewrite finditer_token by done.
  by rewrite bool_decide_false.
Qed.

Lemma split_by_comma_separators (sep text : Text) :
  forallb ReadArgumentGraph.is_separator (chars sep) = true →
  ReadArgumentGraph.split_by_comma (sep ++ text)%string =
  ReadArgumentGraph.split_by_comma text.
Proof.
  induction sep as [|c sep IH]; intros Hsep; [done|].
  unfold chars in Hsep. simpl in Hsep. apply andb_true_iff in Hsep as [Hc Hsep].
  change (String c sep +:+ text) with ("" +:+ String c (sep +:+ text)).
  unfold ReadArgumentGraph.split_by_comma.
  rewrite finditer_app_separator by done. by apply IH.
Qed.

(** X7.  Round trip: joining strings that hold no comma and no whitespace
    (and are not empty) with a separator made of commas and whitespace,
    such as [", "], and splitting the result gives the strings back. *)
Theorem split_by_comma_join (sep : Text) (tokens : list Text) :
  sep ≠ "" → forallb ReadArgumentGraph.is_separator (chars sep) = true →
  Forall token tokens →
  ReadArgumentGraph.split_by_comma (String.concat sep tokens) = tokens.
Proof.
  intros Hne Hsep Htok. induction Htok as [|t tokens [Ht1 Ht2] Htok IH]; [done|].
  destruct tokens as [|t' tokens].
  { simpl. unfold ReadArgumentGraph.split_by_comma.
    rewrite finditer_token by done. by rewrite bool_decide_false. }
  change (String.concat sep (t :: t' :: tokens))
    with (t +:+ sep +:+ String.concat sep (t' :: tokens)).
  destruct sep as [|c sep]; [done|].
  unfold chars in Hsep. simpl in Hsep. apply andb_true_iff in Hsep as [Hc Hsep'].
  change (t +:+ String c sep +:+ String.concat (String c sep) (t' :: tokens))
    with (t +:+ String c (sep +:+ String.concat (String c sep) (t' :: tokens))).
  unfold ReadArgumentGraph.split_by_comma at 1.
  rewrite finditer_app_separator by done.
  rewrite finditer_token by done. rewrite bool_decide_false by done.
  fold (ReadArgumentGraph.split_by_comma
          (sep +:+ String.concat (String c sep) (t' :: tokens))).
  rewrite split_by_comma_separators by done.
  by rewrite IH.
Qed.

(** ** The constructor of [GraphNode] *)

Lemma remove_dups_NoDup (l : list Text) : NoDup l → remove_dups l = l.
Proof.
  induction 1 as [|x l Hx Hl IH]; [done|]. simpl.
  destruct (decide_rel elem_of x l); [done|]. by rewrite IH.
Qed.

Lemma post_init_unfold (n : GraphNode.t) :
  GraphNode.__post_init__ n =
  GraphNode.mk (Text.strip (GraphNode.label n)) (GraphNode.full_text n)
    (cleaned_labels (Text.strip (GraphNode.label n)) (GraphNode.parents n))
    (cleaned_name (Text.strip (GraphNode.label n)) (GraphNode.label_name n))
    (GraphNode.paraphrase n) (GraphNode.summary n)
    (cleaned_labels (Text.strip (GraphNode.label n)) (GraphNode.groups n))
    (GraphNode.rating n) (GraphNode.reaction_to_argument n)
    (GraphNode.category n) (GraphNode.stance n) (GraphNode.samples n)
    (GraphNode.similars n) (GraphNode.child_nodes n) (GraphNode.parent_nodes n)
    (GraphNode.similar_nodes n) (GraphNode.group_nodes n)
    (GraphNode.group_member_nodes n).
Proof. done. Qed.

Lemma cleaned_labels_spec (label : Text) (labels : list Text) :
  NoDup (cleaned_labels label labels)
  ∧ ∀ l, l ∈ cleaned_labels label labels ↔
         l ≠ label ∧ ∃ l0, l0 ∈ labels ∧ l = Text.strip l0.
Proof.
  unfold cleaned_labels. cbv zeta.
  set (cleaned := Text.set (Text.strip <$> labels)).
  assert (∀ l, l ∈ cleaned ↔ ∃ l0, l0 ∈ labels ∧ l = Text.strip l0) as Hc.
  { intros l. unfold cleaned, Text.set.
    rewrite elem_of_remove_dups, list_elem_of_fmap.
    split; intros (l0 & H1 & H2); exists l0; done. }
  case_bool_decide as Hin.
  - split; [apply NoDup_filter, NoDup_remove_dups|].
    intros l. unfold Text.discard. rewrite list_elem_of_filter, Hc. done.
  - split; [apply NoDup_remove_dups|]. intros l. rewrite Hc. split; [|tauto].
    intros Hl. split; [|done]. intros ->. apply Hin, Hc, Hl.
Qed.

Lemma cleaned_labels_fixed (label : Text) (labels : list Text) :
  NoDup labels → (∀ l, l ∈ labels → Text.strip l = l ∧ l ≠ label) →
  cleaned_labels label labels = labels.
Proof.
  intros Hnd Hl. unfold cleaned_labels. cbv zeta.
  assert (Text.strip <$> labels = labels) as ->.
  { rewrite <-(list_fmap_id labels) at 2. apply list_fmap_ext.
    intros i l Hi. apply Hl. by eapply list_elem_of_lookup_2. }
  unfold Text.set. rewrite remove_dups_NoDup by done.
  rewrite bool_decide_false; [done|]. intros Hin. by destruct (Hl label Hin).
Qed.

Lemma cleaned_labels_idemp (label : Text) (labels : list Text) :
  cleaned_labels label (cleaned_labels label labels) = cleaned_labels label labels.
Proof.
  destruct (cleaned_labels_spec label labels) as [Hnd Hin].
  apply cleaned_labels_fixed; [done|].
  intros l [Hne (l0 & _ & ->)]%Hin. split; [apply strip_idemp|done].
Qed.

Lemma cleaned_name_idemp (label name : Text) :
  Text.strip label = label →
  cleaned_name label (cleaned_name label name) = cleaned_name label name.
Proof.
  intros Hl. unfold cleaned_name.
  destruct (bool_decide (Text.strip name = "")) eqn:Hn.
  - rewrite Hl. by destruct (bool_decide (label = "")).
  - by rewrite strip_idemp, Hn.
Qed.

(** X8.  What the constructor establishes of every node, whatever the
    arguments: the label is the stripped label given and carries no
    surrounding whitespace; [parents] holds exactly the stripped parent
    labels given that differ from the node's label, each once, and
    likewise [groups]; [label_name] is stripped and falls back to the
    label, so it is empty only when the label is; and the five link sets
    are empty. *)
Theorem init_normalised (a : GraphNode.Init.t) :
  let n := GraphNode.__init__ a in
  GraphNode.label n = Text.strip (GraphNode.Init.label a)
  ∧ Text.strip (GraphNode.label n) = GraphNode.label n
  ∧ NoDup (GraphNode.parents n)
  ∧ (∀ p, p ∈ GraphNode.parents n ↔
          p ≠ GraphNode.label n
          ∧ ∃ p0, p0 ∈ GraphNode.Init.parents a ∧ p = Text.strip p0)
  ∧ NoDup (GraphNode.groups n)
  ∧ (∀ g, g ∈ GraphNode.groups n ↔
          g ≠ GraphNode.label n
          ∧ ∃ g0, g0 ∈ GraphNode.Init.groups a ∧ g = Text.strip g0)
  ∧ Text.strip (GraphNode.label_name n) = GraphNode.label_name n
  ∧ (GraphNode.label_name n = "" → GraphNode.label n = "")
  ∧ (Text.strip (GraphNode.Init.label_name a) ≠ "" →
       GraphNode.label_name n = Text.strip (GraphNode.Init.label_name a))
  ∧ ∀ f, GraphNode.links f n = [].
Proof.
  intros n. unfold n, GraphNode.__init__. rewrite post_init_unfold.
  cbn [GraphNode.label GraphNode.parents GraphNode.groups GraphNode.label_name].
  destruct (cleaned_labels_spec (Text.strip (GraphNode.Init.label a))
              (GraphNode.Init.parents a)) as [Hp1 Hp2].
  destruct (cleaned_labels_spec (Text.strip (GraphNode.Init.label a))
              (GraphNode.Init.groups a)) as [Hg1 Hg2].
  split; [done|]. split; [apply strip_idemp|].
  split; [exact Hp1|]. split; [exact Hp2|].
  split; [exact Hg1|]. split; [exact Hg2|]. clear Hp1 Hp2 Hg1 Hg2.
  unfold cleaned_name. split; [|split; [|split]].
  - case_bool_decide; apply strip_idemp.
  - by case_bool_decide.
  - intros Hne. by rewrite bool_decide_false.
  - by intros [].
Qed.

(** X9.  The constructor's normalisation is idempotent: running
    [__post_init__] on a node it has already run on changes nothing. *)
Theorem post_init_idempotent (n : GraphNode.t) :
  GraphNode.__post_init__ (GraphNode.__post_init__ n) = GraphNode.__post_init__ n.
Proof.
  rewrite (post_init_unfold (GraphNode.__post_init__ n)).
  rewrite (post_init_unfold n).
  cbn [GraphNode.label GraphNode.parents GraphNode.groups GraphNode.full_text
       GraphNode.label_name GraphNode.paraphrase GraphNode.summary
       GraphNode.rating GraphNode.reaction_to_argument GraphNode.category
       GraphNode.stance GraphNode.samples GraphNode.similars
       GraphNode.child_nodes GraphNode.parent_nodes GraphNode.similar_nodes
       GraphNode.group_nodes GraphNode.group_member_nodes].
  rewrite strip_idemp, !cleaned_labels_idemp.
  by rewrite cleaned_name_idemp by apply strip_idemp.
Qed.

(** ** [get_nodes_from_df] and [from_dataframes] *)

Lemma bind_Returns {A B} (a : A) (f : A → result B) : Returns a ≫= f = f a.
Proof. reflexivity. Qed.

Lemma bind_Raises {A B} (e : exn) (f : A → result B) :
  (Raises e : result A) ≫= f = Raises e.
Proof. reflexivity. Qed.

Lemma args_fold_present (row : ReadArgumentGraph.Row.t)
    (d : gmap Text ReadArgumentGraph.Cell.t) k v :
  foldl (λ args (item : Text * ReadArgumentGraph.Cell.t),
           if negb (ReadArgumentGraph.Cell.isna item.2)
              && bool_decide (item.1 ≠ "Unnamed: 0")
           then <[item.1 := item.2]> args
           else args) d row !! k = Some v →
  d !! k = Some v
  ∨ (ReadArgumentGraph.Cell.isna v = false ∧ k ≠ "Unnamed: 0").
Proof.
  revert d. induction row as [|item row IH]; intros d; cbn [foldl]; [by left|].
  intros H. apply IH in H as [H|H]; [|by right].
  destruct (negb (ReadArgumentGraph.Cell.isna item.2)
            && bool_decide (item.1 ≠ "Unnamed: 0")) eqn:E; [|by left].
  apply andb_true_iff in E as [E1 E2].
  apply lookup_insert_Some in H as [[<- <-]|[_ H]]; [right|by left].
  split; [by apply negb_true_iff|by apply bool_decide_eq_true in E2].
Qed.

(** What [args] holds is not missing, and not under [Unnamed: 0]. *)
Lemma args_present (row : ReadArgumentGraph.Row.t) k v :
  ReadArgumentGraph.args row !! k = Some v →
  ReadArgumentGraph.Cell.isna v = false ∧ k ≠ "Unnamed: 0".
Proof.
  intros H. apply args_fold_present in H as [H|H]; [|done].
  by rewrite lookup_empty in H.
Qed.

Lemma get_nodes_from_df_cons (row : ReadArgumentGraph.Row.t)
    (df : list ReadArgumentGraph.Row.t)
    (samples_dataframe : option (list ReadArgumentGraph.Sample.t)) :
  ReadArgumentGraph.get_nodes_from_df (row :: df) samples_dataframe =
  ReadArgumentGraph.row_nodes samples_dataframe row ≫= λ nodes,
    ReadArgumentGraph.get_nodes_from_df df samples_dataframe ≫= λ graph_nodes,
      Returns (nodes ++ graph_nodes).
Proof. reflexivity. Qed.

Lemma kept_dec (row : ReadArgumentGraph.Row.t) : kept row ∨ ¬ kept row.
Proof.
  unfold kept.
  destruct (ReadArgumentGraph.args row !! "label"),
           (ReadArgumentGraph.args row !! "full_text");
    try (by left; split; eexists); right; intros [[? ?] [? ?]]; done.
Qed.

(** A row without label or full text appends nothing, and raises nothing. *)
Lemma row_nodes_skipped (samples_dataframe : option (list ReadArgumentGraph.Sample.t))
    (row : ReadArgumentGraph.Row.t) :
  ¬ kept row → ReadArgumentGraph.row_nodes samples_dataframe row = Returns [].
Proof.
  unfold kept, ReadArgumentGraph.row_nodes. cbv zeta.
  destruct (ReadArgumentGraph.args row !! "label"),
           (ReadArgumentGraph.args row !! "full_text"); try done.
  intros H. destruct H. split; eexists; done.
Qed.

(** A row with label and full text appends one node object when the call
    returns, and then every key of its [args] is a parameter. *)
Lemma row_nodes_kept (samples_dataframe : option (list ReadArgumentGraph.Sample.t))
    (row : ReadArgumentGraph.Row.t) nodes :
  kept row →
  ReadArgumentGraph.row_nodes samples_dataframe row = Returns nodes →
  (∃ n, nodes = [n])
  ∧ map_Forall (λ k _, k ∈ ReadArgumentGraph.parameters)
               (ReadArgumentGraph.args row).
Proof.
  intros [[l Hl] [t Ht]]. unfold ReadArgumentGraph.row_nodes. cbv zeta.
  rewrite Hl, Ht.
  destruct (ReadArgumentGraph.parsed AttributeError _ _ (_ !! "category"));
    [rewrite bind_Returns|discriminate].
  destruct (ReadArgumentGraph.parsed AttributeError _ _ (_ !! "stance"));
    [rewrite bind_Returns|discriminate].
  destruct (ReadArgumentGraph.parsed TypeError _ _ (_ !! "parents"));
    [rewrite bind_Returns|discriminate].
  destruct (ReadArgumentGraph.parsed TypeError _ _ (_ !! "similars"));
    [rewrite bind_Returns|discriminate].
  destruct (ReadArgumentGraph.parsed TypeError _ _ (_ !! "groups"));
    [rewrite bind_Returns|discriminate].
  unfold ReadArgumentGraph.construct.
  destruct (bool_decide (map_Forall _ _)) eqn:Hk; [|discriminate].
  apply bool_decide_eq_true in Hk.
  destruct (ReadArgumentGraph.parsed AttributeError id "" (Some l));
    [rewrite bind_Returns|discriminate].
  destruct (ReadArgumentGraph.parsed AttributeError id "" (_ !! "label_name"));
    [rewrite !bind_Returns|discriminate].
  intros [= <-]. split; [eauto|done].
Qed.

Lemma parsed_text {A} (error : exn) (parse : Text → A) (default : A)
    (row : ReadArgumentGraph.Row.t) (k : Text) :
  (∀ z, ReadArgumentGraph.args row !! k ≠ Some (ReadArgumentGraph.Cell.Int z)) →
  ReadArgumentGraph.parsed error parse default (ReadArgumentGraph.args row !! k) =
  Returns (from_option parse default (text_cell row k)).
Proof.
  intros Hint. unfold text_cell.
  destruct (ReadArgumentGraph.args row !! k) as [[|s|z]|] eqn:Hk; try done.
  - by apply args_present in Hk as [? _].
  - by destruct (Hint z).
Qed.

Lemma parsed_cases {A} (error : exn) (parse : Text → A) (default : A)
    (cell : option ReadArgumentGraph.Cell.t) :
  (∃ a, ReadArgumentGraph.parsed error parse default cell = Returns a)
  ∨ ReadArgumentGraph.parsed error parse default cell = Raises error.
Proof. destruct cell as [[|s|z]|]; eauto. Qed.

(** At a row with label and full text, text (if anything) under
    [category] and [stance], and a key that is no parameter, [TypeError]
    is raised: by the call of the constructor, unless splitting a cell has
    raised it before. *)
Lemma row_nodes_TypeError (samples_dataframe : option (list ReadArgumentGraph.Sample.t))
    (row : ReadArgumentGraph.Row.t) :
  kept row →
  (∀ z, ReadArgumentGraph.args row !! "category" ≠ Some (ReadArgumentGraph.Cell.Int z)) →
  (∀ z, ReadArgumentGraph.args row !! "stance" ≠ Some (ReadArgumentGraph.Cell.Int z)) →
  (∃ k, is_Some (ReadArgumentGraph.args row !! k)
        ∧ k ∉ ReadArgumentGraph.parameters) →
  ReadArgumentGraph.row_nodes samples_dataframe row = Raises TypeError.
Proof.
  intros [[l Hl] [t Ht]] Hcat Hstance (k & [v Hk] & Hno).
  unfold ReadArgumentGraph.row_nodes. cbv zeta. rewrite Hl, Ht.
  rewrite (parsed_text _ _ _ row "category" Hcat), bind_Returns.
  rewrite (parsed_text _ _ _ row "stance" Hstance), bind_Returns.
  destruct (parsed_cases TypeError
              (λ s, Text.set (ReadArgumentGraph.parse_parents_string s)) []
              (ReadArgumentGraph.args row !! "parents")) as [[a ->]| ->];
    [rewrite bind_Returns|done].
  destruct (parsed_cases TypeError
              (λ s, Text.set (ReadArgumentGraph.parse_parents_string s)) []
              (ReadArgumentGraph.args row !! "similars")) as [[b ->]| ->];
    [rewrite bind_Returns|done].
  destruct (parsed_cases TypeError
              (λ s, Text.set (ReadArgumentGraph.parse_groups_string s)) []
              (ReadArgumentGraph.args row !! "groups")) as [[c ->]| ->];
    [rewrite bind_Returns|done].
  unfold ReadArgumentGraph.construct.
  rewrite bool_decide_eq_false_2; [done|].
  intros Hall. apply Hno. exact (Hall k v Hk).
Qed.

(** ** Rows of the declared types *)

Ltac in_columns :=
  repeat first [apply list_elem_of_here | apply list_elem_of_further].

Lemma declared_lookup samples_dataframe (row : ReadArgumentGraph.Row.t) k v :
  declared samples_dataframe row = true →
  ReadArgumentGraph.args row !! k = Some v →
  cell_declared samples_dataframe k v = true.
Proof. intros Hd%bool_decide_eq_true Hk. exact (Hd k v Hk). Qed.

Lemma declared_text samples_dataframe (row : ReadArgumentGraph.Row.t) k :
  declared samples_dataframe row = true →
  k ∈ text_columns →
  ∀ z, ReadArgumentGraph.args row !! k ≠ Some (ReadArgumentGraph.Cell.Int z).
Proof.
  intros Hd Hk z Hz. apply (declared_lookup _ _ _ _ Hd) in Hz.
  unfold text_columns in Hk.
  repeat (apply elem_of_cons in Hk as [->|Hk]); try (by apply elem_of_nil in Hk);
    vm_compute in Hz; discriminate Hz.
Qed.

Lemma declared_int samples_dataframe (row : ReadArgumentGraph.Row.t) k :
  declared samples_dataframe row = true →
  k ∈ int_columns →
  ∀ s, ReadArgumentGraph.args row !! k ≠ Some (ReadArgumentGraph.Cell.Str s).
Proof.
  intros Hd Hk s Hs. apply (declared_lookup _ _ _ _ Hd) in Hs.
  unfold int_columns in Hk.
  repeat (apply elem_of_cons in Hk as [->|Hk]); try (by apply elem_of_nil in Hk);
    vm_compute in Hs; discriminate Hs.
Qed.

Lemma declared_parameters samples_dataframe (row : ReadArgumentGraph.Row.t) :
  declared samples_dataframe row = true →
  map_Forall (λ k _, k ∈ ReadArgumentGraph.parameters) (ReadArgumentGraph.args row).
Proof.
  intros Hd k v Hk. apply (declared_lookup _ _ _ _ Hd) in Hk.
  assert (k ∈ text_columns ∨ k ∈ int_columns ∨ k = "samples") as Hcases.
  { destruct v; [done| |];
      apply orb_true_iff in Hk as [Hk%bool_decide_eq_true|Hk]; auto;
      apply andb_true_iff in Hk as [Hk%bool_decide_eq_true _]; auto. }
  unfold text_columns, int_columns, ReadArgumentGraph.parameters in *.
  destruct Hcases as [Hc|[Hc| ->]];
    repeat (apply elem_of_cons in Hc as [->|Hc]);
    try (by apply elem_of_nil in Hc);
    in_columns.
Qed.

Lemma declared_samples (row : ReadArgumentGraph.Row.t) :
  declared None row = true → ReadArgumentGraph.args row !! "samples" = None.
Proof.
  intros Hd. destruct (ReadArgumentGraph.args row !! "samples") as [v|] eqn:Hv; [|done].
  apply (declared_lookup _ _ _ _ Hd) in Hv. destruct v; vm_compute in Hv; discriminate Hv.
Qed.

Lemma text_field_text (default : Text) (row : ReadArgumentGraph.Row.t) (k : Text) :
  (∀ z, ReadArgumentGraph.args row !! k ≠ Some (ReadArgumentGraph.Cell.Int z)) →
  ReadArgumentGraph.text_field default (ReadArgumentGraph.args row !! k) =
  Some (stdpp.option.default default (text_cell row k)).
Proof.
  intros Hint. unfold text_cell.
  destruct (ReadArgumentGraph.args row !! k) as [[|s|z]|] eqn:Hk; try done.
  - by apply args_present in Hk as [? _].
  - by destruct (Hint z).
Qed.

Lemma int_field_int (default : Z) (row : ReadArgumentGraph.Row.t) (k : Text) :
  (∀ s, ReadArgumentGraph.args row !! k ≠ Some (ReadArgumentGraph.Cell.Str s)) →
  ReadArgumentGraph.int_field default (ReadArgumentGraph.args row !! k) =
  Some (stdpp.option.default default (int_cell row k)).
Proof.
  intros Hstr. unfold int_cell.
  destruct (ReadArgumentGraph.args row !! k) as [[|s|z]|] eqn:Hk; try done.
  - by apply args_present in Hk as [? _].
  - by destruct (Hstr s).
Qed.

(** The node made of a row of the declared types. *)
Lemma row_nodes_declared (samples_dataframe : option (list ReadArgumentGraph.Sample.t))
    (row : ReadArgumentGraph.Row.t) (label full_text : Text) :
  ReadArgumentGraph.args row !! "label" = Some (ReadArgumentGraph.Cell.Str label) →
  ReadArgumentGraph.args row !! "full_text" =
    Some (ReadArgumentGraph.Cell.Str full_text) →
  declared samples_dataframe row = true →
  ReadArgumentGraph.row_nodes samples_dataframe row =
  Returns [Some (GraphNode.__init__
                   (row_record samples_dataframe row label full_text))].
Proof.
  intros Hl Ht Hd. unfold ReadArgumentGraph.row_nodes. cbv zeta. rewrite Hl, Ht.
  rewrite (parsed_text _ _ _ row "category"), bind_Returns
    by (apply (declared_text _ _ _ Hd); in_columns).
  rewrite (parsed_text _ _ _ row "stance"), bind_Returns
    by (apply (declared_text _ _ _ Hd); in_columns).
  rewrite (parsed_text _ _ _ row "parents"), bind_Returns
    by (apply (declared_text _ _ _ Hd); in_columns).
  rewrite (parsed_text _ _ _ row "similars"), bind_Returns
    by (apply (declared_text _ _ _ Hd); in_columns).
  rewrite (parsed_text _ _ _ row "groups"), bind_Returns
    by (apply (declared_text _ _ _ Hd); in_columns).
  unfold ReadArgumentGraph.construct.
  rewrite bool_decide_eq_true_2 by exact (declared_parameters _ _ Hd).
  cbn [ReadArgumentGraph.parsed]. rewrite bind_Returns.
  rewrite (parsed_text _ _ _ row "label_name"), bind_Returns
    by (apply (declared_text _ _ _ Hd); in_columns).
  cbn [ReadArgumentGraph.text_field].
  rewrite (text_field_text _ row "paraphrase")
    by (apply (declared_text _ _ _ Hd); in_columns).
  rewrite (text_field_text _ row "summary")
    by (apply (declared_text _ _ _ Hd); in_columns).
  rewrite (int_field_int _ row "rating")
    by (apply (declared_int _ _ _ Hd); in_columns).
  rewrite (int_field_int _ row "reaction_to_argument")
    by (apply (declared_int _ _ _ Hd); in_columns).
  destruct samples_dataframe as [df|].
  - reflexivity.
  - rewrite (declared_samples row Hd). reflexivity.
Qed.

Lemma get_nodes_from_df_Returns (row : ReadArgumentGraph.Row.t)
    (df : list ReadArgumentGraph.Row.t)
    (samples_dataframe : option (list ReadArgumentGraph.Sample.t)) nodes :
  ReadArgumentGraph.get_nodes_from_df (row :: df) samples_dataframe = Returns nodes →
  ∃ new graph_nodes,
    ReadArgumentGraph.row_nodes samples_dataframe row = Returns new
    ∧ ReadArgumentGraph.get_nodes_from_df df samples_dataframe = Returns graph_nodes
    ∧ nodes = new ++ graph_nodes.
Proof.
  rewrite get_nodes_from_df_cons.
  destruct (ReadArgumentGraph.row_nodes samples_dataframe row) as [new|e];
    [rewrite bind_Returns|discriminate].
  destruct (ReadArgumentGraph.get_nodes_from_df df samples_dataframe)
    as [graph_nodes|e]; [rewrite bind_Returns|discriminate].
  intros [= <-]. eauto.
Qed.

(** X10.  [get_nodes_from_df] skips, without an error, every row that
    lacks a label or a full text, whatever else the row holds.  When every
    other row holds, missing cells and the column [Unnamed: 0] apart, only
    cells under parameters of [GraphNode] and of the declared types, it
    makes one node of each of them, in the order of the rows: the node
    carries the stripped label and the full text of its row.  A list it
    returns has at most as many nodes as there are rows, and exactly as
    many when no row lacks a label or a full text; and no row it has made
    a node of holds a key that is no parameter of [GraphNode].  For at the
    first row with a label, a full text, text (if anything) under
    [category] and [stance], and such a key, it raises [TypeError]. *)
Theorem get_nodes_from_df_rows
    (samples_dataframe : option (list ReadArgumentGraph.Sample.t)) :
  (∀ df1 row df2,
     ¬ kept row →
     ReadArgumentGraph.get_nodes_from_df (df1 ++ row :: df2) samples_dataframe =
     ReadArgumentGraph.get_nodes_from_df (df1 ++ df2) samples_dataframe)
  ∧ (∀ df,
       (∀ row, row ∈ df → kept row → declared samples_dataframe row = true) →
       ∃ nodes,
         ReadArgumentGraph.get_nodes_from_df df samples_dataframe =
           Returns (Some <$> nodes)
         ∧ (λ n, (GraphNode.label n, GraphNode.full_text n)) <$> nodes =
           omap (λ row,
                   match ReadArgumentGraph.args row !! "label",
                         ReadArgumentGraph.args row !! "full_text" with
                   | Some (ReadArgumentGraph.Cell.Str label),
                     Some (ReadArgumentGraph.Cell.Str full_text) =>
                       Some (Text.strip label, full_text)
                   | _, _ => None
                   end) df)
  ∧ (∀ df nodes,
       ReadArgumentGraph.get_nodes_from_df df samples_dataframe = Returns nodes →
       (length nodes ≤ length df)%nat
       ∧ (length nodes = length df ↔ ∀ row, row ∈ df → kept row)
       ∧ ∀ row k, row ∈ df → kept row →
                  is_Some (ReadArgumentGraph.args row !! k) →
                  k ∈ ReadArgumentGraph.parameters)
  ∧ (∀ df1 row df2 nodes,
       ReadArgumentGraph.get_nodes_from_df df1 samples_dataframe = Returns nodes →
       kept row →
       (∀ z, ReadArgumentGraph.args row !! "category" ≠
             Some (ReadArgumentGraph.Cell.Int z)) →
       (∀ z, ReadArgumentGraph.args row !! "stance" ≠
             Some (ReadArgumentGraph.Cell.Int z)) →
       (∃ k, is_Some (ReadArgumentGraph.args row !! k)
             ∧ k ∉ ReadArgumentGraph.parameters) →
       ReadArgumentGraph.get_nodes_from_df (df1 ++ row :: df2) samples_dataframe =
       Raises TypeError).
Proof.
  split; [|split; [|split]].
  - intros df1 row df2 Hskip. induction df1 as [|r df1 IH]; cbn [app].
    + rewrite get_nodes_from_df_cons, (row_nodes_skipped _ _ Hskip), bind_Returns.
      by destruct (ReadArgumentGraph.get_nodes_from_df df2 samples_dataframe).
    + by rewrite !get_nodes_from_df_cons, IH.
  - intros df. induction df as [|row df IH]; intros Hdf.
    { by exists []. }
    destruct IH as (nodes & Hnodes & Hattrs).
    { intros r Hr. apply Hdf. by apply list_elem_of_further. }
    rewrite get_nodes_from_df_cons, Hnodes. cbn [omap list_omap].
    destruct (kept_dec row) as [Hkept|Hskip].
    + pose proof (Hdf row (list_elem_of_here _ _) Hkept) as Hd.
      destruct Hkept as [[l Hl] [t Ht]].
      destruct l as [|label|z].
      { by apply args_present in Hl as [? _]. }
      2:{ by destruct (declared_text _ _ "label" Hd ltac:(in_columns) z). }
      destruct t as [|full_text|z].
      { by apply args_present in Ht as [? _]. }
      2:{ by destruct (declared_text _ _ "full_text" Hd ltac:(in_columns) z). }
      rewrite (row_nodes_declared _ _ label full_text Hl Ht Hd), !bind_Returns.
      eexists (_ :: nodes). split; [reflexivity|].
      rewrite Hl, Ht, fmap_cons, Hattrs. f_equal.
    + rewrite (row_nodes_skipped _ _ Hskip), !bind_Returns.
      exists nodes. split; [done|]. rewrite Hattrs.
      destruct (ReadArgumentGraph.args row !! "label") as [l|] eqn:Hl; [|done].
      destruct (ReadArgumentGraph.args row !! "full_text") as [t|] eqn:Ht;
        [|by destruct l].
      destruct Hskip. unfold kept. rewrite Hl, Ht. split; eexists; done.
  - intros df. induction df as [|row df IH]; intros nodes Hnodes.
    { injection Hnodes as <-. split; [done|]. split.
      - split; [|done]. by intros _ r Hr%elem_of_nil.
      - by intros r k Hr%elem_of_nil. }
    apply get_nodes_from_df_Returns in Hnodes as (new & graph_nodes & Hnew & Hg & ->).
    destruct (IH _ Hg) as (Hle & Heq & Hkeys).
    rewrite length_app. cbn [length].
    destruct (kept_dec row) as [Hkept|Hskip].
    + destruct (row_nodes_kept _ _ _ Hkept Hnew) as [[n ->] Hpar].
      cbn [length]. split; [lia|]. split.
      * rewrite Nat.add_1_l, Nat.succ_inj_wd, Heq. split.
        -- intros Hall r [->|Hr]%elem_of_cons; [done|by apply Hall].
        -- intros Hall r Hr. apply Hall. by apply list_elem_of_further.
      * intros r k [->|Hr]%elem_of_cons Hk [v Hv]; [exact (Hpar k v Hv)|].
        by apply (Hkeys r k).
    + rewrite (row_nodes_skipped _ _ Hskip) in Hnew. injection Hnew as <-.
      cbn [length]. split; [lia|]. split.
      * split; [lia|]. intros Hall. destruct Hskip. apply Hall, list_elem_of_here.
      * intros r k [->|Hr]%elem_of_cons Hk; [done|]. by apply (Hkeys r k).
  - intros df1 row df2. induction df1 as [|r df1 IH];
      intros nodes Hnodes Hkept Hcat Hstance Hkey; cbn [app].
    + by rewrite get_nodes_from_df_cons,
        (row_nodes_TypeError _ _ Hkept Hcat Hstance Hkey).
    + apply get_nodes_from_df_Returns in Hnodes as (new & graph_nodes & Hnew & Hg & ->).
      rewrite get_nodes_from_df_cons, Hnew, bind_Returns.
      by rewrite (IH _ Hg Hkept Hcat Hstance Hkey).
Qed.

Lemma text_cell_Some (row : ReadArgumentGraph.Row.t) (k s : Text) :
  text_cell row k = Some s ↔
  ReadArgumentGraph.args row !! k = Some (ReadArgumentGraph.Cell.Str s).
Proof.
  unfold text_cell.
  destruct (ReadArgumentGraph.args row !! k) as [[|s'|z]|]; split; congruence.
Qed.

Lemma elem_of_parsed_set (row : ReadArgumentGraph.Row.t) (k x : Text) :
  x ∈ from_option (λ s, Text.set (ReadArgumentGraph.parse_parents_string s)) []
        (text_cell row k)
  ↔ ∃ s, ReadArgumentGraph.args row !! k = Some (ReadArgumentGraph.Cell.Str s)
         ∧ x ∈ ReadArgumentGraph.split_by_comma s.
Proof.
  setoid_rewrite <-text_cell_Some.
  destruct (text_cell row k) as [s|]; simpl.
  - unfold Text.set, ReadArgumentGraph.parse_parents_string.
    rewrite elem_of_remove_dups. split; [by exists s|]. by intros (? & [= <-] & ?).
  - split; [by intros ?%elem_of_nil|]. by intros (? & ? & _).
Qed.

(** X11.  The node made of a row that has a label and a full text, and
    cells of the declared types: its parent labels are the strings
    [split_by_comma] finds in the row's [parents] cell, without the node's
    own label, and likewise its group labels; its similar labels are all
    the strings found in the [similars] cell, the node's own label included
    when it occurs there.  A missing cell gives the empty set. *)
Theorem get_nodes_from_df_labels (row : ReadArgumentGraph.Row.t)
    (samples_dataframe : option (list ReadArgumentGraph.Sample.t))
    (label full_text : Text) :
  ReadArgumentGraph.args row !! "label" = Some (ReadArgumentGraph.Cell.Str label) →
  ReadArgumentGraph.args row !! "full_text" =
    Some (ReadArgumentGraph.Cell.Str full_text) →
  declared samples_dataframe row = true →
  ∃ n, ReadArgumentGraph.get_nodes_from_df [row] samples_dataframe =
         Returns [Some n]
       ∧ GraphNode.label n = Text.strip label
       ∧ GraphNode.full_text n = full_text
       ∧ (∀ p, p ∈ GraphNode.parents n ↔
               p ≠ GraphNode.label n
               ∧ ∃ s, ReadArgumentGraph.args row !! "parents" =
                        Some (ReadArgumentGraph.Cell.Str s)
                      ∧ p ∈ ReadArgumentGraph.split_by_comma s)
       ∧ (∀ g, g ∈ GraphNode.groups n ↔
               g ≠ GraphNode.label n
               ∧ ∃ s, ReadArgumentGraph.args row !! "groups" =
                        Some (ReadArgumentGraph.Cell.Str s)
                      ∧ g ∈ ReadArgumentGraph.split_by_comma s)
       ∧ (∀ x, x ∈ GraphNode.similars n ↔
               ∃ s, ReadArgumentGraph.args row !! "similars" =
                      Some (ReadArgumentGraph.Cell.Str s)
                    ∧ x ∈ ReadArgumentGraph.split_by_comma s).
Proof.
  intros Hlabel Htext Hd.
  rewrite get_nodes_from_df_cons,
    (row_nodes_declared _ _ label full_text Hlabel Htext Hd), bind_Returns.
  eexists. split; [reflexivity|].
  unfold GraphNode.__init__. rewrite post_init_unfold.
  cbn [GraphNode.label GraphNode.full_text GraphNode.parents GraphNode.groups
       GraphNode.similars].
  split; [done|]. split; [done|].
  assert (∀ k l,
            l ∈ cleaned_labels (Text.strip label)
                  (from_option
                     (λ s, Text.set (ReadArgumentGraph.parse_parents_string s))
                     [] (text_cell row k))
            ↔ l ≠ Text.strip label
              ∧ ∃ s, ReadArgumentGraph.args row !! k =
                       Some (ReadArgumentGraph.Cell.Str s)
                     ∧ l ∈ ReadArgumentGraph.split_by_comma s)
    as Hclean.
  { intros k l.
    rewrite (proj2 (cleaned_labels_spec _ _) l). split.
    - intros [Hne (l0 & Hl0 & ->)]. split; [done|].
      apply elem_of_parsed_set in Hl0 as (s & Hs & Hl0). exists s. split; [done|].
      by rewrite (token_strip l0 (finditer_tokens "" s l0 eq_refl Hl0)).
    - intros [Hne (s & Hs & Hl)]. split; [done|]. exists l. split.
      + apply elem_of_parsed_set. by exists s.
      + by rewrite (token_strip l (finditer_tokens "" s l eq_refl Hl)). }
  split; [apply Hclean|]. split; [apply Hclean|].
  intros x. apply elem_of_parsed_set.
Qed.

(** X12.  The samples of the node made of a row are the texts of the
    rows of the samples frame whose label cell is equal to the label cell
    of the row as it is given, before it is stripped (a missing text reads
    [nan]); without a samples frame the node has no samples.  So the
    samples of a label written with surrounding whitespace are found only
    under that same spelling. *)
Theorem get_nodes_from_df_samples (row : ReadArgumentGraph.Row.t)
    (samples_dataframe : option (list ReadArgumentGraph.Sample.t))
    (label full_text : Text) :
  ReadArgumentGraph.args row !! "label" = Some (ReadArgumentGraph.Cell.Str label) →
  ReadArgumentGraph.args row !! "full_text" =
    Some (ReadArgumentGraph.Cell.Str full_text) →
  declared samples_dataframe row = true →
  ∃ n, ReadArgumentGraph.get_nodes_from_df [row] samples_dataframe =
         Returns [Some n]
       ∧ GraphNode.label n = Text.strip label
       ∧ (samples_dataframe = None → GraphNode.samples n = [])
       ∧ ∀ df, samples_dataframe = Some df →
           NoDup (GraphNode.samples n)
           ∧ ∀ text, text ∈ GraphNode.samples n ↔
                     ∃ sample, sample ∈ df
                               ∧ ReadArgumentGraph.Sample.label sample = Some label
                               ∧ text = ReadArgumentGraph.str
                                          (ReadArgumentGraph.Sample.text sample).
Proof.
  intros Hlabel Htext Hd.
  rewrite get_nodes_from_df_cons,
    (row_nodes_declared _ _ label full_text Hlabel Htext Hd), bind_Returns.
  eexists. split; [reflexivity|].
  unfold GraphNode.__init__. rewrite post_init_unfold.
  cbn [GraphNode.label GraphNode.samples GraphNode.Init.samples GraphNode.Init.label
       row_record].
  split; [done|]. split; [by intros ->|]. intros df ->. cbn [from_option].
  unfold Text.set. split; [apply NoDup_remove_dups|]. intros text.
  rewrite elem_of_remove_dups. unfold ReadArgumentGraph.parse_samples_from_dataframe.
  rewrite list_elem_of_fmap. split.
  - intros (sample & -> & [Hl Hin]%list_elem_of_filter). by exists sample.
  - intros (sample & Hin & Hl & ->). exists sample. split; [done|].
    by apply list_elem_of_filter.
Qed.

(** The partitions of a constructed graph hold the constructed nodes. *)
Lemma from_records_partitions (hash : Text → Z)
    (intro trans zargs grps nzargs faq : list GraphNode.Init.t) :
  ∃ g, ArgumentGraph.from_records hash intro trans zargs grps nzargs faq = Some g
       ∧ built hash g
       ∧ nodes_at g (ArgumentGraph.introduction_nodes g) = constructed intro
       ∧ nodes_at g (ArgumentGraph.transition_nodes g) = constructed trans
       ∧ nodes_at g (ArgumentGraph.z_arguments_nodes g) = constructed zargs
       ∧ nodes_at g (ArgumentGraph.group_nodes g) = constructed grps
       ∧ nodes_at g (ArgumentGraph.nz_arguments_nodes g) = constructed nzargs
       ∧ nodes_at g (ArgumentGraph.faq_nodes g) = constructed faq.
Proof.
  destruct (from_records_built hash intro trans zargs grps nzargs faq)
    as (g & Hg & Hb & Hst & H1 & H2 & H3 & H4 & H5 & H6).
  exists g. split; [done|]. split; [done|].
  rewrite H1, H2, H3, H4, H5, H6.
  split; [|split; [|split; [|split; [|split]]]].
  - apply (nodes_at_segment g [] intro (trans ++ zargs ++ grps ++ nzargs ++ faq)).
    exact Hst.
  - apply (nodes_at_segment g intro trans (zargs ++ grps ++ nzargs ++ faq)).
    exact Hst.
  - rewrite <-length_app.
    apply (nodes_at_segment g (intro ++ trans) zargs (grps ++ nzargs ++ faq)).
    by rewrite <-!app_assoc.
  - rewrite <-!length_app.
    apply (nodes_at_segment g ((intro ++ trans) ++ zargs) grps (nzargs ++ faq)).
    by rewrite <-!app_assoc.
  - rewrite <-!length_app.
    apply (nodes_at_segment g (((intro ++ trans) ++ zargs) ++ grps) nzargs faq).
    by rewrite <-!app_assoc.
  - rewrite <-!length_app.
    apply (nodes_at_segment g ((((intro ++ trans) ++ zargs) ++ grps) ++ nzargs) faq []).
    by rewrite <-!app_assoc, app_nil_r.
Qed.

(** Every node [get_nodes_from_df] makes comes from the constructor. *)
Lemma row_nodes_constructed (samples_dataframe : option (list ReadArgumentGraph.Sample.t))
    (row : ReadArgumentGraph.Row.t) nodes n :
  ReadArgumentGraph.row_nodes samples_dataframe row = Returns nodes →
  Some n ∈ nodes → ∃ a, n = GraphNode.__init__ a.
Proof.
  unfold ReadArgumentGraph.row_nodes. cbv zeta.
  destruct (ReadArgumentGraph.args row !! "label") as [l|].
  2:{ intros [= <-] Hn. by apply elem_of_nil in Hn. }
  destruct (ReadArgumentGraph.args row !! "full_text") as [t|].
  2:{ intros [= <-] Hn. by apply elem_of_nil in Hn. }
  destruct (ReadArgumentGraph.parsed AttributeError _ _ (_ !! "category"));
    [rewrite bind_Returns|discriminate].
  destruct (ReadArgumentGraph.parsed AttributeError _ _ (_ !! "stance"));
    [rewrite bind_Returns|discriminate].
  destruct (ReadArgumentGraph.parsed TypeError _ _ (_ !! "parents"));
    [rewrite bind_Returns|discriminate].
  destruct (ReadArgumentGraph.parsed TypeError _ _ (_ !! "similars"));
    [rewrite bind_Returns|discriminate].
  destruct (ReadArgumentGraph.parsed TypeError _ _ (_ !! "groups"));
    [rewrite bind_Returns|discriminate].
  unfold ReadArgumentGraph.construct.
  destruct (bool_decide (map_Forall _ _)); [|discriminate].
  destruct (ReadArgumentGraph.parsed AttributeError id "" (Some l));
    [rewrite bind_Returns|discriminate].
  destruct (ReadArgumentGraph.parsed AttributeError id "" (_ !! "label_name"));
    [rewrite !bind_Returns|discriminate].
  intros [= <-] Hn%list_elem_of_singleton. symmetry in Hn.
  apply bind_Some in Hn as (? & _ & Hn). apply bind_Some in Hn as (? & _ & Hn).
  apply bind_Some in Hn as (? & _ & Hn). apply bind_Some in Hn as (? & _ & Hn).
  apply bind_Some in Hn as (? & _ & Hn). apply bind_Some in Hn as (? & _ & Hn).
  injection Hn as <-. eauto.
Qed.

Lemma get_nodes_from_df_constructed (df : list ReadArgumentGraph.Row.t)
    (samples_dataframe : option (list ReadArgumentGraph.Sample.t)) nodes :
  ReadArgumentGraph.get_nodes_from_df df samples_dataframe = Returns (Some <$> nodes) →
  ∃ rows, nodes = GraphNode.__init__ <$> rows.
Proof.
  intros Hdf.
  assert (∀ n, n ∈ nodes → ∃ a, n = GraphNode.__init__ a) as Hall.
  { intros n Hn. assert (Some n ∈ Some <$> nodes) as Hin.
    { apply list_elem_of_fmap. by exists n. }
    clear Hn. revert Hdf Hin. generalize (Some <$> nodes). clear nodes.
    induction df as [|row df IH]; intros nodes Hdf Hn.
    - injection Hdf as <-. by apply elem_of_nil in Hn.
    - apply get_nodes_from_df_Returns in Hdf as (new & graph_nodes & Hnew & Hg & ->).
      apply elem_of_app in Hn as [Hn|Hn].
      + exact (row_nodes_constructed _ _ _ _ Hnew Hn).
      + exact (IH _ Hg Hn). }
  clear Hdf. induction nodes as [|n nodes IH]; [by exists []|].
  destruct (Hall n (list_elem_of_here _ _)) as [a ->].
  destruct IH as [rows ->].
  { intros n' Hn'. apply Hall. by apply list_elem_of_further. }
  by exists (a :: rows).
Qed.

Lemma constructed_init (rows : list GraphNode.Init.t) :
  constructed rows = GraphNode.__init__ <$> rows.
Proof. unfold constructed. apply list_fmap_ext. intros i a _. done. Qed.

Lemma mapM_id_Some {A} (l : list A) : mapM id (Some <$> l) = Some l.
Proof.
  apply mapM_Some. apply Forall2_fmap_l.
  induction l; constructor; done.
Qed.

Lemma read_dataframes_Raises samples_dataframe e nodes_dataframes :
  ArgumentGraph.read_dataframes samples_dataframe (Raises e) nodes_dataframes =
  Raises e.
Proof. induction nodes_dataframes as [|item l IH]; [done|exact IH]. Qed.

Lemma read_dataframes_cons samples_dataframe nodes item nodes_dataframes :
  ArgumentGraph.read_dataframes samples_dataframe (Returns nodes)
    (item :: nodes_dataframes) =
  ArgumentGraph.read_dataframes samples_dataframe
    (ReadArgumentGraph.get_nodes_from_df item.2 samples_dataframe ≫= λ graph_nodes,
       Returns (<[item.1 := graph_nodes]> nodes))
    nodes_dataframes.
Proof. reflexivity. Qed.

Lemma read_dataframes_app samples_dataframe nodes l1 l2 :
  ArgumentGraph.read_dataframes samples_dataframe nodes (l1 ++ l2) =
  ArgumentGraph.read_dataframes samples_dataframe
    (ArgumentGraph.read_dataframes samples_dataframe nodes l1) l2.
Proof. apply foldl_app. Qed.

(** When every frame is read, the dict holds the nodes of each frame under
    its key. *)
Lemma read_dataframes_Returns samples_dataframe nodes_dataframes :
  (∀ item, item ∈ nodes_dataframes →
           ∃ graph_nodes,
             ReadArgumentGraph.get_nodes_from_df item.2 samples_dataframe =
             Returns graph_nodes) →
  ∀ nodes0,
  ∃ nodes,
    ArgumentGraph.read_dataframes samples_dataframe (Returns nodes0)
      nodes_dataframes = Returns nodes
    ∧ (∀ name, name ∉ nodes_dataframes.*1 → nodes !! name = nodes0 !! name)
    ∧ (NoDup nodes_dataframes.*1 →
       ∀ name df graph_nodes,
         (name, df) ∈ nodes_dataframes →
         ReadArgumentGraph.get_nodes_from_df df samples_dataframe =
           Returns graph_nodes →
         nodes !! name = Some graph_nodes).
Proof.
  induction nodes_dataframes as [|[name0 df0] l IH]; intros Hall nodes0.
  { exists nodes0. split; [done|]. split; [done|].
    by intros _ name df graph_nodes Hin%elem_of_nil. }
  destruct (Hall (name0, df0) (list_elem_of_here _ _)) as [graph_nodes0 Hdf0].
  cbn [snd] in Hdf0.
  rewrite read_dataframes_cons. cbn [fst snd]. rewrite Hdf0, bind_Returns.
  destruct (IH (λ item Hitem, Hall item (list_elem_of_further _ _ _ Hitem))
              (<[name0 := graph_nodes0]> nodes0)) as (nodes & Hnodes & Hout & Hin).
  exists nodes. split; [done|]. rewrite fmap_cons. cbn [fst]. split.
  - intros name [Hne Hname]%not_elem_of_cons.
    by rewrite (Hout name Hname), lookup_insert_ne.
  - intros [Hname0 Hl]%NoDup_cons name df graph_nodes [[= -> ->]|Hitem]%elem_of_cons Hdf.
    + rewrite (Hout name0 Hname0), lookup_insert_eq. congruence.
    + by apply (Hin Hl name df).
Qed.

(** X13.  [from_dataframes] reads the frames of its dict in the order of
    the dict, those under keys it does not use included, and raises what
    [get_nodes_from_df] raises on the first frame that it fails on.  When
    every frame is read and the dict lacks one of the keys [intros],
    [transitions], [zargs], [groups], [nzargs] and [faq], it raises
    [KeyError].  When every frame is read, the dict has the six keys and
    the frames under them give nodes, it returns a graph, and never fails
    on an assertion: each of the six partitions of that graph holds, in the
    order of the rows, the nodes [get_nodes_from_df] makes of the frame
    under the key of that partition (here without the link sets that
    resolution has filled since). *)
Theorem from_dataframes_reads (hash : Text → Z)
    (nodes_dataframes : list (Text * list ReadArgumentGraph.Row.t))
    (samples_dataframe : option (list ReadArgumentGraph.Sample.t)) :
  (∀ before item after e,
     nodes_dataframes = before ++ item :: after →
     (∀ i, i ∈ before →
           ∃ graph_nodes,
             ReadArgumentGraph.get_nodes_from_df i.2 samples_dataframe =
             Returns graph_nodes) →
     ReadArgumentGraph.get_nodes_from_df item.2 samples_dataframe = Raises e →
     ArgumentGraph.from_dataframes hash nodes_dataframes samples_dataframe =
     Raises e)
  ∧ ((∀ i, i ∈ nodes_dataframes →
           ∃ graph_nodes,
             ReadArgumentGraph.get_nodes_from_df i.2 samples_dataframe =
             Returns graph_nodes) →
     (∃ name, name ∈ partition_keys ∧ name ∉ nodes_dataframes.*1) →
     ArgumentGraph.from_dataframes hash nodes_dataframes samples_dataframe =
     Raises KeyError)
  ∧ (NoDup nodes_dataframes.*1 →
     (∀ i, i ∈ nodes_dataframes →
           ∃ graph_nodes,
             ReadArgumentGraph.get_nodes_from_df i.2 samples_dataframe =
             Returns graph_nodes) →
     ∀ df_intros df_transitions df_zargs df_groups df_nzargs df_faq
       introduction_nodes transition_nodes z_arguments_nodes group_nodes
       nz_arguments_nodes faq_nodes,
       ("intros", df_intros) ∈ nodes_dataframes →
       ("transitions", df_transitions) ∈ nodes_dataframes →
       ("zargs", df_zargs) ∈ nodes_dataframes →
       ("groups", df_groups) ∈ nodes_dataframes →
       ("nzargs", df_nzargs) ∈ nodes_dataframes →
       ("faq", df_faq) ∈ nodes_dataframes →
       ReadArgumentGraph.get_nodes_from_df df_intros samples_dataframe =
         Returns (Some <$> introduction_nodes) →
       ReadArgumentGraph.get_nodes_from_df df_transitions samples_dataframe =
         Returns (Some <$> transition_nodes) →
       ReadArgumentGraph.get_nodes_from_df df_zargs samples_dataframe =
         Returns (Some <$> z_arguments_nodes) →
       ReadArgumentGraph.get_nodes_from_df df_groups samples_dataframe =
         Returns (Some <$> group_nodes) →
       ReadArgumentGraph.get_nodes_from_df df_nzargs samples_dataframe =
         Returns (Some <$> nz_arguments_nodes) →
       ReadArgumentGraph.get_nodes_from_df df_faq samples_dataframe =
         Returns (Some <$> faq_nodes) →
       ∃ g, ArgumentGraph.from_dataframes hash nodes_dataframes samples_dataframe =
              Returns (Some g)
            ∧ nodes_at g (ArgumentGraph.introduction_nodes g) = introduction_nodes
            ∧ nodes_at g (ArgumentGraph.transition_nodes g) = transition_nodes
            ∧ nodes_at g (ArgumentGraph.z_arguments_nodes g) = z_arguments_nodes
            ∧ nodes_at g (ArgumentGraph.group_nodes g) = group_nodes
            ∧ nodes_at g (ArgumentGraph.nz_arguments_nodes g) = nz_arguments_nodes
            ∧ nodes_at g (ArgumentGraph.faq_nodes g) = faq_nodes).
Proof.
  split; [|split].
  - intros before item after e -> Hbefore Hitem.
    unfold ArgumentGraph.from_dataframes.
    destruct (read_dataframes_Returns samples_dataframe before Hbefore ∅)
      as (nodes & Hnodes & _).
    rewrite read_dataframes_app, Hnodes, read_dataframes_cons, Hitem.
    by rewrite bind_Raises, read_dataframes_Raises.
  - intros Hall (name & Hname & Hmissing).
    unfold ArgumentGraph.from_dataframes.
    destruct (read_dataframes_Returns samples_dataframe nodes_dataframes Hall ∅)
      as (nodes & -> & Hout & _).
    rewrite bind_Returns. specialize (Hout name Hmissing).
    rewrite lookup_empty in Hout. unfold ArgumentGraph.getitem.
    destruct (nodes !! "intros") eqn:H1; [rewrite bind_Returns|done].
    destruct (nodes !! "transitions") eqn:H2; [rewrite bind_Returns|done].
    destruct (nodes !! "zargs") eqn:H3; [rewrite bind_Returns|done].
    destruct (nodes !! "groups") eqn:H4; [rewrite bind_Returns|done].
    destruct (nodes !! "nzargs") eqn:H5; [rewrite bind_Returns|done].
    destruct (nodes !! "faq") eqn:H6; [rewrite bind_Returns|done].
    unfold partition_keys in Hname.
    repeat (apply elem_of_cons in Hname as [->|Hname]); try congruence.
    by apply elem_of_nil in Hname.
  - intros Hdup Hall df1 df2 df3 df4 df5 df6 n1 n2 n3 n4 n5 n6
      Hin1 Hin2 Hin3 Hin4 Hin5 Hin6 Hn1 Hn2 Hn3 Hn4 Hn5 Hn6.
    destruct (get_nodes_from_df_constructed _ _ _ Hn1) as [a1 ->].
    destruct (get_nodes_from_df_constructed _ _ _ Hn2) as [a2 ->].
    destruct (get_nodes_from_df_constructed _ _ _ Hn3) as [a3 ->].
    destruct (get_nodes_from_df_constructed _ _ _ Hn4) as [a4 ->].
    destruct (get_nodes_from_df_constructed _ _ _ Hn5) as [a5 ->].
    destruct (get_nodes_from_df_constructed _ _ _ Hn6) as [a6 ->].
    destruct (from_records_partitions hash a1 a2 a3 a4 a5 a6)
      as (g & Hg & _ & P1 & P2 & P3 & P4 & P5 & P6).
    exists g. rewrite <-!constructed_init. split; [|done].
    unfold ArgumentGraph.from_dataframes.
    destruct (read_dataframes_Returns samples_dataframe nodes_dataframes Hall ∅)
      as (nodes & -> & _ & Hin).
    rewrite bind_Returns. unfold ArgumentGraph.getitem.
    rewrite (Hin Hdup _ _ _ Hin1 Hn1), bind_Returns.
    rewrite (Hin Hdup _ _ _ Hin2 Hn2), bind_Returns.
    rewrite (Hin Hdup _ _ _ Hin3 Hn3), bind_Returns.
    rewrite (Hin Hdup _ _ _ Hin4 Hn4), bind_Returns.
    rewrite (Hin Hdup _ _ _ Hin5 Hn5), bind_Returns.
    rewrite (Hin Hdup _ _ _ Hin6 Hn6), bind_Returns.
    rewrite !mapM_id_Some.
    unfold ArgumentGraph.from_records in Hg. by rewrite Hg.
Qed.

(** ** Sets of nodes hold no two equal nodes *)

Section NodeSetKeys.
Variable key : ref → Z.

Lemma mem_false (x : ref) (s : list ref) :
  NodeSet.mem key x s = false ↔ key x ∉ key <$> s.
Proof.
  rewrite <-not_true_iff_false, mem_spec, list_elem_of_fmap. split.
  - intros Hn (y & Hk & Hy). apply Hn. by exists y.
  - intros Hn (y & Hy & Hk). apply Hn. by exists y.
Qed.

Lemma add_keys_NoDup (s : list ref) (x : ref) :
  NoDup (key <$> s) → NoDup (key <$> NodeSet.add key s x).
Proof.
  intros Hs. unfold NodeSet.add. destruct (NodeSet.mem key x s) eqn:Hx; [done|].
  rewrite fmap_app. apply NoDup_app. split; [done|]. split.
  - intros k Hk [->|[]%elem_of_nil]%elem_of_cons. by apply mem_false in Hx.
  - apply NoDup_singleton.
Qed.

Lemma update_keys_NoDup (s xs : list ref) :
  NoDup (key <$> s) → NoDup (key <$> NodeSet.update key s xs).
Proof.
  unfold NodeSet.update. revert s.
  induction xs as [|x xs IH]; intros s Hs; [done|]. simpl.
  by apply IH, add_keys_NoDup.
Qed.

Lemma add_sublist (s : list ref) (x : ref) : s `sublist_of` NodeSet.add key s x.
Proof.
  unfold NodeSet.add. destruct (NodeSet.mem key x s); [done|].
  by apply sublist_inserts_r.
Qed.

Lemma update_sublist (s xs : list ref) : s `sublist_of` NodeSet.update key s xs.
Proof.
  unfold NodeSet.update. revert s.
  induction xs as [|x xs IH]; intros s; [done|]. simpl.
  etrans; [apply add_sublist|apply IH].
Qed.

Lemma mem_update (z : ref) (s xs : list ref) :
  NodeSet.mem key z (NodeSet.update key s xs) = true ↔
  NodeSet.mem key z s = true ∨ NodeSet.mem key z xs = true.
Proof.
  unfold NodeSet.update. revert s.
  induction xs as [|x xs IH]; intros s; simpl.
  { split; [tauto|]. by intros [?|?]. }
  rewrite IH, mem_add. rewrite orb_true_iff, Z.eqb_eq. tauto.
Qed.

(** [set(nodes)] of nodes that are pairwise unequal holds all of them, in
    the same order. *)
Lemma update_keys_distinct (xs : list ref) :
  NoDup (key <$> xs) → ∀ s, NoDup (key <$> (s ++ xs)) →
  NodeSet.update key s xs = s ++ xs.
Proof.
  unfold NodeSet.update.
  induction xs as [|x xs IH]; intros Hxs s Hs; [by rewrite app_nil_r|]. simpl.
  assert (NodeSet.mem key x s = false) as Hx.
  { apply mem_false. rewrite fmap_app, fmap_cons in Hs.
    apply NoDup_app in Hs as (_ & Hs & _). intros Hin.
    apply (Hs _ Hin), list_elem_of_here. }
  unfold NodeSet.add at 2. rewrite Hx.
  rewrite IH.
  - by rewrite <-app_assoc.
  - rewrite fmap_cons in Hxs. by apply NoDup_cons in Hxs as [_ ?].
  - by rewrite <-app_assoc.
Qed.

Lemma node_set_keys_distinct (xs : list ref) :
  NoDup (key <$> xs) → NodeSet.update key [] xs = xs.
Proof. intros Hxs. by apply (update_keys_distinct xs Hxs []). Qed.
End NodeSetKeys.

Section LinkSetFacts.
Variable hash : Text → Z.

Lemma run_keys_NoDup (st : list GraphNode.t) (ops : list op) :
  (∀ f a, NoDup (GraphNode.hash_at hash st <$> GraphNode.links f (st !!! a))) →
  ∀ f a, NoDup (GraphNode.hash_at hash (run hash st ops)
                  <$> GraphNode.links f (run hash st ops !!! a)).
Proof.
  revert st. induction ops as [|[[g b] x] ops IH]; intros st Hst; [done|].
  rewrite run_cons. apply IH. intros f a. simpl.
  erewrite list_fmap_ext; [|intros i r _; apply hash_at_attrs, links_add_attrs].
  rewrite links_add_links. case_decide as Hd; [|done].
  destruct Hd as (-> & -> & _). by apply add_keys_NoDup.
Qed.

(** In a constructed graph no link set holds two equal nodes. *)
Lemma from_records_keys_NoDup
    (intro trans zargs grps nzargs faq : list GraphNode.Init.t)
    (g : ArgumentGraph.t) (f : GraphNode.link) (a : ref) :
  ArgumentGraph.from_records hash intro trans zargs grps nzargs faq = Some g →
  NoDup (GraphNode.hash_at hash (ArgumentGraph.store g)
           <$> GraphNode.links f (ArgumentGraph.node g a)).
Proof.
  rewrite from_records_resolved. intros [= <-]. rewrite resolved_run. cbv zeta.
  unfold ArgumentGraph.node.
  cbn [ArgumentGraph.store ArgumentGraph.with_store ArgumentGraph.with_index].
  apply run_keys_NoDup. intros f' a'.
  unfold ArgumentGraph.allocate. cbn [ArgumentGraph.store].
  rewrite <-!fmap_app, init_links_fresh. apply NoDup_nil_2.
Qed.

(** The labels of the nodes of a link set are pairwise distinct. *)
Lemma keys_NoDup_labels (st : list GraphNode.t) (l : list ref) :
  NoDup (GraphNode.hash_at hash st <$> l) →
  NoDup ((λ r, GraphNode.label (st !!! r)) <$> l).
Proof.
  intros Hl. apply (NoDup_fmap_1 hash). by rewrite <-list_fmap_compose.
Qed.
End LinkSetFacts.

Lemma NoDup_fmap_inj {A B} (f : A → B) (l : list A) (y z : A) :
  NoDup (f <$> l) → y ∈ l → z ∈ l → f y = f z → y = z.
Proof.
  intros Hnd [i Hi]%list_elem_of_lookup [j Hj]%list_elem_of_lookup He.
  assert (i = j) as ->; [|congruence].
  apply (NoDup_lookup (f <$> l) i j (f y)); [done|..].
  - by rewrite list_lookup_fmap, Hi.
  - by rewrite list_lookup_fmap, Hj, He.
Qed.

Lemma declared_count (hash : Text → Z) (g : ArgumentGraph.t)
    (labels : GraphNode.t → list Text) (f : GraphNode.link) (a : ref) :
  built hash g →
  (∀ y, edge g f a y → declares g labels a y) →
  NoDup (GraphNode.hash_at hash (ArgumentGraph.store g)
           <$> GraphNode.links f (ArgumentGraph.node g a)) →
  NoDup (labels (ArgumentGraph.node g a)) →
  (length (GraphNode.links f (ArgumentGraph.node g a))
   ≤ length (labels (ArgumentGraph.node g a)))%nat.
Proof.
  intros Hb Hedge Hkeys Hlabels.
  rewrite <-(length_fmap (λ r, GraphNode.label (ArgumentGraph.store g !!! r))).
  apply submseteq_length, NoDup_submseteq; [by apply (keys_NoDup_labels hash)|].
  intros l (y & -> & Hy)%list_elem_of_fmap.
  apply (built_stored _ _ Hb), Hedge in Hy as (_ & l & Hl & Hget).
  by destruct (get_node_for_label_Some hash g l y Hb Hget) as [_ <-].
Qed.

Lemma built_labels_NoDup (hash : Text → Z) (g : ArgumentGraph.t) (r : ref) :
  built hash g → r ∈ ArgumentGraph.all_nodes g →
  NoDup (GraphNode.parents (ArgumentGraph.node g r))
  ∧ NoDup (GraphNode.groups (ArgumentGraph.node g r)).
Proof.
  intros Hb Hr. destruct (built_constructed _ _ Hb r Hr) as [a Ha].
  pose proof (f_equal GraphNode.parents Ha) as Hps.
  pose proof (f_equal GraphNode.groups Ha) as Hgs.
  change (GraphNode.parents (ArgumentGraph.node g r) =
          GraphNode.parents (GraphNode.__init__ a)) in Hps.
  change (GraphNode.groups (ArgumentGraph.node g r) =
          GraphNode.groups (GraphNode.__init__ a)) in Hgs.
  rewrite Hps, Hgs. unfold GraphNode.__init__. rewrite post_init_unfold.
  cbn [GraphNode.parents GraphNode.groups].
  split; apply cleaned_labels_spec.
Qed.

(** X14.  In every constructed graph, each of the five link sets of a
    node holds nodes of the graph only, and no two nodes that compare
    equal; and a node has at most as many parent nodes as parent labels,
    and at most as many group nodes as group labels. *)
Theorem link_sets_within_graph (hash : Text → Z)
    (intro trans zargs grps nzargs faq : list GraphNode.Init.t) :
  ∃ g, ArgumentGraph.from_records hash intro trans zargs grps nzargs faq = Some g ∧
       ∀ a f,
         (∀ y, y ∈ GraphNode.links f (ArgumentGraph.node g a) →
               a ∈ ArgumentGraph.all_nodes g ∧ y ∈ ArgumentGraph.all_nodes g)
         ∧ (∀ y z, y ∈ GraphNode.links f (ArgumentGraph.node g a) →
                   z ∈ GraphNode.links f (ArgumentGraph.node g a) →
                   GraphNode.__eq__ hash (ArgumentGraph.node g y)
                     (GraphNode.Node (ArgumentGraph.node g z)) = true →
                   y = z)
         ∧ (length (GraphNode.parent_nodes (ArgumentGraph.node g a))
            ≤ length (GraphNode.parents (ArgumentGraph.node g a)))%nat
         ∧ (length (GraphNode.group_nodes (ArgumentGraph.node g a))
            ≤ length (GraphNode.groups (ArgumentGraph.node g a)))%nat.
Proof.
  destruct (from_records_built hash intro trans zargs grps nzargs faq)
    as (g & Hg & Hb & _).
  exists g. split; [done|]. intros a f.
  assert (∀ f', NoDup (GraphNode.hash_at hash (ArgumentGraph.store g)
                         <$> GraphNode.links f' (ArgumentGraph.node g a))) as Hkeys.
  { intros f'. by eapply from_records_keys_NoDup. }
  assert (∀ f' y, y ∈ GraphNode.links f' (ArgumentGraph.node g a) →
                  a ∈ ArgumentGraph.all_nodes g ∧ y ∈ ArgumentGraph.all_nodes g)
    as Hin.
  { intros f' y Hy. apply (edge_in hash g f' a y Hb), (built_stored _ _ Hb), Hy. }
  split; [apply Hin|]. split.
  - intros y z Hy Hz Heq. apply Z.eqb_eq in Heq.
    exact (NoDup_fmap_inj _ _ y z (Hkeys f) Hy Hz Heq).
  - assert (∀ f' labels,
              (∀ y, edge g f' a y → declares g labels a y) →
              (a ∈ ArgumentGraph.all_nodes g →
               NoDup (labels (ArgumentGraph.node g a))) →
              (length (GraphNode.links f' (ArgumentGraph.node g a))
               ≤ length (labels (ArgumentGraph.node g a)))%nat) as Hcount.
    { intros f' labels Hedge Hnd.
      destruct (GraphNode.links f' (ArgumentGraph.node g a)) as [|y ys] eqn:Hl;
        [simpl; lia|].
      rewrite <-Hl. apply (declared_count hash g labels f' a Hb Hedge (Hkeys f')).
      apply Hnd. apply (Hin f' y). rewrite Hl. apply list_elem_of_here. }
    split.
    + apply (Hcount GraphNode.Parent GraphNode.parents); [done|].
      intros Ha. apply (built_labels_NoDup hash g a Hb Ha).
    + apply (Hcount GraphNode.Group GraphNode.groups); [done|].
      intros Ha. apply (built_labels_NoDup hash g a Hb Ha).
Qed.

(** X15.  What [_check_constraints] asserts holds in every constructed
    graph, with or without nodes that share a label, so none of its
    assertions can fail: a node is [in] the [child_nodes] of each of its
    parent nodes, [in] the [parent_nodes] of each of its child nodes, [in]
    the [group_member_nodes] of each of its group nodes, [in] the
    [group_nodes] of each of its group member nodes, and [in] the
    [similar_nodes] of each of its similar nodes. *)
Theorem check_constraints_hold (hash : Text → Z)
    (intro trans zargs grps nzargs faq : list GraphNode.Init.t) :
  ∃ g, ArgumentGraph.from_records hash intro trans zargs grps nzargs faq = Some g
       ∧ ArgumentGraph._check_constraints hash g = true
       ∧ ∀ node other,
           (other ∈ GraphNode.parent_nodes (ArgumentGraph.node g node) →
            ArgumentGraph.is_in hash g node GraphNode.Child other = true)
           ∧ (other ∈ GraphNode.child_nodes (ArgumentGraph.node g node) →
              ArgumentGraph.is_in hash g node GraphNode.Parent other = true)
           ∧ (other ∈ GraphNode.group_nodes (ArgumentGraph.node g node) →
              ArgumentGraph.is_in hash g node GraphNode.GroupMember other = true)
           ∧ (other ∈ GraphNode.group_member_nodes (ArgumentGraph.node g node) →
              ArgumentGraph.is_in hash g node GraphNode.Group other = true)
           ∧ (other ∈ GraphNode.similar_nodes (ArgumentGraph.node g node) →
              ArgumentGraph.is_in hash g node GraphNode.Similar other = true).
Proof.
  destruct (from_records_built hash intro trans zargs grps nzargs faq)
    as (g & Hg & Hb & _).
  exists g. split; [done|]. split; [by apply check_constraints_built|].
  intros node other. split; [|split; [|split; [|split]]].
  - exact (check_links hash g GraphNode.Parent node other Hb).
  - exact (check_links hash g GraphNode.Child node other Hb).
  - exact (check_links hash g GraphNode.Group node other Hb).
  - exact (check_links hash g GraphNode.GroupMember node other Hb).
  - exact (check_links hash g GraphNode.Similar node other Hb).
Qed.

(** ** Label sets and the label index *)

Lemma elem_of_label_set (g : ArgumentGraph.t) (nodes : list ref) (l : Text) :
  l ∈ ArgumentGraph._label_set_from_nodes g nodes ↔
  ∃ r, r ∈ nodes ∧ GraphNode.label (ArgumentGraph.node g r) = l.
Proof.
  unfold ArgumentGraph._label_set_from_nodes, Text.set.
  rewrite elem_of_remove_dups, list_elem_of_fmap.
  split; intros (r & H1 & H2); exists r; done.
Qed.

Lemma label_set_mono (g : ArgumentGraph.t) (nodes nodes' : list ref) :
  nodes ⊆ nodes' →
  ArgumentGraph._label_set_from_nodes g nodes
  ⊆ ArgumentGraph._label_set_from_nodes g nodes'.
Proof.
  intros Hsub l (r & Hr & Hl)%elem_of_label_set. apply elem_of_label_set.
  exists r. split; [by apply Hsub|done].
Qed.

Lemma node_set_subseteq (hash : Text → Z) (g : ArgumentGraph.t) (nodes : list ref) :
  ArgumentGraph.node_set hash g nodes ⊆ nodes.
Proof.
  intros r Hr. apply elem_of_update in Hr as [Hr|Hr]; [|done].
  by apply elem_of_nil in Hr.
Qed.

Ltac solve_nodes :=
  let r := fresh "r" in
  let Hr := fresh "Hr" in
  intros r Hr;
  unfold ArgumentGraph.primary_z_nodes, ArgumentGraph.first_level_z_nodes in *;
  repeat match goal with
         | H : _ ∈ ArgumentGraph.node_set _ _ _ |- _ => apply node_set_subseteq in H
         end;
  unfold ArgumentGraph.all_nodes, ArgumentGraph.arguments_nodes,
    ArgumentGraph.user_intent_nodes, ArgumentGraph.user_arguments_nodes,
    ArgumentGraph.nz_arguments_first_level_nodes, ArgumentGraph.faq_question_nodes,
    ArgumentGraph.faq_answer_nodes, ArgumentGraph.z_nodes, ArgumentGraph.nz_nodes,
    ArgumentGraph.z_group_nodes, ArgumentGraph.nz_group_nodes,
    ArgumentGraph.faq_group_nodes, ArgumentGraph.paraphrase_introduction_nodes,
    ArgumentGraph.all_nodes in *;
  rewrite ?elem_of_app, ?list_elem_of_filter, ?elem_of_app in *; tauto.

(** X16.  In every constructed graph, [get_node_for_label] finds a node
    exactly for the labels of [all_labels], and the node it finds is a node
    of the graph that carries the label.  Every other label set of the
    graph is part of [all_labels], so each of its labels resolves. *)
Theorem labels_resolve (hash : Text → Z)
    (intro trans zargs grps nzargs faq : list GraphNode.Init.t) :
  ∃ g, ArgumentGraph.from_records hash intro trans zargs grps nzargs faq = Some g
       ∧ (∀ l, l ∈ ArgumentGraph.all_labels g ↔
               is_Some (ArgumentGraph.get_node_for_label g l))
       ∧ (∀ l r, ArgumentGraph.get_node_for_label g l = Some r →
                 r ∈ ArgumentGraph.all_nodes g
                 ∧ GraphNode.label (ArgumentGraph.node g r) = l)
       ∧ ∀ labels,
           labels ∈ [ArgumentGraph.introduction_labels g;
                     ArgumentGraph.transition_labels g;
                     ArgumentGraph.z_arguments_labels g;
                     ArgumentGraph.group_labels g;
                     ArgumentGraph.nz_arguments_labels g;
                     ArgumentGraph.faq_labels g;
                     ArgumentGraph.arguments_labels g;
                     ArgumentGraph.user_arguments_labels g;
                     ArgumentGraph.user_intent_labels g;
                     ArgumentGraph.faq_question_labels g;
                     ArgumentGraph.z_labels g;
                     ArgumentGraph.nz_labels g;
                     ArgumentGraph.z_group_labels g;
                     ArgumentGraph.nz_group_labels g;
                     ArgumentGraph.faq_group_labels g;
                     ArgumentGraph.primary_z_labels hash g] →
           labels ⊆ ArgumentGraph.all_labels g.
Proof.
  destruct (from_records_built hash intro trans zargs grps nzargs faq)
    as (g & Hg & Hb & _).
  exists g. split; [done|]. split; [|split].
  - intros l. unfold ArgumentGraph.all_labels. rewrite elem_of_label_set. split.
    + intros (r & Hr & Hl).
      destruct (ArgumentGraph.get_node_for_label g l) as [r'|] eqn:Hget; [done|].
      by destruct (proj1 (get_node_for_label_None hash g l Hb) Hget r Hr).
    + intros [r Hget]. exists r. by apply (get_node_for_label_Some hash g l r Hb).
  - intros l r. by apply (get_node_for_label_Some hash).
  - intros labels Hin. unfold ArgumentGraph.all_labels.
    repeat (apply elem_of_cons in Hin as [->|Hin]; [apply label_set_mono; solve_nodes|]).
    by apply elem_of_nil in Hin.
Qed.

(** ** Counter-arguments and FAQ pairs, in terms of the labels *)

Lemma filter_ext_in {A} (P Q : A → Prop) `{∀ x, Decision (P x)}
    `{∀ x, Decision (Q x)} (l : list A) :
  (∀ x, x ∈ l → P x ↔ Q x) → filter P l = filter Q l.
Proof.
  induction l as [|x l IH]; intros Hl; [done|].
  rewrite !filter_cons, IH by (intros y Hy; by apply Hl, list_elem_of_further).
  pose proof (Hl x (list_elem_of_here _ _)).
  destruct (decide (P x)), (decide (Q x)); tauto.
Qed.

Section LabelFacts.
Variable hash : Text → Z.
Variable g : ArgumentGraph.t.
Hypothesis g_built : built hash g.

(** A link set is empty exactly when none of the labels that feed it
    resolves. *)
Lemma parent_nodes_nil (a : ref) :
  a ∈ ArgumentGraph.all_nodes g →
  GraphNode.parent_nodes (ArgumentGraph.node g a) ≠ [] ↔
  Exists (λ l, is_Some (ArgumentGraph.get_node_for_label g l))
         (GraphNode.parents (ArgumentGraph.node g a)).
Proof.
  intros Ha. rewrite Exists_exists. split.
  - intros Hne.
    destruct (GraphNode.parent_nodes (ArgumentGraph.node g a)) as [|y ys] eqn:Hp;
      [done|].
    assert (y ∈ GraphNode.links GraphNode.Parent (ArgumentGraph.node g a)) as Hy
      by (simpl; rewrite Hp; apply list_elem_of_here).
    apply (built_stored _ _ g_built) in Hy as (_ & l & Hl & Hget).
    exists l. by rewrite Hget.
  - intros (l & Hl & [q Hget]).
    assert (ArgumentGraph.is_in hash g q GraphNode.Parent a = true) as Hin.
    { apply (built_mem _ _ g_built); [done|]. exists q. split; [|done].
      split; [done|]. by exists l. }
    apply mem_spec in Hin as (y & Hy & _). simpl in Hy. intros He.
    rewrite He in Hy. by apply elem_of_nil in Hy.
Qed.

(** The nodes stored as children of a node name its label as parent. *)
Lemma child_names_parent (r c : ref) :
  c ∈ GraphNode.child_nodes (ArgumentGraph.node g r) →
  c ∈ ArgumentGraph.all_nodes g
  ∧ GraphNode.label (ArgumentGraph.node g r) ∈ GraphNode.parents (ArgumentGraph.node g c).
Proof.
  intros Hc.
  apply (built_stored _ _ g_built GraphNode.Child) in Hc as (Hin & l & Hl & Hget).
  split; [done|].
  by destruct (get_node_for_label_Some hash g l r g_built Hget) as [_ ->].
Qed.

Lemma member_names_group (r c : ref) :
  c ∈ GraphNode.group_member_nodes (ArgumentGraph.node g r) →
  c ∈ ArgumentGraph.all_nodes g
  ∧ GraphNode.label (ArgumentGraph.node g r) ∈ GraphNode.groups (ArgumentGraph.node g c).
Proof.
  intros Hc.
  apply (built_stored _ _ g_built GraphNode.GroupMember) in Hc as (Hin & l & Hl & Hget).
  split; [done|].
  by destruct (get_node_for_label_Some hash g l r g_built Hget) as [_ ->].
Qed.
End LabelFacts.

(** X17.  In every constructed graph, a set [get_counter_args] returns
    for a label is not empty and holds only nodes of the graph that name
    this label among their parents; and when the label resolves, every node
    of the graph that names it among its parents is [in] the set returned
    (the node itself, or a node equal to it). *)
Theorem counter_args_name_label (hash : Text → Z)
    (intro trans zargs grps nzargs faq : list GraphNode.Init.t) :
  ∃ g, ArgumentGraph.from_records hash intro trans zargs grps nzargs faq = Some g ∧
       ∀ l,
         (∀ cs, ArgumentGraph.get_counter_args g l = Some cs →
                cs ≠ []
                ∧ ∀ c, c ∈ cs →
                       c ∈ ArgumentGraph.all_nodes g
                       ∧ l ∈ GraphNode.parents (ArgumentGraph.node g c))
         ∧ (∀ c, c ∈ ArgumentGraph.all_nodes g →
                 l ∈ GraphNode.parents (ArgumentGraph.node g c) →
                 is_Some (ArgumentGraph.get_node_for_label g l) →
                 ∃ cs, ArgumentGraph.get_counter_args g l = Some cs
                       ∧ NodeSet.mem (GraphNode.hash_at hash (ArgumentGraph.store g))
                                     c cs = true).
Proof.
  destruct (from_records_built hash intro trans zargs grps nzargs faq)
    as (g & Hg & Hb & _).
  exists g. split; [done|]. intros l. unfold ArgumentGraph.get_counter_args. split.
  - intros cs Hcs.
    destruct (ArgumentGraph.get_node_for_label g l) as [r|] eqn:Hget; [|done].
    destruct (get_node_for_label_Some hash g l r Hb Hget) as [Hr Hl].
    case_bool_decide as Hlen; [|done]. injection Hcs as <-. split.
    + intros He. rewrite He in Hlen. simpl in Hlen. lia.
    + intros c Hc. rewrite <-Hl. by apply (child_names_parent hash).
  - intros c Hc Hl [r Hget]. rewrite Hget.
    destruct (get_node_for_label_Some hash g l r Hb Hget) as [Hr _].
    assert (ArgumentGraph.is_in hash g c GraphNode.Child r = true) as Hin.
    { apply (built_mem _ _ Hb); [done|]. exists c. split; [|done].
      split; [done|]. by exists l. }
    unfold ArgumentGraph.is_in in Hin. simpl in Hin.
    rewrite bool_decide_true; [by eexists|].
    apply mem_spec in Hin as (y & Hy & _).
    destruct (GraphNode.child_nodes (ArgumentGraph.node g r));
      [by apply elem_of_nil in Hy|simpl; lia].
Qed.

Lemma faq_pair_answers (g : ArgumentGraph.t) (l : list ref) :
  (λ qa : ref * ref, qa.2) <$> omap (faq_pair g) l =
  filter (λ a, GraphNode.parent_nodes (ArgumentGraph.node g a) ≠ []) l.
Proof.
  induction l as [|a l IH]; [done|]. cbn [omap list_omap]. unfold faq_pair at 1.
  destruct (GraphNode.parent_nodes (ArgumentGraph.node g a)) as [|q qs] eqn:Hp.
  - rewrite filter_cons_False by (by rewrite Hp; intros ?). exact IH.
  - rewrite filter_cons_True by (by rewrite Hp). cbn [head fmap option_fmap option_map].
    by rewrite fmap_cons, IH.
Qed.

(** X18.  In every constructed graph, the answers of [faq_node_pairs]
    are, in the order of [faq_nodes] and each once, the FAQ nodes that have
    a parent label that resolves: an FAQ node without parent labels, or
    whose parent labels all name no node, gets no pair.  The question of a
    pair is a node of the graph that one of the answer's parent labels
    resolves to.  [get_faq_list] has one entry for each pair. *)
Theorem faq_node_pairs_answers (hash : Text → Z)
    (intro trans zargs grps nzargs faq : list GraphNode.Init.t) :
  ∃ g, ArgumentGraph.from_records hash intro trans zargs grps nzargs faq = Some g
       ∧ (λ qa : ref * ref, qa.2) <$> ArgumentGraph.faq_node_pairs g =
           filter (λ a, Exists (λ l, is_Some (ArgumentGraph.get_node_for_label g l))
                               (GraphNode.parents (ArgumentGraph.node g a)))
                  (ArgumentGraph.faq_nodes g)
       ∧ (∀ q a, (q, a) ∈ ArgumentGraph.faq_node_pairs g →
                 q ∈ ArgumentGraph.all_nodes g
                 ∧ ∃ l, l ∈ GraphNode.parents (ArgumentGraph.node g a)
                        ∧ ArgumentGraph.get_node_for_label g l = Some q)
       ∧ length (ArgumentGraph.get_faq_list g) =
           length (ArgumentGraph.faq_node_pairs g).
Proof.
  destruct (from_records_built hash intro trans zargs grps nzargs faq)
    as (g & Hg & Hb & _).
  exists g. split; [done|].
  assert (∀ r, r ∈ ArgumentGraph.faq_nodes g → r ∈ ArgumentGraph.all_nodes g) as Hall.
  { intros r Hr. unfold ArgumentGraph.all_nodes. rewrite !elem_of_app. tauto. }
  split; [|split].
  - rewrite faq_node_pairs_omap, faq_pair_answers.
    unfold ArgumentGraph.faq_answer_nodes. rewrite list_filter_filter.
    apply filter_ext_in. intros a Ha.
    rewrite (parent_nodes_nil hash g Hb a (Hall a Ha)).
    unfold GraphNode.has_parent_labels. rewrite bool_decide_eq_true.
    split; [tauto|]. intros Hex. split; [done|].
    apply Exists_exists in Hex as (l & Hl & _).
    destruct (GraphNode.parents (ArgumentGraph.node g a));
      [by apply elem_of_nil in Hl|simpl; lia].
  - intros q a (Ha & _ & Hq)%elem_of_faq_node_pairs.
    assert (q ∈ GraphNode.links GraphNode.Parent (ArgumentGraph.node g a)) as Hin
      by (by apply head_Some_elem_of).
    pose proof (built_stored _ _ Hb _ _ _ Hin) as He.
    split; [by destruct (edge_in hash g _ a q Hb He)|].
    by destruct He as (_ & l & Hl & Hget); exists l.
  - unfold ArgumentGraph.get_faq_list. apply length_fmap.
Qed.

(** ** The label views of a node *)

(** X19.  In every constructed graph, the label view [children] of a node
    holds one label for each of its child nodes, so [has_child_labels]
    agrees with [has_child_nodes]; and each of these labels is the label of
    a node of the graph that names the node's label among its parents.
    Likewise for [group_members], [has_group_member_labels] and the nodes
    that name the node's label among their groups. *)
Theorem children_labels (hash : Text → Z)
    (intro trans zargs grps nzargs faq : list GraphNode.Init.t) :
  ∃ g, ArgumentGraph.from_records hash intro trans zargs grps nzargs faq = Some g ∧
       ∀ P,
         let st := ArgumentGraph.store g in
         let node := ArgumentGraph.node g P in
         length (GraphNode.children st node) = length (GraphNode.child_nodes node)
         ∧ GraphNode.has_child_labels st node = GraphNode.has_child_nodes node
         ∧ length (GraphNode.group_members st node) =
             length (GraphNode.group_member_nodes node)
         ∧ GraphNode.has_group_member_labels st node =
             GraphNode.has_group_member_nodes node
         ∧ (∀ l, l ∈ GraphNode.children st node →
                 ∃ N, N ∈ ArgumentGraph.all_nodes g
                      ∧ GraphNode.label (ArgumentGraph.node g N) = l
                      ∧ GraphNode.label node ∈ GraphNode.parents (ArgumentGraph.node g N))
         ∧ (∀ l, l ∈ GraphNode.group_members st node →
                 ∃ N, N ∈ ArgumentGraph.all_nodes g
                      ∧ GraphNode.label (ArgumentGraph.node g N) = l
                      ∧ GraphNode.label node ∈ GraphNode.groups (ArgumentGraph.node g N)).
Proof.
  destruct (from_records_built hash intro trans zargs grps nzargs faq)
    as (g & Hg & Hb & _).
  exists g. split; [done|]. intros P st node.
  assert (∀ f, Text.set ((λ r, GraphNode.label (st !!! r))
                           <$> GraphNode.links f node) =
               (λ r, GraphNode.label (st !!! r)) <$> GraphNode.links f node) as Hset.
  { intros f. apply remove_dups_NoDup, (keys_NoDup_labels hash).
    by eapply from_records_keys_NoDup. }
  unfold GraphNode.has_child_labels, GraphNode.has_group_member_labels,
    GraphNode.has_child_nodes, GraphNode.has_group_member_nodes,
    GraphNode.children, GraphNode.group_members.
  pose proof (Hset GraphNode.Child) as Hc.
  pose proof (Hset GraphNode.GroupMember) as Hm.
  cbn [GraphNode.links] in Hc, Hm. rewrite Hc, Hm, !length_fmap.
  split; [done|]. split; [done|]. split; [done|]. split; [done|]. split.
  - intros l (N & -> & HN)%list_elem_of_fmap. exists N.
    destruct (child_names_parent hash g Hb P N HN) as [? ?]. done.
  - intros l (N & -> & HN)%list_elem_of_fmap. exists N.
    destruct (member_names_group hash g Hb P N HN) as [? ?]. done.
Qed.

(** ** The link sets of a graph without equal nodes *)

Section ExactFacts.
Variable hash : Text → Z.
Variable g : ArgumentGraph.t.
Hypothesis g_built : built hash g.
Hypothesis g_distinct : distinct_nodes hash g.

Lemma declares_label (labels : GraphNode.t → list Text) (N P : ref) :
  N ∈ ArgumentGraph.all_nodes g → P ∈ ArgumentGraph.all_nodes g →
  declares g labels N P ↔
  GraphNode.label (ArgumentGraph.node g P) ∈ labels (ArgumentGraph.node g N).
Proof.
  intros HN HP. split.
  - intros (_ & l & Hl & Hget).
    by destruct (get_node_for_label_Some hash g l P g_built Hget) as [_ ->].
  - intros Hl. split; [done|]. eexists. split; [exact Hl|].
    by apply (distinct_resolves hash).
Qed.

Lemma stored_edge (f : GraphNode.link) (N P : ref) :
  N ∈ ArgumentGraph.all_nodes g → P ∈ ArgumentGraph.all_nodes g →
  P ∈ GraphNode.links f (ArgumentGraph.node g N) ↔ edge g f N P.
Proof.
  intros HN HP.
  by rewrite <-(is_in_stored hash g f N P), (is_in_edge hash g f N P).
Qed.
End ExactFacts.

(** X20.  In a constructed graph in which no two distinct nodes compare
    equal, the link sets are exactly what the labels say.  For nodes [N]
    and [P] of the graph: [P] is a parent node of [N], and [N] a child node
    of [P], exactly when [N] names the label of [P] among its parents;
    [P] is a group node of [N], and [N] a group member node of [P], exactly
    when [N] names the label of [P] among its groups; and [P] is a similar
    node of [N] exactly when one of the two names the label of the other
    among its similars. *)
Theorem link_sets_exact (hash : Text → Z)
    (intro trans zargs grps nzargs faq : list GraphNode.Init.t)
    (g : ArgumentGraph.t) (N P : ref) :
  ArgumentGraph.from_records hash intro trans zargs grps nzargs faq = Some g →
  distinct_nodes hash g →
  N ∈ ArgumentGraph.all_nodes g → P ∈ ArgumentGraph.all_nodes g →
  let label r := GraphNode.label (ArgumentGraph.node g r) in
  (P ∈ GraphNode.parent_nodes (ArgumentGraph.node g N) ↔
     label P ∈ GraphNode.parents (ArgumentGraph.node g N))
  ∧ (N ∈ GraphNode.child_nodes (ArgumentGraph.node g P) ↔
       label P ∈ GraphNode.parents (ArgumentGraph.node g N))
  ∧ (P ∈ GraphNode.group_nodes (ArgumentGraph.node g N) ↔
       label P ∈ GraphNode.groups (ArgumentGraph.node g N))
  ∧ (N ∈ GraphNode.group_member_nodes (ArgumentGraph.node g P) ↔
       label P ∈ GraphNode.groups (ArgumentGraph.node g N))
  ∧ (P ∈ GraphNode.similar_nodes (ArgumentGraph.node g N) ↔
       label P ∈ GraphNode.similars (ArgumentGraph.node g N)
       ∨ label N ∈ GraphNode.similars (ArgumentGraph.node g P)).
Proof.
  intros Hg Hd HN HP label.
  destruct (from_records_built hash intro trans zargs grps nzargs faq)
    as (g' & Hg' & Hb & _).
  assert (g' = g) as -> by congruence.
  pose proof (stored_edge hash g Hb Hd GraphNode.Parent N P HN HP) as H1.
  pose proof (stored_edge hash g Hb Hd GraphNode.Child P N HP HN) as H2.
  pose proof (stored_edge hash g Hb Hd GraphNode.Group N P HN HP) as H3.
  pose proof (stored_edge hash g Hb Hd GraphNode.GroupMember P N HP HN) as H4.
  pose proof (stored_edge hash g Hb Hd GraphNode.Similar N P HN HP) as H5.
  cbn [GraphNode.links edge] in H1, H2, H3, H4, H5.
  rewrite (declares_label hash g Hb Hd GraphNode.parents N P HN HP) in H1, H2.
  rewrite (declares_label hash g Hb Hd GraphNode.groups N P HN HP) in H3, H4.
  rewrite (declares_label hash g Hb Hd GraphNode.similars N P HN HP),
    (declares_label hash g Hb Hd GraphNode.similars P N HP HN) in H5.
  done.
Qed.

(** ** The node views of a graph *)

Lemma filter_sublist {A} (P : A → Prop) `{∀ x, Decision (P x)} (l k : list A) :
  l `sublist_of` k → filter P l `sublist_of` filter P k.
Proof.
  induction 1 as [|x l k Hlk IH|x l k Hlk IH]; [done|..]; rewrite !filter_cons.
  - destruct (decide (P x)); [by apply sublist_skip|done].
  - destruct (decide (P x)); [by apply sublist_cons|done].
Qed.

(** X21.  How the node views of a graph fit together, for every graph.
    The FAQ questions and the FAQ answers split [faq_nodes]: every FAQ node
    is one or the other and none is both.  Each view keeps the order of the
    list it is taken from and repeats no entry of it: the user arguments
    are among the arguments, the arguments and the user intents among all
    nodes, the paraphrase introductions among the introductions, the z and
    nz nodes among all nodes, the z, nz and FAQ group nodes among the group
    nodes, and the z group nodes among the z nodes.  No node is both a z
    and an nz node. *)
Theorem node_views_fit (g : ArgumentGraph.t) :
  ArgumentGraph.faq_question_nodes g ++ ArgumentGraph.faq_answer_nodes g
    ≡ₚ ArgumentGraph.faq_nodes g
  ∧ (∀ r, r ∈ ArgumentGraph.faq_question_nodes g →
          r ∉ ArgumentGraph.faq_answer_nodes g)
  ∧ ArgumentGraph.user_arguments_nodes g `sublist_of` ArgumentGraph.arguments_nodes g
  ∧ ArgumentGraph.arguments_nodes g `sublist_of` ArgumentGraph.all_nodes g
  ∧ ArgumentGraph.user_intent_nodes g `sublist_of` ArgumentGraph.all_nodes g
  ∧ ArgumentGraph.paraphrase_introduction_nodes g
      `sublist_of` ArgumentGraph.introduction_nodes g
  ∧ ArgumentGraph.z_nodes g `sublist_of` ArgumentGraph.all_nodes g
  ∧ ArgumentGraph.nz_nodes g `sublist_of` ArgumentGraph.all_nodes g
  ∧ (∀ r, r ∈ ArgumentGraph.z_nodes g → r ∉ ArgumentGraph.nz_nodes g)
  ∧ ArgumentGraph.z_group_nodes g `sublist_of` ArgumentGraph.group_nodes g
  ∧ ArgumentGraph.nz_group_nodes g `sublist_of` ArgumentGraph.group_nodes g
  ∧ ArgumentGraph.faq_group_nodes g `sublist_of` ArgumentGraph.group_nodes g
  ∧ ArgumentGraph.z_group_nodes g `sublist_of` ArgumentGraph.z_nodes g
  ∧ ArgumentGraph.nz_group_nodes g `sublist_of` ArgumentGraph.nz_nodes g.
Proof.
  unfold ArgumentGraph.faq_question_nodes, ArgumentGraph.faq_answer_nodes,
    ArgumentGraph.user_intent_nodes, ArgumentGraph.user_arguments_nodes,
    ArgumentGraph.arguments_nodes, ArgumentGraph.nz_arguments_first_level_nodes,
    ArgumentGraph.paraphrase_introduction_nodes, ArgumentGraph.z_nodes,
    ArgumentGraph.nz_nodes, ArgumentGraph.z_group_nodes,
    ArgumentGraph.nz_group_nodes, ArgumentGraph.faq_group_nodes,
    ArgumentGraph.all_nodes.
  assert (∀ (P : ref → Prop) `{∀ r, Decision (P r)},
            filter P (ArgumentGraph.group_nodes g)
            `sublist_of`
            filter P (ArgumentGraph.introduction_nodes g
                      ++ ArgumentGraph.transition_nodes g
                      ++ ArgumentGraph.z_arguments_nodes g
                      ++ ArgumentGraph.group_nodes g
                      ++ ArgumentGraph.nz_arguments_nodes g
                      ++ ArgumentGraph.faq_nodes g)) as Hgrp.
  { intros P HP. apply filter_sublist.
    do 3 apply sublist_inserts_l. by apply sublist_inserts_r. }
  repeat split; try apply sublist_filter; try apply Hgrp.
  - rewrite <-(filter_app_complement
                 (λ r, GraphNode.has_parent_labels (ArgumentGraph.node g r) = false)
                 (ArgumentGraph.faq_nodes g)) at 3.
    f_equiv. erewrite list_filter_iff; [done|]. intros r. simpl.
    destruct (GraphNode.has_parent_labels (ArgumentGraph.node g r)); split;
      congruence.
  - intros r [Hq _]%list_elem_of_filter [Ha _]%list_elem_of_filter. congruence.
  - apply sublist_app; [done|apply sublist_filter].
  - do 2 apply sublist_inserts_l. apply sublist_app; [done|].
    apply sublist_inserts_l. by apply sublist_inserts_r.
  - do 2 apply sublist_inserts_l. rewrite <-app_assoc.
    apply sublist_app; [done|]. apply sublist_inserts_l.
    apply sublist_app; apply sublist_filter.
  - intros r [Hz _]%list_elem_of_filter [Hnz _]%list_elem_of_filter. congruence.
Qed.

(** ** First-level z nodes and the argument counts *)

Section CountFacts.
Variable hash : Text → Z.
Variable g : ArgumentGraph.t.

Lemma first_level_keys_NoDup :
  NoDup (GraphNode.hash_at hash (ArgumentGraph.store g)
           <$> ArgumentGraph.first_level_z_nodes hash g).
Proof. apply update_keys_NoDup, NoDup_nil_2. Qed.

Lemma node_set_filter (P : ref → Prop) `{∀ r, Decision (P r)} (s : list ref) :
  NoDup (GraphNode.hash_at hash (ArgumentGraph.store g) <$> s) →
  ArgumentGraph.node_set hash g (filter P s) = filter P s.
Proof.
  intros Hs. apply node_set_keys_distinct.
  eapply sublist_NoDup; [exact Hs|]. apply fmap_sublist, sublist_filter.
Qed.

Lemma stance_count (s : list ref) :
  (length (filter (λ r, GraphNode.stance (ArgumentGraph.node g r) = Stance.PRO) s)
   + length (filter (λ r, GraphNode.stance (ArgumentGraph.node g r) = Stance.CON) s)
   + length (filter (λ r, GraphNode.stance (ArgumentGraph.node g r) = Stance.OTHER) s)
   = length s)%nat.
Proof.
  induction s as [|r s IH]; [done|]. rewrite !filter_cons.
  destruct (GraphNode.stance (ArgumentGraph.node g r)); simpl; lia.
Qed.
End CountFacts.

(** X22.  For every graph: [first_level_z_nodes] holds z nodes without
    parent labels only, no two of them equal, and every z node without
    parent labels is [in] it.  [get_num_arguments_pro] and
    [get_num_arguments_con] count its nodes of stance [PRO] and [CON]:
    together they never exceed the number of first-level z nodes, and they
    add up to it exactly when none of these nodes has the stance
    [OTHER]. *)
Theorem num_arguments_count (hash : Text → Z) (g : ArgumentGraph.t) :
  let key := GraphNode.hash_at hash (ArgumentGraph.store g) in
  let first_level := ArgumentGraph.first_level_z_nodes hash g in
  (∀ r, r ∈ first_level →
        r ∈ ArgumentGraph.z_nodes g
        ∧ GraphNode.parents (ArgumentGraph.node g r) = [])
  ∧ (∀ r, r ∈ ArgumentGraph.z_nodes g →
          GraphNode.parents (ArgumentGraph.node g r) = [] →
          NodeSet.mem key r first_level = true)
  ∧ NoDup (key <$> first_level)
  ∧ ArgumentGraph.get_num_arguments_pro hash g =
      length (filter (λ r, GraphNode.stance (ArgumentGraph.node g r) = Stance.PRO)
                     first_level)
  ∧ ArgumentGraph.get_num_arguments_con hash g =
      length (filter (λ r, GraphNode.stance (ArgumentGraph.node g r) = Stance.CON)
                     first_level)
  ∧ (ArgumentGraph.get_num_arguments_pro hash g
     + ArgumentGraph.get_num_arguments_con hash g ≤ length first_level)%nat
  ∧ ((ArgumentGraph.get_num_arguments_pro hash g
      + ArgumentGraph.get_num_arguments_con hash g = length first_level)%nat
     ↔ ∀ r, r ∈ first_level →
            GraphNode.stance (ArgumentGraph.node g r) ≠ Stance.OTHER).
Proof.
  intros key first_level.
  assert (∀ r, GraphNode.has_parent_labels (ArgumentGraph.node g r) = false ↔
               GraphNode.parents (ArgumentGraph.node g r) = []) as Hpl.
  { intros r. unfold GraphNode.has_parent_labels. rewrite bool_decide_eq_false.
    destruct (GraphNode.parents (ArgumentGraph.node g r)); simpl; split;
      try done; lia. }
  pose proof (first_level_keys_NoDup hash g) as Hkeys. fold key first_level in Hkeys.
  split; [|split; [|split; [exact Hkeys|]]].
  - intros r Hr%node_set_subseteq. apply list_elem_of_filter in Hr as [Hp Hz].
    split; [done|]. by apply Hpl.
  - intros r Hz Hp. unfold first_level, ArgumentGraph.first_level_z_nodes,
      ArgumentGraph.node_set. apply mem_update. right. apply mem_elem_of.
    apply list_elem_of_filter. split; [by apply Hpl|done].
  - unfold ArgumentGraph.get_num_arguments_pro, ArgumentGraph.get_num_arguments_con.
    fold first_level. rewrite !(node_set_filter hash g) by exact Hkeys.
    pose proof (stance_count g first_level) as Hcount.
    split; [done|]. split; [done|]. split; [lia|]. split.
    + intros Hsum r Hr Hother.
      assert (r ∈ filter (λ r, GraphNode.stance (ArgumentGraph.node g r) = Stance.OTHER)
                         first_level) as Hin by (by apply list_elem_of_filter).
      destruct (filter (λ r, GraphNode.stance (ArgumentGraph.node g r) = Stance.OTHER)
                       first_level); [by apply elem_of_nil in Hin|].
      simpl in Hcount. lia.
    + intros Hno.
      assert (filter (λ r, GraphNode.stance (ArgumentGraph.node g r) = Stance.OTHER)
                     first_level = []) as Hnil.
      { apply elem_of_nil_inv. intros r [Ho Hr]%list_elem_of_filter.
        by apply (Hno r). }
      rewrite Hnil in Hcount. simpl in Hcount. lia.
Qed.

Section DistinctSetFacts.
Variable hash : Text → Z.
Variable g : ArgumentGraph.t.
Hypothesis g_built : built hash g.
Hypothesis g_distinct : distinct_nodes hash g.

Lemma all_nodes_NoDup : NoDup (ArgumentGraph.all_nodes g).
Proof. rewrite (built_all_nodes _ _ g_built). apply NoDup_seq. Qed.

Lemma all_nodes_keys_NoDup :
  NoDup (GraphNode.hash_at hash (ArgumentGraph.store g) <$> ArgumentGraph.all_nodes g).
Proof.
  apply NoDup_fmap_2_strong; [|apply all_nodes_NoDup].
  intros a b Ha Hb Hk. apply g_distinct; [done..|]. by apply Z.eqb_eq.
Qed.

(** [set(nodes)] loses no node of the graph. *)
Lemma node_set_distinct (nodes : list ref) :
  nodes `sublist_of` ArgumentGraph.all_nodes g →
  ArgumentGraph.node_set hash g nodes = nodes.
Proof.
  intros Hsub. apply node_set_keys_distinct.
  eapply sublist_NoDup; [apply all_nodes_keys_NoDup|]. by apply fmap_sublist.
Qed.
End DistinctSetFacts.

(** X23.  In a constructed graph in which no two distinct nodes compare
    equal, the sets of nodes lose nothing: [first_level_z_nodes] holds
    every z node without parent labels and [primary_z_nodes] every z node
    with a rating of 0 or more; [get_num_arguments_pro] is the number of
    nodes of the graph of category z, without parent labels and of stance
    [PRO], and [get_num_arguments_con] the number of those of stance [CON];
    and [primary_z_labels] holds exactly the labels of the z nodes with a
    rating of 0 or more. *)
Theorem z_node_sets_exact (hash : Text → Z)
    (intro trans zargs grps nzargs faq : list GraphNode.Init.t)
    (g : ArgumentGraph.t) :
  ArgumentGraph.from_records hash intro trans zargs grps nzargs faq = Some g →
  distinct_nodes hash g →
  ArgumentGraph.first_level_z_nodes hash g =
    filter (λ r, GraphNode.has_parent_labels (ArgumentGraph.node g r) = false)
           (ArgumentGraph.z_nodes g)
  ∧ ArgumentGraph.primary_z_nodes hash g =
      filter (λ r, 0 ≤ GraphNode.rating (ArgumentGraph.node g r))
             (ArgumentGraph.z_nodes g)
  ∧ ArgumentGraph.get_num_arguments_pro hash g =
      length (filter (λ r, GraphNode.category (ArgumentGraph.node g r)
                             = GraphNodeCategory.Z
                           ∧ GraphNode.parents (ArgumentGraph.node g r) = []
                           ∧ GraphNode.stance (ArgumentGraph.node g r) = Stance.PRO)
                     (ArgumentGraph.all_nodes g))
  ∧ ArgumentGraph.get_num_arguments_con hash g =
      length (filter (λ r, GraphNode.category (ArgumentGraph.node g r)
                             = GraphNodeCategory.Z
                           ∧ GraphNode.parents (ArgumentGraph.node g r) = []
                           ∧ GraphNode.stance (ArgumentGraph.node g r) = Stance.CON)
                     (ArgumentGraph.all_nodes g))
  ∧ ∀ l, l ∈ ArgumentGraph.primary_z_labels hash g ↔
         ∃ r, r ∈ ArgumentGraph.all_nodes g
              ∧ GraphNode.category (ArgumentGraph.node g r) = GraphNodeCategory.Z
              ∧ 0 ≤ GraphNode.rating (ArgumentGraph.node g r)
              ∧ GraphNode.label (ArgumentGraph.node g r) = l.
Proof.
  intros Hg Hd.
  destruct (from_records_built hash intro trans zargs grps nzargs faq)
    as (g' & Hg' & Hb & _).
  assert (g' = g) as -> by congruence.
  assert (∀ r, GraphNode.has_parent_labels (ArgumentGraph.node g r) = false ↔
               GraphNode.parents (ArgumentGraph.node g r) = []) as Hpl.
  { intros r. unfold GraphNode.has_parent_labels. rewrite bool_decide_eq_false.
    destruct (GraphNode.parents (ArgumentGraph.node g r)); simpl; split;
      try done; lia. }
  assert (ArgumentGraph.first_level_z_nodes hash g =
          filter (λ r, GraphNode.has_parent_labels (ArgumentGraph.node g r) = false)
                 (ArgumentGraph.z_nodes g)) as Hfirst.
  { apply (node_set_distinct hash g Hb Hd).
    etrans; [apply sublist_filter|apply sublist_filter]. }
  assert (ArgumentGraph.primary_z_nodes hash g =
          filter (λ r, 0 ≤ GraphNode.rating (ArgumentGraph.node g r))
                 (ArgumentGraph.z_nodes g)) as Hprimary.
  { apply (node_set_distinct hash g Hb Hd).
    etrans; [apply sublist_filter|apply sublist_filter]. }
  assert (∀ s : Stance.t,
            length (ArgumentGraph.node_set hash g
                      (filter (λ r, GraphNode.stance (ArgumentGraph.node g r) = s)
                              (ArgumentGraph.first_level_z_nodes hash g))) =
            length (filter (λ r, GraphNode.category (ArgumentGraph.node g r)
                                   = GraphNodeCategory.Z
                                 ∧ GraphNode.parents (ArgumentGraph.node g r) = []
                                 ∧ GraphNode.stance (ArgumentGraph.node g r) = s)
                           (ArgumentGraph.all_nodes g))) as Hcount.
  { intros s. rewrite Hfirst. rewrite (node_set_distinct hash g Hb Hd).
    - unfold ArgumentGraph.z_nodes. rewrite !list_filter_filter. f_equal.
      apply list_filter_iff. intros r. rewrite Hpl. tauto.
    - etrans; [apply sublist_filter|]. etrans; apply sublist_filter. }
  split; [exact Hfirst|]. split; [exact Hprimary|].
  split; [apply Hcount|]. split; [apply Hcount|].
  intros l. unfold ArgumentGraph.primary_z_labels.
  rewrite elem_of_label_set, Hprimary. unfold ArgumentGraph.z_nodes.
  split.
  - intros (r & Hr & Hl). apply list_elem_of_filter in Hr as [Hrate Hr].
    apply list_elem_of_filter in Hr as [Hz Hin]. by exists r.
  - intros (r & Hin & Hz & Hr & Hl). exists r. split; [|done].
    apply list_elem_of_filter. split; [done|]. by apply list_elem_of_filter.
Qed.

(** ** The transitive views *)

Lemma sublist_elem_of {A} (l k : list A) (x : A) :
  l `sublist_of` k → x ∈ l → x ∈ k.
Proof.
  induction 1 as [|y l k Hlk IH|y l k Hlk IH]; [done|..].
  - intros [->|Hx]%elem_of_cons; [apply list_elem_of_here|].
    by apply list_elem_of_further, IH.
  - intros Hx. by apply list_elem_of_further, IH.
Qed.

Lemma foldl_step {A B} (f : A → B → A) (a : A) (x : B) (l : list B) :
  foldl f a (x :: l) = foldl f (f a x) l.
Proof. done. Qed.

Section ViewFacts.
Variable hash : Text → Z.
Variable f : GraphNode.link.
Variable st : list GraphNode.t.

Lemma closure_step_Some sub_view acc l res :
  foldl (closure_step hash st sub_view) acc l = Some res → is_Some acc.
Proof.
  destruct acc; [by eexists|]. by rewrite closure_step_None.
Qed.

(** Every node of the result is reached over the links. *)
Lemma closure_sound (fuel : nat) (x : ref) (res : list ref) :
  GraphNode.closure hash f fuel st x = Some res →
  ∀ y, y ∈ res → tc (linked f st) x y.
Proof.
  revert x res. induction fuel as [|fuel IH]; intros x res Hx; [done|].
  rewrite closure_S in Hx.
  assert (∀ l acc res,
            (∀ p, p ∈ l → linked f st x p) →
            (∀ res0, acc = Some res0 → ∀ y, y ∈ res0 → tc (linked f st) x y) →
            foldl (closure_step hash st (GraphNode.closure hash f fuel st)) acc l
              = Some res →
            ∀ y, y ∈ res → tc (linked f st) x y) as Hfold.
  { clear res Hx. induction l as [|p l IHl]; intros acc res Hl Hacc Hres.
    { by apply Hacc. }
    simpl in Hres. eapply IHl; [|clear Hres|exact Hres].
    { intros q Hq. by apply Hl, list_elem_of_further. }
    intros res1 Hres1 y Hy. unfold closure_step in Hres1.
    destruct acc as [res0|]; [|done].
    destruct (NodeSet.mem _ p res0); [injection Hres1 as <-; by eapply Hacc|].
    destruct (GraphNode.closure hash f fuel st p) as [sub|] eqn:Hp; [|done].
    injection Hres1 as <-. apply elem_of_update in Hy as [Hy|Hy].
    - apply elem_of_add in Hy as [Hy| ->]; [by eapply Hacc|].
      apply tc_once, Hl, list_elem_of_here.
    - eapply tc_l; [apply Hl, list_elem_of_here|]. by eapply IH. }
  eapply Hfold; [|clear Hx|exact Hx].
  - intros p Hp. exact Hp.
  - intros res0 [= <-] y Hy. by apply elem_of_nil in Hy.
Qed.

(** The result holds no two equal nodes. *)
Lemma closure_keys_NoDup (fuel : nat) (x : ref) (res : list ref) :
  GraphNode.closure hash f fuel st x = Some res →
  NoDup (GraphNode.hash_at hash st <$> res).
Proof.
  destruct fuel as [|fuel]; [done|]. rewrite closure_S.
  generalize (GraphNode.links f (st !!! x)).
  assert (∀ l acc res,
            (∀ res0, acc = Some res0 → NoDup (GraphNode.hash_at hash st <$> res0)) →
            foldl (closure_step hash st (GraphNode.closure hash f fuel st)) acc l
              = Some res →
            NoDup (GraphNode.hash_at hash st <$> res)) as Hfold.
  { clear res. induction l as [|p l IHl]; intros acc res Hacc Hres.
    { by apply Hacc. }
    simpl in Hres. eapply IHl; [clear Hres|exact Hres].
    intros res1 Hres1. unfold closure_step in Hres1.
    destruct acc as [res0|]; [|done].
    destruct (NodeSet.mem _ p res0); [injection Hres1 as <-; by apply Hacc|].
    destruct (GraphNode.closure hash f fuel st p) as [sub|]; [|done].
    injection Hres1 as <-. by apply update_keys_NoDup, add_keys_NoDup, Hacc. }
  intros l Hres. eapply Hfold; [|exact Hres].
  intros res0 [= <-]. apply NoDup_nil_2.
Qed.

(** A larger limit on the depth of recursion does not change a result. *)
Lemma closure_S_mono (fuel : nat) (x : ref) (res : list ref) :
  GraphNode.closure hash f fuel st x = Some res →
  GraphNode.closure hash f (S fuel) st x = Some res.
Proof.
  revert x res. induction fuel as [|fuel IH]; intros x res Hx; [done|].
  rewrite closure_S in Hx. rewrite closure_S.
  revert Hx. generalize (GraphNode.links f (st !!! x)). generalize (Some (@nil ref)).
  intros acc l. revert acc. induction l as [|p l IHl]; intros acc Hres; [done|].
  rewrite foldl_step in Hres. rewrite foldl_step.
  destruct (closure_step_Some _ _ _ _ Hres) as [res1 Hres1].
  assert (closure_step hash st (GraphNode.closure hash f (S fuel) st) acc p =
          closure_step hash st (GraphNode.closure hash f fuel st) acc p) as ->;
    [|by apply IHl].
  clear Hres. unfold closure_step in *. destruct acc as [res0|]; [|done].
  destruct (NodeSet.mem _ p res0); [done|].
  destruct (GraphNode.closure hash f fuel st p) as [sub|] eqn:Hp; [|done].
  by rewrite (IH p sub Hp).
Qed.

Lemma closure_mono (fuel fuel' : nat) (x : ref) (res : list ref) :
  (fuel ≤ fuel')%nat →
  GraphNode.closure hash f fuel st x = Some res →
  GraphNode.closure hash f fuel' st x = Some res.
Proof.
  induction 1 as [|fuel' Hle IH]; [done|]. intros Hx. by apply closure_S_mono, IH.
Qed.

(** When the links go down a ranking of the nodes, the view of a node
    returns within as many nested calls as the rank of the node, plus
    one. *)
Lemma closure_ranked (rank : ref → nat) :
  (∀ a y, linked f st a y → (rank y < rank a)%nat) →
  ∀ x, is_Some (GraphNode.closure hash f (S (rank x)) st x).
Proof.
  intros Hrank.
  assert (∀ n x, (rank x ≤ n)%nat → is_Some (GraphNode.closure hash f (S n) st x))
    as Hall; [|intros x; by apply Hall].
  induction n as [|n IH]; intros x Hx; rewrite closure_S.
  - destruct (GraphNode.links f (st !!! x)) as [|p l] eqn:Hl; [by eexists|].
    assert (linked f st x p) as Hp by (unfold linked; rewrite Hl; apply list_elem_of_here).
    apply Hrank in Hp. lia.
  - assert (∀ l acc,
              (∀ p, p ∈ l → linked f st x p) → is_Some acc →
              is_Some (foldl (closure_step hash st
                                (GraphNode.closure hash f (S n) st)) acc l))
      as Hfold.
    { induction l as [|p l IHl]; intros acc Hl Hacc; [done|]. rewrite foldl_step.
      apply IHl; [intros q Hq; by apply Hl, list_elem_of_further|].
      destruct Hacc as [res0 ->]. unfold closure_step.
      destruct (NodeSet.mem _ p res0); [by eexists|].
      destruct (IH p) as [sub ->]; [|by eexists].
      pose proof (Hrank x p (Hl p (list_elem_of_here _ _))). lia. }
    apply Hfold; [by intros p Hp|by eexists].
Qed.

(** When no cycle is reached from a node, the view of the node returns
    within as many nested calls as there are nodes that can be reached,
    plus one ([l] lists these nodes). *)
Lemma closure_acyclic (k : nat) (x : ref) (l : list ref) :
  (∀ y, tc (linked f st) x y → y ∈ l) → (length l ≤ k)%nat →
  ¬ reaches_cycle f st x →
  is_Some (GraphNode.closure hash f (S k) st x).
Proof.
  revert x l. induction k as [|k IH]; intros x l Hcover Hlen Hacyclic;
    rewrite closure_S.
  - destruct (GraphNode.links f (st !!! x)) as [|p ps] eqn:Hl; [by eexists|].
    assert (p ∈ l) as Hp.
    { apply Hcover, tc_once. unfold linked. rewrite Hl. apply list_elem_of_here. }
    destruct l; [by apply elem_of_nil in Hp|simpl in Hlen; lia].
  - assert (∀ l0 acc,
              (∀ p, p ∈ l0 → linked f st x p) → is_Some acc →
              is_Some (foldl (closure_step hash st
                                (GraphNode.closure hash f (S k) st)) acc l0))
      as Hfold.
    { induction l0 as [|p l0 IHl]; intros acc Hl Hacc; [done|]. rewrite foldl_step.
      apply IHl; [intros q Hq; by apply Hl, list_elem_of_further|].
      destruct Hacc as [res0 ->]. unfold closure_step.
      destruct (NodeSet.mem _ p res0); [by eexists|].
      assert (linked f st x p) as Hxp by apply Hl, list_elem_of_here.
      destruct (IH p (filter (λ y, y ≠ p) l)) as [sub ->]; [| | |by eexists].
      - intros y Hy. apply list_elem_of_filter. split.
        + intros ->. apply Hacyclic. exists p. split; [by apply rtc_once|done].
        + apply Hcover. by eapply tc_l.
      - assert (length (filter (λ y, y ≠ p) l) < length l)%nat; [|lia].
        apply (length_filter_lt _ l p); [by apply Hcover, tc_once|].
        by intros Hne.
      - intros (c & Hpc & Hcc). apply Hacyclic. exists c.
        split; [by eapply rtc_l|done]. }
    apply Hfold; [by intros p Hp|by eexists].
Qed.
End ViewFacts.

(** The views in a graph without equal nodes. *)
Section DistinctViewFacts.
Variable hash : Text → Z.
Variable g : ArgumentGraph.t.
Variable f : GraphNode.link.
Hypothesis g_built : built hash g.
Hypothesis g_distinct : distinct_nodes hash g.

Lemma linked_in_graph (a y : ref) :
  linked f (ArgumentGraph.store g) a y →
  a ∈ ArgumentGraph.all_nodes g ∧ y ∈ ArgumentGraph.all_nodes g.
Proof.
  intros Hy. apply (built_stored _ _ g_built) in Hy.
  exact (edge_in hash g f a y g_built Hy).
Qed.

(** Membership in a set of graph nodes is membership of the node itself. *)
Lemma mem_in_graph (p : ref) (s : list ref) :
  p ∈ ArgumentGraph.all_nodes g → (∀ y, y ∈ s → y ∈ ArgumentGraph.all_nodes g) →
  NodeSet.mem (GraphNode.hash_at hash (ArgumentGraph.store g)) p s = true → p ∈ s.
Proof.
  intros Hp Hs (y & Hy & Hk)%mem_spec.
  assert (y = p) as ->; [|done].
  apply g_distinct; [by apply Hs|done|]. by apply Z.eqb_eq.
Qed.

Lemma closure_in_graph (fuel : nat) (x : ref) (res : list ref) :
  GraphNode.closure hash f fuel (ArgumentGraph.store g) x = Some res →
  ∀ y, y ∈ res → y ∈ ArgumentGraph.all_nodes g.
Proof.
  intros Hx y Hy.
  by destruct (closure_computed hash g f g_built fuel x res Hx res eq_refl y Hy).
Qed.

(** The result holds the linked nodes and is closed under the links. *)
Lemma closure_closed (fuel : nat) (x : ref) (res : list ref) :
  GraphNode.closure hash f fuel (ArgumentGraph.store g) x = Some res →
  (∀ p, linked f (ArgumentGraph.store g) x p → p ∈ res)
  ∧ (∀ y z, y ∈ res → linked f (ArgumentGraph.store g) y z → z ∈ res).
Proof.
  revert x res. induction fuel as [|fuel IH]; intros x res Hx; [done|].
  rewrite closure_S in Hx.
  assert (∀ l acc res,
            (∀ p, p ∈ l → p ∈ ArgumentGraph.all_nodes g) →
            (∀ res0, acc = Some res0 →
               (∀ y, y ∈ res0 → y ∈ ArgumentGraph.all_nodes g)
               ∧ (∀ y z, y ∈ res0 → linked f (ArgumentGraph.store g) y z → z ∈ res0)) →
            foldl (closure_step hash (ArgumentGraph.store g)
                     (GraphNode.closure hash f fuel (ArgumentGraph.store g))) acc l
              = Some res →
            (∀ p, p ∈ l → p ∈ res)
            ∧ (∀ res0, acc = Some res0 → ∀ y, y ∈ res0 → y ∈ res)
            ∧ (∀ y z, y ∈ res → linked f (ArgumentGraph.store g) y z → z ∈ res))
    as Hfold.
  { clear x res Hx. induction l as [|p l IHl]; intros acc res Hl Hacc Hres.
    { simpl in Hres. subst acc. destruct (Hacc res eq_refl) as [_ Hclosed].
      split; [by intros p Hp%elem_of_nil|]. split; [by intros res0 [= <-]|done]. }
    rewrite foldl_step in Hres.
    destruct (closure_step_Some _ _ _ _ _ _ Hres) as [res1 Hres1].
    destruct acc as [res0|]; [|done].
    destruct (Hacc res0 eq_refl) as [Hin0 Hclosed0].
    assert (p ∈ ArgumentGraph.all_nodes g) as Hp by apply Hl, list_elem_of_here.
    assert ((∀ y, y ∈ res1 → y ∈ ArgumentGraph.all_nodes g)
            ∧ (∀ y z, y ∈ res1 → linked f (ArgumentGraph.store g) y z → z ∈ res1)
            ∧ p ∈ res1 ∧ (∀ y, y ∈ res0 → y ∈ res1)) as (Hin1 & Hclosed1 & Hp1 & Hsub1).
    { unfold closure_step in Hres1.
      destruct (NodeSet.mem _ p res0) eqn:Hmem.
      { injection Hres1 as <-. split; [done|]. split; [done|].
        split; [by apply mem_in_graph|done]. }
      destruct (GraphNode.closure hash f fuel (ArgumentGraph.store g) p)
        as [sub|] eqn:Hsub; [|done].
      injection Hres1 as <-.
      destruct (IH p sub Hsub) as [Hlinks Hclosed].
      pose proof (closure_in_graph fuel p sub Hsub) as Hinsub.
      set (key := GraphNode.hash_at hash (ArgumentGraph.store g)).
      assert (∀ y, y ∈ NodeSet.update key (NodeSet.add key res0 p) sub →
                   y ∈ ArgumentGraph.all_nodes g) as Hin1.
      { intros y [Hy|Hy]%elem_of_update; [|by apply Hinsub].
        apply elem_of_add in Hy as [Hy| ->]; [by apply Hin0|done]. }
      assert (∀ y, y ∈ NodeSet.add key res0 p →
                   y ∈ NodeSet.update key (NodeSet.add key res0 p) sub) as Hadd.
      { intros y Hy. eapply sublist_elem_of; [apply update_sublist|done]. }
      assert (∀ y, y ∈ sub → y ∈ NodeSet.update key (NodeSet.add key res0 p) sub)
        as Hsubin.
      { intros y Hy. apply mem_in_graph; [by apply Hinsub|done|].
        apply mem_update. right. by apply mem_elem_of. }
      assert (∀ y, y ∈ res0 → y ∈ NodeSet.add key res0 p) as Hres0.
      { intros y Hy. eapply sublist_elem_of; [apply add_sublist|done]. }
      assert (p ∈ NodeSet.add key res0 p) as Hpadd.
      { unfold NodeSet.add. fold key in Hmem. rewrite Hmem.
        apply elem_of_app. right. apply list_elem_of_here. }
      split; [done|]. split; [|split; [by apply Hadd|by intros y Hy; apply Hadd, Hres0]].
      intros y z [Hy|Hy]%elem_of_update Hz.
      - apply elem_of_add in Hy as [Hy| ->].
        + by apply Hadd, Hres0, (Hclosed0 y z).
        + by apply Hsubin, Hlinks.
      - by apply Hsubin, (Hclosed y z). }
    destruct (IHl (Some res1) res) as (Hl' & Hacc' & Hclosed').
    - intros q Hq. by apply Hl, list_elem_of_further.
    - by intros res2 [= <-].
    - by rewrite <-Hres1.
    - split; [|split; [|done]].
      + intros q [->|Hq]%elem_of_cons; [by apply (Hacc' res1)|by apply Hl'].
      + intros res2 [= <-] y Hy. by apply (Hacc' res1), Hsub1.
  }
  destruct (Hfold (GraphNode.links f (ArgumentGraph.store g !!! x)) (Some []) res)
    as (Hl & _ & Hclosed).
  - intros p Hp. by destruct (linked_in_graph x p Hp).
  - intros res0 [= <-]. split; [by intros y ?%elem_of_nil|].
    by intros y z ?%elem_of_nil.
  - done.
  - split; [exact Hl|exact Hclosed].
Qed.

Lemma closure_complete (fuel : nat) (x : ref) (res : list ref) :
  GraphNode.closure hash f fuel (ArgumentGraph.store g) x = Some res →
  ∀ y, tc (linked f (ArgumentGraph.store g)) x y → y ∈ res.
Proof.
  intros Hx y Hy. destruct (closure_closed fuel x res Hx) as [Hl Hclosed].
  assert (∀ a b, tc (linked f (ArgumentGraph.store g)) a b → a ∈ res → b ∈ res)
    as Htc.
  { intros a b Hab. induction Hab as [a b Hab|a b c Hab Hbc IH]; intros Ha.
    - by apply (Hclosed a b).
    - by apply IH, (Hclosed a b). }
  inversion Hy as [? ? Hxy|? p ? Hxp Hpy]; subst.
  - by apply Hl.
  - by apply (Htc p y Hpy), Hl.
Qed.

Lemma reaches_cycle_step (x : ref) :
  reaches_cycle f (ArgumentGraph.store g) x →
  ∃ y, linked f (ArgumentGraph.store g) x y
       ∧ reaches_cycle f (ArgumentGraph.store g) y.
Proof.
  intros (c & Hxc & Hcc). apply rtc_inv in Hxc as [->|(y & Hxy & Hyc)].
  - inversion Hcc as [? ? Hc|? y ? Hcy Hyc]; subst.
    + exists c. split; [done|]. exists c. split; [done|by apply tc_once].
    + exists y. split; [done|]. exists c. split; [by apply tc_rtc|done].
  - exists y. split; [done|]. by exists c.
Qed.

(** The view of a node from which the links lead into a cycle returns no
    set, whatever the limit on the depth of recursion. *)
Lemma closure_diverges (x : ref) :
  reaches_cycle f (ArgumentGraph.store g) x →
  ∀ fuel, GraphNode.closure hash f fuel (ArgumentGraph.store g) x = None.
Proof.
  intros Hx fuel.
  assert (∀ fuel' x,
            (fuel' ≤ fuel)%nat → reaches_cycle f (ArgumentGraph.store g) x →
            GraphNode.closure hash f fuel' (ArgumentGraph.store g) x = None) as Hall;
    [|by apply (Hall fuel x)].
  clear x Hx.
  induction fuel as [|fuel IH]; intros fuel' x Hle Hx.
  { by replace fuel' with 0%nat by lia. }
  destruct (decide (fuel' ≤ fuel)%nat) as [Hle'|Hgt]; [by apply IH|].
  replace fuel' with (S fuel) by lia. rewrite closure_S.
  destruct (reaches_cycle_step x Hx) as (y & Hxy & Hy).
  assert (∀ l acc,
            y ∈ l → (∀ p, p ∈ l → p ∈ ArgumentGraph.all_nodes g) →
            computed_within hash g f fuel acc →
            foldl (closure_step hash (ArgumentGraph.store g)
                     (GraphNode.closure hash f fuel (ArgumentGraph.store g)))
                  acc l = None) as Hfold.
  { induction l as [|p l IHl]; intros acc Hyl Hl Hacc;
      [by apply elem_of_nil in Hyl|].
    rewrite foldl_step. destruct (decide (p = y)) as [->|Hne].
    - assert (closure_step hash (ArgumentGraph.store g)
                (GraphNode.closure hash f fuel (ArgumentGraph.store g)) acc y = None)
        as ->; [|apply closure_step_None].
      unfold closure_step. destruct acc as [res|]; [|done].
      destruct (NodeSet.mem _ y res) eqn:Hmem.
      + apply mem_spec in Hmem as (z & Hz & Hk).
        destruct (Hacc res eq_refl z Hz) as (Hzin & fuel'' & Hle'' & Hsome).
        assert (z = y) as ->.
        { apply g_distinct; [done| |by apply Z.eqb_eq].
          apply Hl, list_elem_of_here. }
        rewrite (IH fuel'' y Hle'' Hy) in Hsome. by destruct Hsome.
      + by rewrite (IH fuel y (Nat.le_refl _) Hy).
    - apply IHl.
      + apply elem_of_cons in Hyl as [?|?]; [congruence|done].
      + intros q Hq. apply Hl. by apply list_elem_of_further.
      + apply (closure_step_computed hash g f);
          [apply (closure_computed hash g f g_built)| |done].
        apply Hl, list_elem_of_here. }
  apply Hfold.
  - exact Hxy.
  - intros p Hp. by destruct (linked_in_graph x p Hp).
  - intros res [= <-] z Hz. by apply elem_of_nil in Hz.
Qed.
End DistinctViewFacts.

Lemma tc_flip {A} (R S : relation A) (x y : A) :
  (∀ a b, R a b → S b a) → tc R x y → tc S y x.
Proof.
  intros HRS. induction 1 as [x y Hxy|x y z Hxy Hyz IH].
  - by apply tc_once, HRS.
  - eapply tc_r; [exact IH|by apply HRS].
Qed.

(** X24.  What a transitive view ([super_group_nodes],
    [sub_group_member_nodes], [ancestor_nodes], [descendant_nodes]: the
    view over the link set [f]) returns, in any store of nodes: only nodes
    that are reached from the node over one link or more, no two of them
    equal, and the same set under every larger limit on the depth of
    recursion. *)
Theorem view_sound (hash : Text → Z) (f : GraphNode.link) (fuel : nat)
    (st : list GraphNode.t) (x : ref) (res : list ref) :
  GraphNode.closure hash f fuel st x = Some res →
  (∀ y, y ∈ res → tc (linked f st) x y)
  ∧ (∀ y z, y ∈ res → z ∈ res →
            GraphNode.__eq__ hash (st !!! y) (GraphNode.Node (st !!! z)) = true →
            y = z)
  ∧ ∀ fuel', (fuel ≤ fuel')%nat → GraphNode.closure hash f fuel' st x = Some res.
Proof.
  intros Hx. split; [by apply (closure_sound hash f st fuel)|]. split.
  - intros y z Hy Hz Heq. apply Z.eqb_eq in Heq.
    exact (NoDup_fmap_inj _ _ y z (closure_keys_NoDup hash f st fuel x res Hx)
             Hy Hz Heq).
  - intros fuel' Hle. by apply (closure_mono hash f st fuel).
Qed.

(** X25.  A transitive view returns a set whenever the links go down a
    ranking of the nodes (every linked node has a smaller rank, as in a
    graph without cycles): the view of a node then needs no more nested
    calls than the rank of the node, plus one, and returns the same set
    under every larger limit. *)
Theorem view_terminates (hash : Text → Z) (f : GraphNode.link)
    (st : list GraphNode.t) (rank : ref → nat) (x : ref) :
  (∀ a y, linked f st a y → (rank y < rank a)%nat) →
  ∃ res, GraphNode.closure hash f (S (rank x)) st x = Some res
         ∧ ∀ fuel, (rank x < fuel)%nat →
                   GraphNode.closure hash f fuel st x = Some res.
Proof.
  intros Hrank. destruct (closure_ranked hash f st rank Hrank x) as [res Hres].
  exists res. split; [done|]. intros fuel Hlt.
  apply (closure_mono hash f st (S (rank x))); [lia|done].
Qed.

(** X26.  In every constructed graph, a transitive view returns a set
    for every node from which the links lead into no cycle: it needs no
    more nested calls than the graph has nodes, plus one, and returns the
    same set under every larger limit on the depth of recursion. *)
Theorem view_returns_without_cycle (hash : Text → Z)
    (intro trans zargs grps nzargs faq : list GraphNode.Init.t)
    (g : ArgumentGraph.t) (f : GraphNode.link) (x : ref) :
  ArgumentGraph.from_records hash intro trans zargs grps nzargs faq = Some g →
  ¬ reaches_cycle f (ArgumentGraph.store g) x →
  ∃ res, GraphNode.closure hash f (S (length (ArgumentGraph.all_nodes g)))
           (ArgumentGraph.store g) x = Some res
         ∧ ∀ fuel, (length (ArgumentGraph.all_nodes g) < fuel)%nat →
                   GraphNode.closure hash f fuel (ArgumentGraph.store g) x = Some res.
Proof.
  intros Hg Hacyclic.
  destruct (from_records_built hash intro trans zargs grps nzargs faq)
    as (g' & Hg' & Hb & _).
  assert (g' = g) as -> by congruence.
  destruct (closure_acyclic hash f (ArgumentGraph.store g)
              (length (ArgumentGraph.all_nodes g)) x (ArgumentGraph.all_nodes g))
    as [res Hres]; [|done|done|].
  - intros y Hy.
    assert (∀ a b, tc (linked f (ArgumentGraph.store g)) a b →
                   b ∈ ArgumentGraph.all_nodes g) as Htc.
    { intros a b Hab. induction Hab as [a b Hab|a b c Hab Hbc IH]; [|done].
      apply (built_stored _ _ Hb) in Hab.
      by destruct (edge_in hash g f a b Hb Hab). }
    by apply (Htc x y).
  - exists res. split; [done|]. intros fuel Hlt.
    apply (closure_mono hash f (ArgumentGraph.store g)
             (S (length (ArgumentGraph.all_nodes g)))); [lia|done].
Qed.

(** X27.  In a constructed graph in which no two distinct nodes compare
    equal, a set that a transitive view returns holds exactly the nodes
    reached from the node over one link or more: for [ancestor_nodes] the
    parents, their parents, and so on. *)
Theorem view_reachable (hash : Text → Z)
    (intro trans zargs grps nzargs faq : list GraphNode.Init.t)
    (g : ArgumentGraph.t) (f : GraphNode.link) (fuel : nat) (x y : ref)
    (res : list ref) :
  ArgumentGraph.from_records hash intro trans zargs grps nzargs faq = Some g →
  distinct_nodes hash g →
  GraphNode.closure hash f fuel (ArgumentGraph.store g) x = Some res →
  y ∈ res ↔ tc (linked f (ArgumentGraph.store g)) x y.
Proof.
  intros Hg Hd Hx.
  destruct (from_records_built hash intro trans zargs grps nzargs faq)
    as (g' & Hg' & Hb & _).
  assert (g' = g) as -> by congruence.
  split.
  - by apply (closure_sound hash f (ArgumentGraph.store g) fuel).
  - by apply (closure_complete hash g f Hb Hd fuel).
Qed.

(** X28.  In a constructed graph in which no two distinct nodes compare
    equal, a transitive view returns no set for a node from which the
    links lead into a cycle, whether the node lies on the cycle or not:
    under every limit on the depth of recursion, the nested calls exceed
    it. *)
Theorem view_diverges (hash : Text → Z)
    (intro trans zargs grps nzargs faq : list GraphNode.Init.t)
    (g : ArgumentGraph.t) (f : GraphNode.link) (x : ref) (fuel : nat) :
  ArgumentGraph.from_records hash intro trans zargs grps nzargs faq = Some g →
  distinct_nodes hash g →
  reaches_cycle f (ArgumentGraph.store g) x →
  GraphNode.closure hash f fuel (ArgumentGraph.store g) x = None.
Proof.
  intros Hg Hd Hx.
  destruct (from_records_built hash intro trans zargs grps nzargs faq)
    as (g' & Hg' & Hb & _).
  assert (g' = g) as -> by congruence.
  by apply (closure_diverges hash g f Hb Hd).
Qed.

Lemma linked_inverse (hash : Text → Z) (g : ArgumentGraph.t) (f : GraphNode.link)
    (a b : ref) :
  built hash g → distinct_nodes hash g →
  linked f (ArgumentGraph.store g) a b →
  linked (inverse f) (ArgumentGraph.store g) b a.
Proof.
  intros Hb Hd Hab. destruct (linked_in_graph hash g f Hb a b Hab) as [Ha Hbin].
  apply (stored_edge hash g Hb Hd (inverse f) b a Hbin Ha), edge_inverse.
  destruct f; by apply (stored_edge hash g Hb Hd _ a b Ha Hbin).
Qed.

(** X29.  In a constructed graph in which no two distinct nodes compare
    equal, the views up and down are converse: when [x.ancestor_nodes] and
    [y.descendant_nodes] return sets, [y] is an ancestor of [x] exactly
    when [x] is a descendant of [y]; and likewise for
    [x.super_group_nodes] and [y.sub_group_member_nodes]. *)
Theorem views_converse (hash : Text → Z)
    (intro trans zargs grps nzargs faq : list GraphNode.Init.t)
    (g : ArgumentGraph.t) (fuel fuel' : nat) (x y : ref) :
  ArgumentGraph.from_records hash intro trans zargs grps nzargs faq = Some g →
  distinct_nodes hash g →
  (∀ ancestors descendants,
     GraphNode.ancestor_nodes hash fuel (ArgumentGraph.store g) x = Some ancestors →
     GraphNode.descendant_nodes hash fuel' (ArgumentGraph.store g) y
       = Some descendants →
     y ∈ ancestors ↔ x ∈ descendants)
  ∧ (∀ groups members,
       GraphNode.super_group_nodes hash fuel (ArgumentGraph.store g) x = Some groups →
       GraphNode.sub_group_member_nodes hash fuel' (ArgumentGraph.store g) y
         = Some members →
       y ∈ groups ↔ x ∈ members).
Proof.
  intros Hg Hd.
  destruct (from_records_built hash intro trans zargs grps nzargs faq)
    as (g' & Hg' & Hb & _).
  assert (g' = g) as -> by congruence.
  assert (∀ f up down,
            GraphNode.closure hash f fuel (ArgumentGraph.store g) x = Some up →
            GraphNode.closure hash (inverse f) fuel' (ArgumentGraph.store g) y
              = Some down →
            y ∈ up ↔ x ∈ down) as Hconv.
  { intros f up down Hup Hdown. split; intros Hin.
    - apply (closure_complete hash g (inverse f) Hb Hd fuel' y down Hdown).
      apply (tc_flip (linked f (ArgumentGraph.store g))).
      + intros a b. by apply (linked_inverse hash).
      + by apply (closure_sound hash f (ArgumentGraph.store g) fuel x up).
    - apply (closure_complete hash g f Hb Hd fuel x up Hup).
      apply (tc_flip (linked (inverse f) (ArgumentGraph.store g))).
      + intros a b Hab. apply (linked_inverse hash g (inverse f)) in Hab; [|done..].
        by destruct f.
      + by apply (closure_sound hash (inverse f) (ArgumentGraph.store g) fuel' y down). }
  split.
  - intros ancestors descendants. apply (Hconv GraphNode.Parent).
  - intros groups members. apply (Hconv GraphNode.Group).
Qed.

(** ** Instances *)

Example from_string_examples :
  Stance.from_string " PRO " = Stance.PRO
  ∧ Stance.from_string "Con" = Stance.CON
  ∧ Stance.from_string "neutral" = Stance.OTHER
  ∧ Stance.from_string "p r o" = Stance.OTHER
  ∧ GraphNodeCategory.from_string "NZ" = GraphNodeCategory.NZ
  ∧ GraphNodeCategory.from_string " faq" = GraphNodeCategory.FAQ
  ∧ GraphNodeCategory.from_string "" = GraphNodeCategory.OTHER.
Proof. vm_compute. repeat split. Qed.

Example from_label_examples :
  Stance.from_label "Z.P1" = Stance.PRO
  ∧ Stance.from_label "Z.P1-1" = Stance.CON
  ∧ Stance.from_label "Z.K2-1" = Stance.PRO
  ∧ Stance.from_label "FAQ.Q1" = Stance.OTHER
  ∧ Stance.from_label "NZ.PK1-1" = Stance.PRO.
Proof. vm_compute. repeat split. Qed.

Example split_by_comma_examples :
  ReadArgumentGraph.split_by_comma "Z.P1, Z.P2" = ["Z.P1"; "Z.P2"]
  ∧ ReadArgumentGraph.split_by_comma " Z.P1 ,,Z.P2 Z.P3," = ["Z.P1"; "Z.P2"; "Z.P3"]
  ∧ ReadArgumentGraph.split_by_comma " , " = []
  ∧ ReadArgumentGraph.split_by_comma "" = [].
Proof. vm_compute. repeat split. Qed.

(** The node made of [sample_row]; the second row has no full text. *)
Example get_nodes_from_df_example :
  ReadArgumentGraph.get_nodes_from_df [sample_row; skipped_row]
    (Some [ReadArgumentGraph.Sample.mk (Some " Z.P1-1 ") (Some "I disagree");
           ReadArgumentGraph.Sample.mk (Some "Z.P1-1") (Some "not matched");
           ReadArgumentGraph.Sample.mk (Some " Z.P1-1 ") None]) =
  Returns
    [Some (GraphNode.mk "Z.P1-1" "Counter argument" ["Z.P1"] "Z.P1-1" "" ""
             ["G1"; "G2"] 2 (-1) GraphNodeCategory.Z Stance.CON
             ["I disagree"; "nan"] ["Z.P1-1"; "Z.K3"] [] [] [] [] [])].
Proof. vm_compute. reflexivity. Qed.

(** What a column that is no parameter, an integer label, an integer in
    the parents cell and an integer full text give. *)
Example get_nodes_from_df_raises :
  ReadArgumentGraph.get_nodes_from_df [previous_label_row] None = Raises TypeError
  ∧ ReadArgumentGraph.get_nodes_from_df
      [[("label", ReadArgumentGraph.Cell.Int 7);
        ("full_text", ReadArgumentGraph.Cell.Str "text")]] None =
    Raises AttributeError
  ∧ ReadArgumentGraph.get_nodes_from_df
      [[("label", ReadArgumentGraph.Cell.Str "Z.P1");
        ("full_text", ReadArgumentGraph.Cell.Str "text");
        ("parents", ReadArgumentGraph.Cell.Int 3)]] None =
    Raises TypeError
  ∧ ReadArgumentGraph.get_nodes_from_df
      [[("label", ReadArgumentGraph.Cell.Str "Z.P1");
        ("full_text", ReadArgumentGraph.Cell.Int 7)]] None =
    Returns [None].
Proof. vm_compute. repeat split. Qed.

Example num_arguments_example :
  let g := resolved sample_hash [] [] stance_rows [] [] [] in
  ArgumentGraph.z_nodes g = [0; 1; 2]%nat
  ∧ ArgumentGraph.first_level_z_nodes sample_hash g = [0; 1]%nat
  ∧ ArgumentGraph.primary_z_nodes sample_hash g = [0; 1]%nat
  ∧ ArgumentGraph.primary_z_labels sample_hash g = ["Z.P1"; "Z.K1"]
  ∧ ArgumentGraph.get_num_arguments_pro sample_hash g = 1%nat
  ∧ ArgumentGraph.get_num_arguments_con sample_hash g = 1%nat
  ∧ GraphNode.children (ArgumentGraph.store g) (ArgumentGraph.node g 0) = ["Z.P1-1"]
  ∧ ArgumentGraph.user_intent_labels g = ["Z.P1"; "Z.K1"; "Z.P1-1"].
Proof. vm_compute. repeat split. Qed.

(** ** Witnesses *)

Lemma stance_from_string_normalises_witness :
  Stance.from_string ("  " ++ "PRO" ++ " ")%string = Stance.from_string "PRO"
  ∧ Stance.from_string (Text.lower "PRO") = Stance.from_string "PRO"
  ∧ (Stance.from_string "PRO" = Stance.PRO ↔ Text.strip (Text.lower "PRO") = "pro")
  ∧ (Stance.from_string "PRO" = Stance.CON ↔ Text.strip (Text.lower "PRO") = "con")
  ∧ (Stance.from_string "PRO" = Stance.OTHER ↔
       Text.strip (Text.lower "PRO") ≠ "pro" ∧ Text.strip (Text.lower "PRO") ≠ "con").
Proof. apply (stance_from_string_normalises "  " "PRO" " "); reflexivity. Defined.

Lemma category_from_string_normalises_witness :
  GraphNodeCategory.from_string (" " ++ "Faq" ++ "  ")%string =
    GraphNodeCategory.from_string "Faq"
  ∧ GraphNodeCategory.from_string (Text.lower "Faq") =
      GraphNodeCategory.from_string "Faq"
  ∧ (GraphNodeCategory.from_string "Faq" = GraphNodeCategory.Z ↔
       Text.strip (Text.lower "Faq") = "z")
  ∧ (GraphNodeCategory.from_string "Faq" = GraphNodeCategory.NZ ↔
       Text.strip (Text.lower "Faq") = "nz")
  ∧ (GraphNodeCategory.from_string "Faq" = GraphNodeCategory.FAQ ↔
       Text.strip (Text.lower "Faq") = "faq")
  ∧ (GraphNodeCategory.from_string "Faq" = GraphNodeCategory.OTHER ↔
       Text.strip (Text.lower "Faq") ∉ ["z"; "nz"; "faq"]).
Proof. apply (category_from_string_normalises " " "Faq" "  "); reflexivity. Defined.

Lemma from_label_counter_witness :
  (Stance.from_label ("Z.P1" ++ "-" ++ "1")%string = Stance.CON ↔
     Stance.from_label "Z.P1" = Stance.PRO)
  ∧ (Stance.from_label ("Z.P1" ++ "-" ++ "1")%string = Stance.PRO ↔
       Stance.from_label "Z.P1" = Stance.CON).
Proof.
  apply (from_label_counter "Z.P1" "1"); [|reflexivity..].
  vm_compute. intros Hne. discriminate Hne.
Defined.

Lemma split_by_comma_at_separator_witness :
  ReadArgumentGraph.split_by_comma ("Z.P1" ++ String "," " Z.P2")%string =
    ReadArgumentGraph.split_by_comma "Z.P1"
    ++ ReadArgumentGraph.split_by_comma " Z.P2"
  ∧ ReadArgumentGraph.split_by_comma "G1" = ["G1"]
  ∧ ReadArgumentGraph.split_by_comma "" = [].
Proof.
  apply (split_by_comma_at_separator "Z.P1" " Z.P2" "G1" ","); [reflexivity|].
  split; [intros Hne; discriminate Hne|reflexivity].
Defined.

Lemma split_by_comma_join_witness :
  ReadArgumentGraph.split_by_comma (String.concat ", " ["Z.P1"; "Z.P2"; "NZ.K1"]) =
  ["Z.P1"; "Z.P2"; "NZ.K1"].
Proof.
  apply (split_by_comma_join ", " ["Z.P1"; "Z.P2"; "NZ.K1"]).
  - intros Hne. discriminate Hne.
  - reflexivity.
  - repeat apply Forall_cons_2; try apply Forall_nil_2;
      (split; [intros Hne; discriminate Hne|reflexivity]).
Defined.

Lemma get_nodes_from_df_labels_witness :
  ∃ n, ReadArgumentGraph.get_nodes_from_df [sample_row] None = Returns [Some n]
       ∧ GraphNode.label n = Text.strip " Z.P1-1 "
       ∧ GraphNode.full_text n = "Counter argument"
       ∧ (∀ p, p ∈ GraphNode.parents n ↔
               p ≠ GraphNode.label n
               ∧ ∃ s, ReadArgumentGraph.args sample_row !! "parents" =
                        Some (ReadArgumentGraph.Cell.Str s)
                      ∧ p ∈ ReadArgumentGraph.split_by_comma s)
       ∧ (∀ g, g ∈ GraphNode.groups n ↔
               g ≠ GraphNode.label n
               ∧ ∃ s, ReadArgumentGraph.args sample_row !! "groups" =
                        Some (ReadArgumentGraph.Cell.Str s)
                      ∧ g ∈ ReadArgumentGraph.split_by_comma s)
       ∧ (∀ x, x ∈ GraphNode.similars n ↔
               ∃ s, ReadArgumentGraph.args sample_row !! "similars" =
                      Some (ReadArgumentGraph.Cell.Str s)
                    ∧ x ∈ ReadArgumentGraph.split_by_comma s).
Proof.
  apply (get_nodes_from_df_labels sample_row None " Z.P1-1 " "Counter argument");
    vm_compute; reflexivity.
Defined.

Lemma link_sets_exact_witness :
  let g := resolved sample_hash [] [] linked_zargs linked_groups [] [] in
  let label r := GraphNode.label (ArgumentGraph.node g r) in
  (0%nat ∈ GraphNode.parent_nodes (ArgumentGraph.node g 1) ↔
     label 0%nat ∈ GraphNode.parents (ArgumentGraph.node g 1))
  ∧ (1%nat ∈ GraphNode.child_nodes (ArgumentGraph.node g 0) ↔
       label 0%nat ∈ GraphNode.parents (ArgumentGraph.node g 1))
  ∧ (0%nat ∈ GraphNode.group_nodes (ArgumentGraph.node g 1) ↔
       label 0%nat ∈ GraphNode.groups (ArgumentGraph.node g 1))
  ∧ (1%nat ∈ GraphNode.group_member_nodes (ArgumentGraph.node g 0) ↔
       label 0%nat ∈ GraphNode.groups (ArgumentGraph.node g 1))
  ∧ (0%nat ∈ GraphNode.similar_nodes (ArgumentGraph.node g 1) ↔
       label 0%nat ∈ GraphNode.similars (ArgumentGraph.node g 1)
       ∨ label 1%nat ∈ GraphNode.similars (ArgumentGraph.node g 0)).
Proof.
  intros g.
  assert (ArgumentGraph.all_nodes g = [0; 1; 2]%nat) as Hall by (vm_compute; reflexivity).
  apply (link_sets_exact sample_hash [] [] linked_zargs linked_groups [] [] g 1 0).
  - apply from_records_resolved.
  - apply distinct_nodesb_spec. vm_compute. reflexivity.
  - rewrite Hall. apply list_elem_of_further, list_elem_of_here.
  - rewrite Hall. apply list_elem_of_here.
Defined.

Lemma z_node_sets_exact_witness :
  let g := resolved sample_hash [] [] stance_rows [] [] [] in
  ArgumentGraph.first_level_z_nodes sample_hash g =
    filter (λ r, GraphNode.has_parent_labels (ArgumentGraph.node g r) = false)
           (ArgumentGraph.z_nodes g)
  ∧ ArgumentGraph.primary_z_nodes sample_hash g =
      filter (λ r, 0 ≤ GraphNode.rating (ArgumentGraph.node g r))
             (ArgumentGraph.z_nodes g)
  ∧ ArgumentGraph.get_num_arguments_pro sample_hash g =
      length (filter (λ r, GraphNode.category (ArgumentGraph.node g r)
                             = GraphNodeCategory.Z
                           ∧ GraphNode.parents (ArgumentGraph.node g r) = []
                           ∧ GraphNode.stance (ArgumentGraph.node g r) = Stance.PRO)
                     (ArgumentGraph.all_nodes g))
  ∧ ArgumentGraph.get_num_arguments_con sample_hash g =
      length (filter (λ r, GraphNode.category (ArgumentGraph.node g r)
                             = GraphNodeCategory.Z
                           ∧ GraphNode.parents (ArgumentGraph.node g r) = []
                           ∧ GraphNode.stance (ArgumentGraph.node g r) = Stance.CON)
                     (ArgumentGraph.all_nodes g))
  ∧ ∀ l, l ∈ ArgumentGraph.primary_z_labels sample_hash g ↔
         ∃ r, r ∈ ArgumentGraph.all_nodes g
              ∧ GraphNode.category (ArgumentGraph.node g r) = GraphNodeCategory.Z
              ∧ 0 ≤ GraphNode.rating (ArgumentGraph.node g r)
              ∧ GraphNode.label (ArgumentGraph.node g r) = l.
Proof.
  intros g.
  apply (z_node_sets_exact sample_hash [] [] stance_rows [] [] [] g).
  - apply from_records_resolved.
  - apply distinct_nodesb_spec. vm_compute. reflexivity.
Defined.

Lemma view_sound_witness :
  let st := ArgumentGraph.store (resolved sample_hash [] [] chain_rows [] [] []) in
  (∀ y, y ∈ [1; 0]%nat → tc (linked GraphNode.Parent st) 2%nat y)
  ∧ (∀ y z, y ∈ [1; 0]%nat → z ∈ [1; 0]%nat →
            GraphNode.__eq__ sample_hash (st !!! y) (GraphNode.Node (st !!! z)) = true →
            y = z)
  ∧ ∀ fuel', (3 ≤ fuel')%nat →
             GraphNode.closure sample_hash GraphNode.Parent fuel' st 2 = Some [1; 0]%nat.
Proof.
  intros st. apply (view_sound sample_hash GraphNode.Parent 3 st 2 [1; 0]%nat).
  vm_compute. reflexivity.
Defined.

Lemma chain_ranked :
  let st := ArgumentGraph.store (resolved sample_hash [] [] chain_rows [] [] []) in
  ∀ a y, linked GraphNode.Parent st a y → (y < a)%nat.
Proof.
  intros st a y. unfold linked.
  assert (∀ a, GraphNode.links GraphNode.Parent (st !!! a) =
               match a with
               | 1%nat => [0%nat]
               | 2%nat => [1%nat]
               | _ => []
               end) as Hlinks.
  { intros [|[|[|b]]]; vm_compute; reflexivity. }
  rewrite Hlinks. destruct a as [|[|[|b]]]; intros Hy.
  - by apply elem_of_nil in Hy.
  - apply list_elem_of_singleton in Hy as ->. lia.
  - apply list_elem_of_singleton in Hy as ->. lia.
  - by apply elem_of_nil in Hy.
Qed.

Lemma view_terminates_witness :
  let st := ArgumentGraph.store (resolved sample_hash [] [] chain_rows [] [] []) in
  ∃ res, GraphNode.closure sample_hash GraphNode.Parent 3 st 2 = Some res
         ∧ ∀ fuel, (2 < fuel)%nat →
                   GraphNode.closure sample_hash GraphNode.Parent fuel st 2 = Some res.
Proof.
  intros st.
  apply (view_terminates sample_hash GraphNode.Parent st (λ r, r) 2).
  exact chain_ranked.
Defined.

Lemma view_reachable_witness :
  let g := resolved sample_hash [] [] chain_rows [] [] [] in
  0%nat ∈ [1; 0]%nat ↔ tc (linked GraphNode.Parent (ArgumentGraph.store g)) 2%nat 0%nat.
Proof.
  intros g.
  apply (view_reachable sample_hash [] [] chain_rows [] [] [] g GraphNode.Parent 3 2 0
           [1; 0]%nat).
  - apply from_records_resolved.
  - apply distinct_nodesb_spec. vm_compute. reflexivity.
  - vm_compute. reflexivity.
Defined.

Lemma lasso_links :
  let st := ArgumentGraph.store (resolved sample_hash [] [] lasso_rows [] [] []) in
  linked GraphNode.Parent st 2 0
  ∧ linked GraphNode.Parent st 0 1
  ∧ linked GraphNode.Parent st 1 0.
Proof.
  intros st. unfold linked.
  assert (GraphNode.links GraphNode.Parent (st !!! 2%nat) = [0%nat]) as ->
    by (vm_compute; reflexivity).
  assert (GraphNode.links GraphNode.Parent (st !!! 0%nat) = [1%nat]) as ->
    by (vm_compute; reflexivity).
  assert (GraphNode.links GraphNode.Parent (st !!! 1%nat) = [0%nat]) as ->
    by (vm_compute; reflexivity).
  split; [|split]; apply list_elem_of_here.
Qed.

Lemma view_diverges_witness :
  let g := resolved sample_hash [] [] lasso_rows [] [] [] in
  GraphNode.closure sample_hash GraphNode.Parent 1000 (ArgumentGraph.store g) 2 = None.
Proof.
  intros g.
  apply (view_diverges sample_hash [] [] lasso_rows [] [] [] g GraphNode.Parent 2 1000).
  - apply from_records_resolved.
  - apply distinct_nodesb_spec. vm_compute. reflexivity.
  - destruct lasso_links as (H20 & H01 & H10). exists 0%nat. split.
    + apply rtc_once. exact H20.
    + eapply tc_l; [exact H01|]. apply tc_once. exact H10.
Defined.

Lemma views_converse_witness :
  let g := resolved sample_hash [] [] chain_rows [] [] [] in
  GraphNode.ancestor_nodes sample_hash 3 (ArgumentGraph.store g) 2 = Some [1; 0]%nat
  ∧ GraphNode.descendant_nodes sample_hash 3 (ArgumentGraph.store g) 0
      = Some [1; 2]%nat
  ∧ (0%nat ∈ [1; 0]%nat ↔ 2%nat ∈ [1; 2]%nat).
Proof.
  intros g.
  assert (GraphNode.ancestor_nodes sample_hash 3 (ArgumentGraph.store g) 2
          = Some [1; 0]%nat) as Hup by (vm_compute; reflexivity).
  assert (GraphNode.descendant_nodes sample_hash 3 (ArgumentGraph.store g) 0
          = Some [1; 2]%nat) as Hdown by (vm_compute; reflexivity).
  split; [exact Hup|]. split; [exact Hdown|].
  pose proof (views_converse sample_hash [] [] chain_rows [] [] [] g 3 3 2 0)
    as Hconv.
  destruct Hconv as [Hconv _].
  - apply from_records_resolved.
  - apply distinct_nodesb_spec. vm_compute. reflexivity.
  - exact (Hconv [1; 0]%nat [1; 2]%nat Hup Hdown).
Defined.

Lemma get_nodes_from_df_samples_witness :
  ∃ n, ReadArgumentGraph.get_nodes_from_df [sample_row]
         (Some [ReadArgumentGraph.Sample.mk (Some " Z.P1-1 ") (Some "I disagree");
                ReadArgumentGraph.Sample.mk (Some "Z.P1-1") (Some "not matched")])
       = Returns [Some n]
       ∧ GraphNode.label n = "Z.P1-1"
       ∧ GraphNode.samples n = ["I disagree"].
Proof.
  destruct (get_nodes_from_df_samples sample_row
              (Some [ReadArgumentGraph.Sample.mk (Some " Z.P1-1 ") (Some "I disagree");
                     ReadArgumentGraph.Sample.mk (Some "Z.P1-1") (Some "not matched")])
              " Z.P1-1 " "Counter argument")
    as (n & Hn & _); [vm_compute; reflexivity..|].
  exists n. split; [exact Hn|]. vm_compute in Hn. injection Hn as <-.
  vm_compute. split; reflexivity.
Defined.

Lemma get_nodes_from_df_rows_witness :
  ReadArgumentGraph.get_nodes_from_df
    ([sample_row] ++ previous_label_row :: [sample_row]) None = Raises TypeError
  ∧ ReadArgumentGraph.get_nodes_from_df ([sample_row] ++ skipped_row :: []) None =
    ReadArgumentGraph.get_nodes_from_df ([sample_row] ++ []) None
  ∧ ∃ nodes, ReadArgumentGraph.get_nodes_from_df [sample_row; skipped_row] None =
               Returns (Some <$> nodes)
             ∧ (λ n, (GraphNode.label n, GraphNode.full_text n)) <$> nodes =
               [("Z.P1-1", "Counter argument")].
Proof.
  destruct (get_nodes_from_df_rows None) as (Hskip & Hmade & _ & Hraise).
  split; [|split].
  - apply (Hraise [sample_row] previous_label_row [sample_row] [Some sample_node]).
    + vm_compute. reflexivity.
    + split; [exists (ReadArgumentGraph.Cell.Str " Z.P1-1 ")
             |exists (ReadArgumentGraph.Cell.Str "Counter argument")];
        vm_compute; reflexivity.
    + intros z Hz. vm_compute in Hz. discriminate Hz.
    + intros z Hz. vm_compute in Hz. discriminate Hz.
    + exists "previous_label". split.
      * exists (ReadArgumentGraph.Cell.Str "Z.P1"). vm_compute. reflexivity.
      * apply (bool_decide_unpack _). vm_compute. exact I.
  - apply (Hskip [sample_row] skipped_row []).
    intros [_ [t Ht]]. vm_compute in Ht. discriminate Ht.
  - destruct (Hmade [sample_row; skipped_row]) as (nodes & Hnodes & Hattrs).
    + intros row Hrow Hkept.
      apply elem_of_cons in Hrow as [->|Hrow]; [vm_compute; reflexivity|].
      apply list_elem_of_singleton in Hrow as ->.
      destruct Hkept as [_ [t Ht]]. vm_compute in Ht. discriminate Ht.
    + exists nodes. split; [exact Hnodes|].
      rewrite Hattrs. vm_compute. reflexivity.
Defined.

Lemma from_dataframes_reads_witness :
  (∃ g, ArgumentGraph.from_dataframes sample_hash sample_dataframes None =
          Returns (Some g)
        ∧ nodes_at g (ArgumentGraph.z_arguments_nodes g) = [sample_node])
  ∧ ArgumentGraph.from_dataframes sample_hash
      ([("intros", [])] ++ ("previous", [previous_label_row]) :: sample_dataframes)
      None = Raises TypeError
  ∧ ArgumentGraph.from_dataframes sample_hash [("zargs", [sample_row])] None =
    Raises KeyError.
Proof.
  split; [|split].
  - destruct (from_dataframes_reads sample_hash sample_dataframes None)
      as (_ & _ & Hreturns).
    destruct (Hreturns ltac:(apply (bool_decide_unpack _); vm_compute; exact I)
                ltac:(intros i Hi;
                      repeat (apply elem_of_cons in Hi as [->|Hi]);
                      try (by apply elem_of_nil in Hi);
                      [exists []|exists []|exists [Some sample_node]
                      |exists []|exists []|exists []]; vm_compute; reflexivity)
                [] [] [sample_row; skipped_row] [] [] []
                [] [] [sample_node] [] [] [])
      as (g & Hg & _ & _ & Hz & _);
      try (vm_compute; reflexivity);
      try (repeat first [apply list_elem_of_here | apply list_elem_of_further]).
    exists g. split; [exact Hg|exact Hz].
  - destruct (from_dataframes_reads sample_hash
                ([("intros", [])] ++ ("previous", [previous_label_row])
                 :: sample_dataframes) None) as (Hraises & _ & _).
    apply (Hraises [("intros", [])] ("previous", [previous_label_row])
             sample_dataframes TypeError eq_refl).
    + intros i Hi%list_elem_of_singleton. subst i. exists []. reflexivity.
    + vm_compute. reflexivity.
  - destruct (from_dataframes_reads sample_hash [("zargs", [sample_row])] None)
      as (_ & Hkey & _).
    apply Hkey.
    + intros i Hi%list_elem_of_singleton. subst i. exists [Some sample_node].
      vm_compute. reflexivity.
    + exists "faq". split.
      * unfold partition_keys.
        repeat first [apply list_elem_of_here | apply list_elem_of_further].
      * apply (bool_decide_unpack _). vm_compute. exact I.
Defined.

Lemma view_returns_without_cycle_witness :
  let g := resolved sample_hash [] [] chain_rows [] [] [] in
  ∃ res, GraphNode.closure sample_hash GraphNode.Parent
           (S (length (ArgumentGraph.all_nodes g))) (ArgumentGraph.store g) 2
         = Some res
         ∧ ∀ fuel, (length (ArgumentGraph.all_nodes g) < fuel)%nat →
                   GraphNode.closure sample_hash GraphNode.Parent fuel
                     (ArgumentGraph.store g) 2 = Some res.
Proof.
  intros g.
  apply (view_returns_without_cycle sample_hash [] [] chain_rows [] [] [] g
           GraphNode.Parent 2).
  - apply from_records_resolved.
  - intros (c & _ & Hcc).
    assert (∀ a b, tc (linked GraphNode.Parent (ArgumentGraph.store g)) a b →
                   (b < a)%nat) as Hdown.
    { intros a b Hab. induction Hab as [a b Hab|a b c' Hab Hbc IH].
      - by apply chain_ranked.
      - apply chain_ranked in Hab. lia. }
    apply Hdown in Hcc. lia.
Defined.
